(** * brocli: command resolution and option parsing

    A shallow embedding of [command-core.ts]: definition-time validation
    ([validateOptions], [command], [validateCommands]), the candidate scanner
    and recursive command resolver ([getCommand], [getCommandInner]), the
    option parser ([parseArg], [parseOptions]) and the pipeline ([rawCli],
    [test]), followed by the properties established about them.

    Conventions of the embedding.
    - JavaScript strings are [string]; [toLowerCase] lowers the ASCII letters,
      which is all the source compares against (['true'], ['false'], ['0'],
      ['1']).
    - Array indices that the source decrements are [Z]; [slice] follows the
      JavaScript rules for negative and out-of-range bounds.
    - A [throw] is the [Throw] case of [result]; every factory of the
      "Message area" is a constructor of [Error] carrying its arguments.
    - A plain object is the association list of its own properties in
      insertion order, with distinct keys; a record of options is given in
      the order in which its keys were declared.  [objectEntries] is the
      order in which [Object.entries], [Object.values] and [for ... in]
      enumerate it: integer-like keys first, in ascending order.  An
      assignment to the key [__proto__] adds no own property ([assign]).
      The keys of [result] in [parseOptions] are assumed not to shadow
      members of [Object.prototype]; [validateOptions] yields no such key.
    - [Number], [isNaN], the comparison of numbers and [isInt] (from
      [./util]) are the operations of the class [JsNumber]. *)

From Stdlib Require Import String Ascii List ZArith Lia Bool Arith.
From Equations Require Import Equations.
Import ListNotations.

Open Scope string_scope.
Open Scope Z_scope.

Set Implicit Arguments.

(** ** Strings and arrays *)

Definition startsWith (s prefix : string) : bool := String.prefix prefix s.

Fixpoint includes (s : string) (c : ascii) : bool :=
  match s with
  | EmptyString => false
  | String a s' => if Ascii.eqb a c then true else includes s' c
  end.

(** [s.split(c)] for a one-character separator: never the empty list. *)
Fixpoint split (s : string) (c : ascii) : list string :=
  match s with
  | EmptyString => [EmptyString]
  | String a s' =>
      if Ascii.eqb a c then EmptyString :: split s' c
      else match split s' c with
           | [] => [String a EmptyString]
           | h :: t => String a h :: t
           end
  end.

Definition join (l : list string) (sep : string) : string := String.concat sep l.

Definition lowerAscii (a : ascii) : ascii :=
  let n := nat_of_ascii a in
  if (Nat.leb 65 n && Nat.leb n 90)%bool then ascii_of_nat (n + 32) else a.

Fixpoint toLowerCase (s : string) : string :=
  match s with
  | EmptyString => EmptyString
  | String a s' => String (lowerAscii a) (toLowerCase s')
  end.

(** Truthiness of a string: only the empty string is falsy. *)
Definition truthy (s : string) : bool := negb (String.eqb s "").

(** [names.find((n) => n === x)] used as a condition: the element found must
    itself be truthy. *)
Definition findTruthy (names : list string) (x : string) : bool :=
  match find (String.eqb x) names with
  | Some n => truthy n
  | None => false
  end.

Definition slice {A : Type} (arr : list A) (start stop : Z) : list A :=
  let len := Z.of_nat (length arr) in
  let norm k := if k <? 0 then Z.max (len + k) 0 else Z.min k len in
  firstn (Z.to_nat (norm stop - norm start)) (skipn (Z.to_nat (norm start)) arr).

Definition removeByIndex {A : Type} (arr : list A) (idx : Z) : list A :=
  slice arr 0 idx ++ slice arr (idx + 1) (Z.of_nat (length arr)).

(** [arr[i]] *)
Definition at_ {A : Type} (arr : list A) (i : Z) : option A :=
  if i <? 0 then None else nth_error arr (Z.to_nat i).

(** ** Numbers *)

Class JsNumber := {
  num : Type;
  Number : string -> num;
  isNaN : num -> bool;
  isInt : num -> bool;
  num_lt : num -> num -> bool
}.

(** A small instance for running the definitions on worked inputs: decimal
    integer literals with an optional minus sign, everything else [NaN].  It
    agrees with the JavaScript conversion on such literals of magnitude up
    to 2^53 and on text that holds no digit; it is no model of the
    conversion elsewhere (fractions, exponents, white space, larger
    integers), and no theorem below depends on it.  Its reader of decimal
    numerals, [digits], is exact; [arrayIndex] uses it as well. *)
Module Decimal.

Definition digit (a : ascii) : option Z :=
  let n := nat_of_ascii a in
  if (Nat.leb 48 n && Nat.leb n 57)%bool then Some (Z.of_nat (n - 48)) else None.

Fixpoint digits (acc : Z) (s : string) : option Z :=
  match s with
  | EmptyString => Some acc
  | String a s' =>
      match digit a with
      | Some d => digits (10 * acc + d) s'
      | None => None
      end
  end.

Definition parse (s : string) : option Z :=
  match s with
  | EmptyString => Some 0
  | String "-"%char (String a s') =>
      option_map Z.opp (digits 0 (String a s'))
  | _ => digits 0 s
  end.

Definition is_none {A : Type} (o : option A) : bool :=
  match o with Some _ => false | None => true end.

Definition lt (a b : option Z) : bool :=
  match a, b with
  | Some x, Some y => x <? y
  | _, _ => false
  end.

#[export] Instance number : JsNumber := {|
  num := option Z;
  Number := parse;
  isNaN := is_none;
  isInt := fun n => negb (is_none n);
  num_lt := lt
|}.

End Decimal.

(** ** Results *)

Inductive result (E A : Type) : Type :=
| Ok (a : A)
| Throw (e : E).
Arguments Ok {E A} a.
Arguments Throw {E A} e.

Definition bind {E A B : Type} (r : result E A) (k : A -> result E B) : result E B :=
  match r with
  | Ok a => k a
  | Throw e => Throw e
  end.

Notation "x <- r ;; k" := (bind r (fun x => k))
  (at level 61, r at next level, right associativity).

(** ** Data model *)

Section Model.

Context `{JN : JsNumber}.

(** [OutputType = string | boolean | number | undefined] *)
Inductive OutputType : Type :=
| VUndefined
| VString (s : string)
| VBoolean (b : bool)
| VNumber (n : num).

Inductive OptionType : Type := TString | TBoolean | TNumber | TPositional.

Definition isPositional (t : OptionType) : bool :=
  match t with TPositional => true | _ => false end.

(** [BuilderConfig]: what the option builder hands to [validateOptions]. *)
Record BuilderConfig : Type := mkBuilderConfig {
  cfg_name : option string;
  cfg_aliases : list string;
  cfg_type : OptionType;
  cfg_default : OutputType;
  cfg_isRequired : bool;
  cfg_isInt : bool;
  cfg_minVal : option num;
  cfg_maxVal : option num;
  cfg_enumVals : option (list string)
}.

(** [ProcessedBuilderConfig]: the name is always present. *)
Record ProcessedBuilderConfig : Type := mkProcessed {
  opt_name : string;
  opt_aliases : list string;
  opt_type : OptionType;
  opt_default : OutputType;
  opt_isRequired : bool;
  opt_isInt : bool;
  opt_minVal : option num;
  opt_maxVal : option num;
  opt_enumVals : option (list string)
}.

Definition OptEntry : Type := (string * ProcessedBuilderConfig)%type.

(** [Command].  The handler and the transform are opaque callables: only
    their presence is recorded.  The [parent] back-reference, used for
    messages alone, is left out. *)
#[warnings="-register-all"]
Inductive Command : Type := mkCommand {
  cmd_name : string;
  cmd_aliases : option (list string);
  cmd_options : option (list OptEntry);
  cmd_subcommands : option (list Command);
  cmd_transform : bool;
  cmd_handler : bool
}.

Record RawCommand : Type := mkRawCommand {
  raw_name : option string;
  raw_aliases : option (list string);
  raw_options : option (list (string * BuilderConfig));
  raw_subcommands : option (list Command);
  raw_transform : bool;
  raw_handler : bool
}.

Record CommandCandidate : Type := mkCandidate {
  data : string;
  originalIndex : Z
}.

(** The errors of the "Message area", the definition-time [BroCliError]s and
    the runtime [TypeError] of destructuring [undefined]. *)
Inductive Error : Type :=
| unknownCommand (caller : string)
| unknownSubcommand (command : Command) (caller : string)
| missingRequired (command : string) (missingOpts : list (list string))
| unrecognizedOptions (command : string) (unrecognizedArgs : list string)
| invalidBooleanSyntax (matchedName : string)
| invalidStringSyntax (matchedName : string)
| enumViolation (matchedName : string) (received : option string) (values : list string)
| enumViolationPos (matchedName : string) (received : string) (values : list string)
| invalidNumberSyntax (matchedName : string)
| invalidNumberValue (matchedName : string) (received : option string)
| invalidInteger (matchedName : string) (received : option string)
| belowMin (matchedName : string) (received : option string) (min : num)
| aboveMax (matchedName : string) (received : option string) (max : num)
| optionNameHasEq (name : string)
| optionNameReserved (name reserved : string)
| optionNameInUse (name owner : string)
| optionAliasInUse (name alias owner : string)
| optionDuplicateAlias (name alias : string)
| commandSubcommandsAndPositionals (name : option string)
| commandWithoutName
| commandNameDash (name : string)
| commandAliasDash (name : string)
| commandNameHelp (name : string)
| commandNameBoolean (name : string) (n : option string)
| commandDuplicateAlias (name : string) (n : option string)
| commandNameInUse (cmd : Command) (parent : option Command) (owner : string)
| commandAliasInUse (cmd : Command) (alias : string) (parent : option Command) (owner : string)
| TypeError.

Definition res (A : Type) : Type := result Error A.

(** The messages of the two aggregate errors, as the source builds them. *)
Definition missingRequiredMessage (command : string) (missingOpts : list (list string)) : string :=
  "Command '" ++ command ++ "' is missing following required options: "
  ++ join (map (fun opt =>
                  match opt with
                  | [] => EmptyString
                  | name :: [] => name
                  | name :: aliases => name ++ " [" ++ join aliases ", " ++ "]"
                  end) missingOpts) ", ".

Definition unrecognizedOptionsMessage (command : string) (unrecognizedArgs : list string) : string :=
  "Unrecognized options for command '" ++ command ++ "': " ++ join unrecognizedArgs ", ".

(** ** Objects as insertion-ordered maps *)

Fixpoint setKey {V : Type} (o : list (string * V)) (k : string) (v : V) : list (string * V) :=
  match o with
  | [] => [(k, v)]
  | (k', v') :: t => if String.eqb k' k then (k, v) :: t else (k', v') :: setKey t k v
  end.

Fixpoint getKey {V : Type} (o : list (string * V)) (k : string) : option V :=
  match o with
  | [] => None
  | (k', v') :: t => if String.eqb k' k then Some v' else getKey t k
  end.

(** [result[k]]: a missing key reads as [undefined]. *)
Definition readKey (o : list (string * OutputType)) (k : string) : OutputType :=
  match getKey o k with Some v => v | None => VUndefined end.

Definition isUndefined (v : OutputType) : bool :=
  match v with VUndefined => true | _ => false end.

(** [a ?? b] *)
Definition coalesce (a b : OutputType) : OutputType :=
  if isUndefined a then b else a.

(** The array index that a key spells, if any: a decimal numeral without
    leading zero, at most 2^32 - 2. *)
Definition arrayIndex (k : string) : option Z :=
  match k with
  | EmptyString => None
  | String a rest =>
      if (Ascii.eqb a "0" && negb (String.eqb rest EmptyString))%bool then None
      else match Decimal.digits 0 k with
           | Some n => if n <=? 4294967294 then Some n else None
           | None => None
           end
  end.

Definition isPlainKey (k : string) : bool :=
  match arrayIndex k with Some _ => false | None => true end.

Fixpoint insertIndexed {V : Type} (n : Z) (e : string * V)
    (l : list (Z * (string * V))) : list (Z * (string * V)) :=
  match l with
  | [] => [(n, e)]
  | (m, e') :: t => if n <? m then (n, e) :: l else (m, e') :: insertIndexed n e t
  end.

(** The properties with an integer-like key, in ascending order of index. *)
Fixpoint indexedEntries {V : Type} (o : list (string * V)) : list (Z * (string * V)) :=
  match o with
  | [] => []
  | e :: t =>
      match arrayIndex (fst e) with
      | Some n => insertIndexed n e (indexedEntries t)
      | None => indexedEntries t
      end
  end.

(** [Object.entries(o)]: the integer-like keys in ascending order, then the
    other keys in insertion order. *)
Definition objectEntries {V : Type} (o : list (string * V)) : list (string * V) :=
  (map snd (indexedEntries o) ++ filter (fun e => isPlainKey (fst e)) o)%list.

(** [Object.values(o)] *)
Definition objectValues {V : Type} (o : list (string * V)) : list V :=
  map snd (objectEntries o).

(** [o[k] = v] for a value that is an object: the key [__proto__] sets the
    prototype and adds no own property. *)
Definition assign {V : Type} (o : list (string * V)) (k : string) (v : V)
  : list (string * V) :=
  if String.eqb k "__proto__" then o else setKey o k v.

(** The own properties of [Object.prototype]. *)
Definition objectPrototypeNames : list string :=
  ["constructor"; "__defineGetter__"; "__defineSetter__"; "hasOwnProperty";
   "__lookupGetter__"; "__lookupSetter__"; "isPrototypeOf"; "propertyIsEnumerable";
   "toString"; "valueOf"; "__proto__"; "toLocaleString"].

(** [clone(config)] of l.223, for the keys of the record.  The [clone]
    package is no part of the sources; this follows its loop
    [for (i in parent) { attrs = Object.getOwnPropertyDescriptor(proto, i);
    if (attrs && attrs.set == null) continue; child[i] = ... }]: a key that
    names a data property of [Object.prototype] is skipped, and the
    assignment to [__proto__] adds no own property; the keys come out in
    enumeration order. *)
Definition cloneRecord {V : Type} (config : list (string * V)) : list (string * V) :=
  filter (fun e => negb (existsb (String.eqb (fst e)) objectPrototypeNames))
    (objectEntries config).

(** ** Definition-time validation *)

Definition generatePrefix (name : string) : string :=
  if startsWith name "-" then name
  else if Nat.ltb 1 (String.length name) then "--" ++ name
  else "-" ++ name.

Definition processed (name : string) (aliases : list string) (cfg : BuilderConfig)
  : ProcessedBuilderConfig :=
  mkProcessed name aliases (cfg_type cfg) (cfg_default cfg) (cfg_isRequired cfg)
    (cfg_isInt cfg) (cfg_minVal cfg) (cfg_maxVal cfg) (cfg_enumVals cfg).

(** First loop of [validateOptions]: default the name to the key, refuse
    ['='], put the names in flag form. *)
Definition prefixEntry (e : string * BuilderConfig) : res OptEntry :=
  let (key, cfg) := e in
  let name := match cfg_name cfg with Some n => n | None => key end in
  if isPositional (cfg_type cfg) then Ok (key, processed name (cfg_aliases cfg) cfg)
  else if includes name "=" then Throw (optionNameHasEq name)
  else if existsb (fun a => includes a "=") (cfg_aliases cfg) then Throw (optionNameHasEq name)
  else Ok (key, processed (generatePrefix name) (map generatePrefix (cfg_aliases cfg)) cfg).

Fixpoint prefixEntries (es : list (string * BuilderConfig)) : res (list OptEntry) :=
  match es with
  | [] => Ok []
  | e :: rest =>
      e' <- prefixEntry e ;;
      rest' <- prefixEntries rest ;;
      Ok (e' :: rest')
  end.

Definition reservedNames : list string := ["--help"; "-h"; "--version"; "-v"].

(** The first storage in which [x] is found. *)
Definition occupier (storageVals : list (list string)) (x : string) : option (list string) :=
  find (fun storage => findTruthy storage x) storageVals.

Fixpoint aliasOccupier (storageVals : list (list string)) (aliases : list string)
  : option (string * list string) :=
  match aliases with
  | [] => None
  | a :: rest =>
      match occupier storageVals a with
      | Some storage => Some (a, storage)
      | None => aliasOccupier storageVals rest
      end
  end.

Fixpoint findIndex {A : Type} (p : A -> bool) (l : list A) : Z :=
  match l with
  | [] => -1
  | x :: t => if p x then 0 else let r := findIndex p t in if r <? 0 then -1 else r + 1
  end.

Definition indexed {A : Type} (l : list A) : list (Z * A) :=
  combine (map Z.of_nat (seq 0 (length l))) l.

(** The first element that is not at the index of its first occurrence. *)
Definition misplaced {A : Type} (eqb : A -> A -> bool) (l : list A) : option A :=
  option_map snd
    (find (fun ix => negb (findIndex (eqb (snd ix)) l =? fst ix)) (indexed l)).

(** Second loop of [validateOptions]. *)
Fixpoint checkEntries (storedNames : list (string * list string)) (es : list OptEntry)
  : res (list OptEntry) :=
  match es with
  | [] => Ok []
  | (key, cfg) :: rest =>
      if isPositional (opt_type cfg) then
        rest' <- checkEntries storedNames rest ;;
        Ok ((key, cfg) :: rest')
      else
        let allNames := opt_name cfg :: opt_aliases cfg in
        let storageVals := objectValues storedNames in
        match find (findTruthy reservedNames) allNames with
        | Some m => Throw (optionNameReserved (opt_name cfg) m)
        | None =>
        match occupier storageVals (opt_name cfg) with
        | Some storage => Throw (optionNameInUse (opt_name cfg) (hd "" storage))
        | None =>
        match aliasOccupier storageVals (opt_aliases cfg) with
        | Some (alias, storage) =>
            Throw (optionAliasInUse (opt_name cfg) alias (hd "" storage))
        | None =>
        match misplaced String.eqb allNames with
        | Some name => Throw (optionDuplicateAlias (opt_name cfg) name)
        | None =>
            rest' <- checkEntries (assign storedNames (opt_name cfg) allNames) rest ;;
            Ok ((key, cfg) :: rest')
        end end end end
  end.

Definition validateOptions (config : list (string * BuilderConfig)) : res (list OptEntry) :=
  let cfgEntries := objectEntries (cloneRecord config) in
  es <- prefixEntries cfgEntries ;;
  checkEntries [] es.

Definition optionStringEqb (a b : option string) : bool :=
  match a, b with
  | Some x, Some y => String.eqb x y
  | None, None => true
  | _, _ => false
  end.

Definition isBooleanLiteral (s : string) : bool :=
  (String.eqb s "0" || String.eqb s "1" || String.eqb s "true" || String.eqb s "false")%bool.

(** The [forEach] over [allNames] in [command]: the first offending name
    decides the error. *)
Fixpoint checkNames (cmdName : string) (allNames : list (option string))
    (todo : list (Z * option string)) : res unit :=
  match todo with
  | [] => Ok tt
  | (i, n) :: rest =>
      if optionStringEqb n (Some "help") then Throw (commandNameHelp cmdName)
      else if match n with Some x => isBooleanLiteral (toLowerCase x) | None => false end
      then Throw (commandNameBoolean cmdName n)
      else if negb (findIndex (optionStringEqb n) allNames =? i)
      then Throw (commandDuplicateAlias cmdName n)
      else checkNames cmdName allNames rest
  end.

Definition command (c : RawCommand) : res Command :=
  let allNames :=
    match raw_aliases c with
    | Some al => raw_name c :: map Some al
    | None => [raw_name c]
    end in
  let hasPositional :=
    match raw_subcommands c, raw_options c with
    | Some _, Some os => existsb (fun o => isPositional (cfg_type (snd o))) os
    | _, _ => false
    end in
  if hasPositional then Throw (commandSubcommandsAndPositionals (raw_name c))
  else
    processedOptions <-
      match raw_options c with
      | Some os => (os' <- validateOptions os ;; Ok (Some os'))
      | None => Ok None
      end ;;
    let (name, aliases) :=
      match raw_name c, raw_aliases c with
      | Some n, al => (Some n, al)
      | None, Some (a :: rest) => (Some a, Some rest)
      | None, al => (None, al)
      end in
    match name with
    | None => Throw commandWithoutName
    | Some name =>
        if negb (truthy name) then Throw commandWithoutName
        else
          let aliases :=
            match aliases with
            | Some (a :: rest) => Some (a :: rest)
            | _ => None
            end in
          if startsWith name "-" then Throw (commandNameDash name)
          else if existsb (fun a => startsWith a "-")
                    (match aliases with Some al => al | None => [] end)
          then Throw (commandAliasDash name)
          else
            _ <- checkNames name allNames (indexed allNames) ;;
            Ok (mkCommand name aliases processedOptions (raw_subcommands c)
                  (raw_transform c) (raw_handler c))
    end.

Definition namesOf (c : Command) : list string :=
  match cmd_aliases c with
  | Some al => cmd_name c :: al
  | None => [cmd_name c]
  end.

(** [validateCommands]: one registry per sibling level, subcommands checked
    as soon as their parent is registered. *)
Fixpoint validateCommand (parent : option Command)
    (storedNames : list (string * list string)) (cmd : Command) {struct cmd} : res unit :=
  let storageVals := objectValues storedNames in
  match occupier storageVals (cmd_name cmd) with
  | Some storage => Throw (commandNameInUse cmd parent (hd "" storage))
  | None =>
  match aliasOccupier storageVals (match cmd_aliases cmd with Some al => al | None => [] end) with
  | Some (alias, storage) => Throw (commandAliasInUse cmd alias parent (hd "" storage))
  | None =>
      match cmd_subcommands cmd with
      | Some subs =>
          (fix siblings (stored : list (string * list string)) (cs : list Command) : res unit :=
             match cs with
             | [] => Ok tt
             | c :: rest =>
                 _ <- validateCommand (Some cmd) stored c ;;
                 siblings (assign stored (cmd_name c) (namesOf c)) rest
             end) [] subs
      | None => Ok tt
      end
  end end.

Fixpoint validateSiblings (parent : option Command)
    (storedNames : list (string * list string)) (cs : list Command) : res unit :=
  match cs with
  | [] => Ok tt
  | c :: rest =>
      _ <- validateCommand parent storedNames c ;;
      validateSiblings parent (assign storedNames (cmd_name c) (namesOf c)) rest
  end.

Definition validateCommands (commands : list Command) : res (list Command) :=
  _ <- validateSiblings None [] commands ;;
  Ok commands.

(** ** Command resolution *)

Definition isHelpFlag (s : string) : bool := (String.eqb s "--help" || String.eqb s "-h")%bool.
Definition isVersionFlag (s : string) : bool := (String.eqb s "--version" || String.eqb s "-v")%bool.

(** The candidate loop of [getCommand], with [i] the index of the head of
    [args] in the whole token list. *)
Fixpoint scanCandidates (i : Z) (args : list string) : list CommandCandidate :=
  match args with
  | [] => []
  | arg :: rest =>
      if (isHelpFlag arg || isVersionFlag arg)%bool then
        match rest with
        | next :: rest' =>
            if isBooleanLiteral (toLowerCase next) then scanCandidates (i + 2) rest'
            else scanCandidates (i + 1) rest
        | [] => []
        end
      else if startsWith arg "-" then
        if negb (includes arg "=") then
          match rest with
          | _ :: rest' => scanCandidates (i + 2) rest'
          | [] => []
          end
        else scanCandidates (i + 1) rest
      else mkCandidate arg i :: scanCandidates (i + 1) rest
  end.

Definition findCommand (commands : list Command) (arg : string) : option Command :=
  find (fun c => findTruthy (namesOf c) arg) commands.

Definition shiftCandidate (c : CommandCandidate) : CommandCandidate :=
  mkCandidate (data c) (originalIndex c - 1).

Definition InnerCommandParseRes : Type := (option Command * list string)%type.

Equations? getCommandInner (commands : list Command) (candidates : list CommandCandidate)
    (args : list string) : res InnerCommandParseRes by wf (length candidates) lt :=
  getCommandInner commands [] args := Throw TypeError;
  getCommandInner commands (c :: rest) args :=
    match findCommand commands (data c) with
    | None => Ok (None, args)
    | Some command =>
        let newArgs := removeByIndex args (originalIndex c) in
        match rest, cmd_subcommands command with
        | next :: _, Some subcommands =>
            match getCommandInner subcommands (map shiftCandidate rest) newArgs with
            | Ok (None, _) => Throw (unknownSubcommand command (data next))
            | subcommand => subcommand
            end
        | _, _ => Ok (Some command, newArgs)
        end
    end.
Proof. simpl. rewrite length_map. lia. Qed.

Inductive Resolved : Type :=
| NoCommand
| HelpCommand
| Resolve (c : Command).

Definition getCommand (commands : list Command) (args : list string)
  : res (Resolved * list string) :=
  match scanCandidates 0 args with
  | [] => Ok (NoCommand, args)
  | firstCandidate :: rest =>
      if String.eqb (data firstCandidate) "help"
      then Ok (HelpCommand, removeByIndex args (originalIndex firstCandidate))
      else
        r <- getCommandInner commands (firstCandidate :: rest) args ;;
        match r with
        | (None, _) => Throw (unknownCommand (data firstCandidate))
        | (Some command, argsRes) => Ok (Resolve command, argsRes)
        end
  end.

(** ** Option parsing *)

(** The object returned by [parseArg], read through the destructuring of
    [parseOptions]: an absent field is [undefined], and an absent [skipNext]
    is falsy. *)
Record ParsedArg : Type := mkParsedArg {
  pa_data : OutputType;
  pa_name : option string;
  pa_option : option ProcessedBuilderConfig;
  pa_skipNext : bool;
  pa_isHelp : bool;
  pa_isVersion : bool
}.

Definition ofOptionString (o : option string) : OutputType :=
  match o with Some s => VString s | None => VUndefined end.

(** [!enumVals.find((val) => val === dataPart)] *)
Definition notInEnum (enumVals : list string) (dataPart : option string) : bool :=
  match dataPart with
  | Some d => negb (findTruthy enumVals d)
  | None => true
  end.

Definition isNone {A : Type} (o : option A) : bool :=
  match o with Some _ => false | None => true end.

(** The callback given to [options.find] in [parseArg].  [None] is the
    callback returning [false]; [Some (data, skipNext)] is it returning
    [true] after assigning the two captured variables. *)
Definition matchOption (opt : ProcessedBuilderConfig) (namePart : string) (hasEq : bool)
    (dataPart nextArg : option string) : res (option (OutputType * bool)) :=
  let names := opt_name opt :: opt_aliases opt in
  if negb (findTruthy names namePart) then Ok None
  else
    match opt_type opt with
    | TBoolean =>
        let lcaseData := option_map toLowerCase dataPart in
        if (negb hasEq && match nextArg with Some n => startsWith n "-" | None => false end)%bool
        then Ok (Some (VBoolean true, false))
        else if match lcaseData with
                | None => true
                | Some d => (String.eqb d "" || String.eqb d "true" || String.eqb d "1")%bool
                end
        then Ok (Some (VBoolean true, negb hasEq))
        else if match lcaseData with
                | None => false
                | Some d => (String.eqb d "false" || String.eqb d "0")%bool
                end
        then Ok (Some (VBoolean false, negb hasEq))
        else if negb hasEq then Ok (Some (VBoolean true, false))
        else Throw (invalidBooleanSyntax namePart)
    | TString =>
        if (negb hasEq && isNone nextArg)%bool then Throw (invalidStringSyntax namePart)
        else
          match opt_enumVals opt with
          | Some vals =>
              if notInEnum vals dataPart then Throw (enumViolation namePart dataPart vals)
              else Ok (Some (ofOptionString dataPart, negb hasEq))
          | None => Ok (Some (ofOptionString dataPart, negb hasEq))
          end
    | _ =>
        if (negb hasEq && isNone nextArg)%bool then Throw (invalidNumberSyntax namePart)
        else
          match dataPart with
          | None => Throw (invalidNumberValue namePart dataPart)
          | Some d =>
              let numData := Number d in
              if isNaN numData then Throw (invalidNumberValue namePart dataPart)
              else if (opt_isInt opt && negb (isInt numData))%bool
              then Throw (invalidInteger namePart dataPart)
              else
                match opt_minVal opt with
                | Some minVal =>
                    if num_lt numData minVal then Throw (belowMin namePart dataPart minVal)
                    else
                      match opt_maxVal opt with
                      | Some maxVal =>
                          if num_lt maxVal numData then Throw (aboveMax namePart dataPart maxVal)
                          else Ok (Some (ofOptionString dataPart, negb hasEq))
                      | None => Ok (Some (ofOptionString dataPart, negb hasEq))
                      end
                | None =>
                    match opt_maxVal opt with
                    | Some maxVal =>
                        if num_lt maxVal numData then Throw (aboveMax namePart dataPart maxVal)
                        else Ok (Some (ofOptionString dataPart, negb hasEq))
                    | None => Ok (Some (ofOptionString dataPart, negb hasEq))
                    end
                end
          end
    end.

(** [options.find(...)]: the first option whose callback returns [true]. *)
Fixpoint findOption (options : list OptEntry) (namePart : string) (hasEq : bool)
    (dataPart nextArg : option string) : res (option (OptEntry * OutputType * bool)) :=
  match options with
  | [] => Ok None
  | (optKey, opt) :: rest =>
      r <- matchOption opt namePart hasEq dataPart nextArg ;;
      match r with
      | Some (d, skipNext) => Ok (Some ((optKey, opt), d, skipNext))
      | None => findOption rest namePart hasEq dataPart nextArg
      end
  end.

Definition namePartOf (arg : string) : string := hd EmptyString (split arg "=").
Definition dataPartOf (arg : string) (nextArg : option string) : option string :=
  if includes arg "=" then Some (join (tl (split arg "=")) "=") else nextArg.

(** [parseArg]; the second component is the queue of positionals left. *)
Definition parseArg (options positionals : list OptEntry) (arg : string)
    (nextArg : option string) : res (ParsedArg * list OptEntry) :=
  let hasEq := includes arg "=" in
  let namePart := namePartOf arg in
  let dataPart := dataPartOf arg nextArg in
  if isHelpFlag namePart then
    Ok (mkParsedArg VUndefined None None false true false, positionals)
  else if isVersionFlag namePart then
    Ok (mkParsedArg VUndefined None None false false true, positionals)
  else if negb (startsWith arg "-") then
    match positionals with
    | [] => Ok (mkParsedArg VUndefined None None false false false, positionals)
    | pos :: positionals' =>
        let taken := Ok (mkParsedArg (VString arg) (Some (fst pos)) (Some (snd pos))
                           false false false, positionals') in
        match opt_enumVals (snd pos) with
        | Some vals =>
            if notInEnum vals dataPart
            then Throw (enumViolationPos (opt_name (snd pos)) arg vals)
            else taken
        | None => taken
        end
    end
  else
    o <- findOption options namePart hasEq dataPart nextArg ;;
    match o with
    | Some (entry, d, skipNext) =>
        Ok (mkParsedArg d (Some (fst entry)) (Some (snd entry)) skipNext false false,
            positionals)
    | None =>
        Ok (mkParsedArg VUndefined None None (negb hasEq) false false, positionals)
    end.

Definition Record_ : Type := list (string * OutputType).

Inductive Scan : Type :=
| ScanHelp
| ScanVersion
| Scanned (result : Record_) (unrecognizedArgsArr : list string).

(** [result[name!] = data]: an undefined name is the key ["undefined"]. *)
Definition keyOf (name : option string) : string :=
  match name with Some k => k | None => "undefined" end.

(** The token loop of [parseOptions]. *)
Fixpoint scanArgs (options positionals : list OptEntry) (args : list string)
    (result : Record_) (unrecognizedArgsArr : list string) : res Scan :=
  match args with
  | [] => Ok (Scanned result unrecognizedArgsArr)
  | arg :: rest =>
      r <- parseArg options positionals arg (hd_error rest) ;;
      let (p, positionals') := r in
      let unrecognized' :=
        if isNone (pa_option p) then (unrecognizedArgsArr ++ [namePartOf arg])%list
        else unrecognizedArgsArr in
      let result' := setKey result (keyOf (pa_name p)) (pa_data p) in
      if pa_isHelp p then Ok ScanHelp
      else if pa_isVersion p then Ok ScanVersion
      else if pa_skipNext p then
        match rest with
        | _ :: rest' => scanArgs options positionals' rest' result' unrecognized'
        | [] => Ok (Scanned result' unrecognized')
        end
      else scanArgs options positionals' rest result' unrecognized'
  end.

(** The loop over [optEntries] that substitutes defaults and collects the
    required options left undefined. *)
Fixpoint applyDefaults (omitKeysOfUndefinedOptions : bool) (optEntries : list OptEntry)
    (result : Record_) (missingRequiredArr : list (list string))
  : Record_ * list (list string) :=
  match optEntries with
  | [] => (result, missingRequiredArr)
  | (optKey, opt) :: rest =>
      let d := coalesce (readKey result optKey) (opt_default opt) in
      let result' :=
        if negb omitKeysOfUndefinedOptions then setKey result optKey d
        else if negb (isUndefined d) then setKey result optKey d
        else result in
      let missing' :=
        if (opt_isRequired opt && isUndefined (readKey result' optKey))%bool
        then (missingRequiredArr ++ [opt_name opt :: opt_aliases opt])%list
        else missingRequiredArr in
      applyDefaults omitKeysOfUndefinedOptions rest result' missing'
  end.

(** [Record<string, OutputType> | 'help' | 'version' | undefined] *)
Inductive ParseResult : Type :=
| Options (o : Record_)
| Help
| Version
| Undefined.

Definition isEmpty {A : Type} (l : list A) : bool :=
  match l with [] => true | _ => false end.

(** [Object.entries(options ?? {})] *)
Definition optEntriesOf (command : Command) : list OptEntry :=
  objectEntries (match cmd_options command with Some os => os | None => [] end).

Definition parseOptions (command : Command) (args : list string)
    (omitKeysOfUndefinedOptions : bool) : res ParseResult :=
  let optEntries := optEntriesOf command in
  let nonPositionalEntries := filter (fun e => negb (isPositional (opt_type (snd e)))) optEntries in
  let positionalEntries := filter (fun e => isPositional (opt_type (snd e))) optEntries in
  s <- scanArgs nonPositionalEntries positionalEntries args [] [] ;;
  match s with
  | ScanHelp => Ok Help
  | ScanVersion => Ok Version
  | Scanned result unrecognizedArgsArr =>
      let (result', missingRequiredArr) :=
        applyDefaults omitKeysOfUndefinedOptions optEntries result [] in
      if negb (isEmpty missingRequiredArr)
      then Throw (missingRequired (cmd_name command) missingRequiredArr)
      else if negb (isEmpty unrecognizedArgsArr)
      then Throw (unrecognizedOptions (cmd_name command) unrecognizedArgsArr)
      else Ok (if isEmpty result' then Undefined else Options result')
  end.

(** ** Pipeline *)

(** What a handler is called with: [optionResult] itself, or the value of
    the opaque [transform] at it. *)
Inductive HandlerInput : Type :=
| Direct (optionResult : ParseResult)
| Transformed (optionResult : ParseResult).

Definition handlerInput (command : Command) (optionResult : ParseResult) : HandlerInput :=
  if cmd_transform command then Transformed optionResult else Direct optionResult.

(** The ways [rawCli] ends without throwing: one of the three events given
    to the event handler, or the call of the command's handler. *)
Inductive Outcome : Type :=
| globalHelp
| commandHelp (command : Command)
| version
| handler (command : Command) (input : HandlerInput).

(** The guard of the help short-circuit in [rawCli]. *)
Definition helpShortCircuit (args : list string) : bool :=
  let helpIndex := findIndex isHelpFlag args in
  (negb (helpIndex =? -1)
   && (if 0 <? helpIndex then
         match at_ args (helpIndex - 1) with
         | Some prev => if (startsWith prev "-" && negb (includes prev "="))%bool then false else true
         | None => true
         end
       else true))%bool.

(** The guard of the version short-circuit in [rawCli]. *)
Definition versionShortCircuit (args : list string) : bool :=
  let versionIndex := findIndex isVersionFlag args in
  (negb (versionIndex =? -1)
   && (if 0 <? versionIndex then
         match at_ args (versionIndex - 1) with
         | Some prev => if startsWith prev "-" then false else true
         | None => true
         end
       else true))%bool.

(** The [do ... while (helpCommand === 'help')] loop.  Every turn that goes
    round again has removed one token, so [length args] turns are enough and
    the case of no fuel is never reached ([helpLoop_fuel] below). *)
Fixpoint helpLoop (fuel : nat) (commands : list Command) (newestArgs : list string)
  : res Outcome :=
  r <- getCommand commands newestArgs ;;
  match r with
  | (HelpCommand, args') =>
      match fuel with
      | S fuel' => helpLoop fuel' commands args'
      | O => Ok globalHelp
      end
  | (Resolve helpCommand, _) => Ok (commandHelp helpCommand)
  | (NoCommand, _) => Ok globalHelp
  end.

(** [rawCli] from the point where [args] is known. *)
Definition rawCliArgs (processedCmds : list Command) (args : list string)
    (omitKeysOfUndefinedOptions : bool) : res Outcome :=
  if isEmpty args then Ok globalHelp
  else if helpShortCircuit args then
    r <- getCommand processedCmds args ;;
    match fst r with
    | Resolve command => Ok (commandHelp command)
    | _ => Ok globalHelp
    end
  else if versionShortCircuit args then Ok version
  else
    r <- getCommand processedCmds args ;;
    match r with
    | (NoCommand, _) => Ok globalHelp
    | (HelpCommand, newArgs) => helpLoop (length newArgs) processedCmds newArgs
    | (Resolve command, newArgs) =>
        optionResult <- parseOptions command newArgs omitKeysOfUndefinedOptions ;;
        match optionResult with
        | Help => Ok (commandHelp command)
        | Version => Ok version
        | _ =>
            if cmd_handler command then Ok (handler command (handlerInput command optionResult))
            else Ok (commandHelp command)
        end
    end.

Definition rawCli (commands : list Command) (argSource : list string)
    (omitKeysOfUndefinedOptions : bool) : res Outcome :=
  processedCmds <- validateCommands commands ;;
  rawCliArgs processedCmds (slice argSource 2 (Z.of_nat (length argSource)))
    omitKeysOfUndefinedOptions.

Inductive TestResult : Type :=
| test_handler (options : HandlerInput)
| test_help
| test_version
| test_error (error : Error).

(** [test], from the tokens that [shellArgs] produced. *)
Definition test (command : Command) (cliParsedArgs : list string) : TestResult :=
  match parseOptions command cliParsedArgs false with
  | Ok Help => test_help
  | Ok Version => test_version
  | Ok options => test_handler (handlerInput command options)
  | Throw e => test_error e
  end.

End Model.

(** * Vocabulary of the properties *)

Unset Implicit Arguments.

Section Vocabulary.

Context `{JN : JsNumber}.

(** The canonical name of an option followed by its aliases. *)
Definition optNames (e : OptEntry) : list string :=
  opt_name (snd e) :: opt_aliases (snd e).

(** A required option is missing when its value is undefined after
    defaulting. *)
Definition isMissing (result : Record_) (e : OptEntry) : bool :=
  (opt_isRequired (snd e)
   && isUndefined (coalesce (readKey result (fst e)) (opt_default (snd e))))%bool.

(** A candidate indexes its own token. *)
Definition indexes (args : list string) (c : CommandCandidate) : Prop :=
  at_ args (originalIndex c) = Some (data c).

(** The original indices grow strictly, from [lo] on. *)
Fixpoint ascending (lo : Z) (candidates : list CommandCandidate) : Prop :=
  match candidates with
  | [] => True
  | c :: rest => lo <= originalIndex c /\ ascending (originalIndex c + 1) rest
  end.

(** The calls of [getCommandInner] that a call of [getCommand] gives rise
    to, each with the error that its caller throws when it brings back no
    command: the call that [getCommand] makes on the scanned candidates
    (l.458; it is made when there is a first candidate and it is not the
    literal [help]), and the call that a call makes on the subcommands of
    the command it matched (l.411). *)
Inductive InnerCall (commands0 : list Command) (args0 : list string)
  : Error -> list Command -> list CommandCandidate -> list string -> Prop :=
| call_first (c : CommandCandidate) (rest : list CommandCandidate) :
    scanCandidates 0 args0 = c :: rest ->
    String.eqb (data c) "help" = false ->
    InnerCall commands0 args0 (unknownCommand (data c)) commands0 (c :: rest) args0
| call_sub (onMiss : Error) (commands : list Command) (c next : CommandCandidate)
    (rest : list CommandCandidate) (args : list string)
    (command : Command) (subcommands : list Command) :
    InnerCall commands0 args0 onMiss commands (c :: next :: rest) args ->
    findCommand commands (data c) = Some command ->
    cmd_subcommands command = Some subcommands ->
    InnerCall commands0 args0 (unknownSubcommand command (data next)) subcommands
      (map shiftCandidate (next :: rest)) (removeByIndex args (originalIndex c)).

(** What comes of the result of a call of [getCommandInner] on its way up
    to the caller of [getCommand]: a command is handed on unchanged, no
    command is the error [onMiss] of the caller, an error is passed on. *)
Definition resolutionOf (onMiss : Error) (r : res InnerCommandParseRes)
  : res (Resolved * list string) :=
  match r with
  | Ok (Some command, args) => Ok (Resolve command, args)
  | Ok (None, _) => Throw onMiss
  | Throw e => Throw e
  end.

(** The command goes by the name: it is its name or one of its aliases. *)
Definition hasName (c : Command) (name : string) : Prop :=
  name = cmd_name c \/ exists aliases, cmd_aliases c = Some aliases /\ In name aliases.

(** [c] is the first command of the list that goes by the name, which is
    not the empty string. *)
Definition firstMatch (commands : list Command) (name : string) (c : Command) : Prop :=
  name <> EmptyString
  /\ exists before after,
       commands = (before ++ c :: after)%list
       /\ hasName c name
       /\ forall b, In b before -> ~ hasName b name.

(** [cmd] is reached from [commands] along the path of names: each name
    selects the first command that goes by it among the subcommands of the
    command selected before. *)
Inductive Descends : list Command -> list string -> Command -> Prop :=
| descends_last (commands : list Command) (name : string) (c : Command) :
    firstMatch commands name c ->
    Descends commands [name] c
| descends_sub (commands : list Command) (name : string) (c : Command)
    (subcommands : list Command) (deeper : list string) (cmd : Command) :
    firstMatch commands name c ->
    cmd_subcommands c = Some subcommands ->
    Descends subcommands deeper cmd ->
    Descends commands (name :: deeper) cmd.

(** The state of the token loop of [parseOptions] between two iterations:
    the queue of positionals, the tokens from the index [i] on, [result]
    and [unrecognizedArgsArr]. *)
Record LoopState : Type := mkLoopState {
  st_positionals : list OptEntry;
  st_args : list string;
  st_result : Record_;
  st_unrecognized : list string
}.

Inductive LoopStep : Type :=
| Returned (s : Scan)
| Continue (st : LoopState).

(** One iteration of the token loop (l.608-627); without a token left the
    loop is over. *)
Definition loopBody (options : list OptEntry) (st : LoopState) : res LoopStep :=
  match st_args st with
  | [] => Ok (Returned (Scanned (st_result st) (st_unrecognized st)))
  | arg :: rest =>
      r <- parseArg options (st_positionals st) arg (hd_error rest) ;;
      let (p, positionals') := r in
      let unrecognized' :=
        if isNone (pa_option p) then (st_unrecognized st ++ [namePartOf arg])%list
        else st_unrecognized st in
      let result' := setKey (st_result st) (keyOf (pa_name p)) (pa_data p) in
      if pa_isHelp p then Ok (Returned ScanHelp)
      else if pa_isVersion p then Ok (Returned ScanVersion)
      else Ok (Continue (mkLoopState positionals' (if pa_skipNext p then tl rest else rest)
                           result' unrecognized'))
  end.

(** The loop after [n] iterations. *)
Fixpoint iterations (n : nat) (options : list OptEntry) (st : LoopState) : res LoopStep :=
  match n with
  | O => Ok (Continue st)
  | S n' =>
      r <- loopBody options st ;;
      match r with
      | Returned s => Ok (Returned s)
      | Continue st' => iterations n' options st'
      end
  end.

(** The loop run from a state to its end. *)
Definition scanFrom (options : list OptEntry) (st : LoopState) : res Scan :=
  scanArgs options (st_positionals st) (st_args st) (st_result st) (st_unrecognized st).

(** The entries that [parseOptions] hands to the loop. *)
Definition nonPositionalEntries (command : Command) : list OptEntry :=
  filter (fun e => negb (isPositional (opt_type (snd e)))) (optEntriesOf command).

Definition positionalEntries (command : Command) : list OptEntry :=
  filter (fun e => isPositional (opt_type (snd e))) (optEntriesOf command).

(** Following a path of names down the command tree. *)
Fixpoint descend (commands : list Command) (path : list string) : option Command :=
  match path with
  | [] => None
  | name :: deeper =>
      match findCommand commands name with
      | None => None
      | Some command =>
          match deeper with
          | [] => Some command
          | _ :: _ =>
              match cmd_subcommands command with
              | Some subcommands => descend subcommands deeper
              | None => None
              end
          end
      end
  end.

(** The tokens of [args] whose position, counted from [i], is not listed in
    [removed]; the order of the others is kept. *)
Fixpoint dropAt (i : Z) (removed : list Z) (args : list string) : list string :=
  match args with
  | [] => []
  | x :: t =>
      if existsb (Z.eqb i) removed then dropAt (i + 1) removed t
      else x :: dropAt (i + 1) removed t
  end.

Definition dropIndices (removed : list Z) (args : list string) : list string :=
  dropAt 0 removed args.

(** [i] is the index of the first token of [args] that satisfies [p]. *)
Definition firstIndex (p : string -> bool) (args : list string) (i : Z) : Prop :=
  (exists t, at_ args i = Some t /\ p t = true)
  /\ forall j t, 0 <= j < i -> at_ args j = Some t -> p t = false.

(** A flag-prefixed token without [=], which may take the next token as
    its value. *)
Definition bareFlag (t : string) : bool :=
  (startsWith t "-" && negb (includes t "="))%bool.

(** The first help flag of [args] is not the presumed value of a flag. *)
Definition helpQualifies (args : list string) : Prop :=
  exists i, firstIndex isHelpFlag args i
            /\ (i = 0 \/ exists prev, at_ args (i - 1) = Some prev /\ bareFlag prev = false).

(** Every name the declaration gives the command: the name, then the
    aliases. *)
Definition declaredNames (c : RawCommand) : list string :=
  ((match raw_name c with Some n => [n] | None => [] end)
   ++ (match raw_aliases c with Some al => al | None => [] end))%list.

(** An entry is named in flag form, without [=]. *)
Definition flagNamed (e : OptEntry) : Prop :=
  forall n, In n (optNames e) -> startsWith n "-" = true /\ includes n "=" = false.

(** An option that is not positional. *)
Definition isNamedOption (e : OptEntry) : bool := negb (isPositional (opt_type (snd e))).

(** The lower-cased spellings of a boolean value. *)
Definition spellsTrue (d : string) : bool :=
  (String.eqb d "" || String.eqb d "true" || String.eqb d "1")%bool.

Definition spellsFalse (d : string) : bool :=
  (String.eqb d "false" || String.eqb d "0")%bool.

(** No key of the mapping has the value [undefined]. *)
Definition allDefined (o : Record_) : Prop :=
  Forall (fun kv => isUndefined (snd kv) = false) o.

(** The aliases of a command, none when the list is absent. *)
Definition aliasesOf (c : Command) : list string :=
  match cmd_aliases c with Some al => al | None => [] end.

(** Two siblings share no name, the empty string apart. *)
Definition apartNames (c1 c2 : Command) : Prop :=
  forall n, n <> EmptyString -> In n (namesOf c2) -> ~ In n (namesOf c1).

End Vocabulary.

(** * Properties *)

Section Properties.

Context `{JN : JsNumber}.

(** ** Strings *)

Lemma startsWith_dash_cons (a : ascii) (s : string) :
  startsWith (String a s) "-" = Ascii.eqb a "-".
Proof.
  unfold startsWith.
  change (String.prefix "-" (String a s))
    with (if ascii_dec "-" a then String.prefix "" s else false).
  destruct (ascii_dec "-" a) as [e | n].
  - subst a. destruct s; reflexivity.
  - symmetry. apply Ascii.eqb_neq. congruence.
Qed.

Lemma namePartOf_cons (a : ascii) (s : string) :
  namePartOf (String a s) = EmptyString \/ exists h, namePartOf (String a s) = String a h.
Proof.
  unfold namePartOf. simpl.
  destruct (Ascii.eqb a "="); [left; reflexivity |].
  right. destruct (split s "="); simpl; eauto.
Qed.

(** A token that does not start with [-] has a name part that is neither a
    help nor a version flag. *)
Lemma namePartOf_not_flag (arg : string) :
  startsWith arg "-" = false ->
  isHelpFlag (namePartOf arg) = false /\ isVersionFlag (namePartOf arg) = false.
Proof.
  destruct arg as [| a s]; [intros _; split; reflexivity |].
  rewrite startsWith_dash_cons. intros Ha.
  destruct (namePartOf_cons a s) as [-> | [h ->]]; [split; reflexivity |].
  unfold isHelpFlag, isVersionFlag. simpl. rewrite Ha. split; reflexivity.
Qed.

Lemma find_eqb_some (l : list string) (x y : string) :
  find (String.eqb x) l = Some y -> y = x /\ In x l.
Proof.
  intros H. apply find_some in H. destruct H as [Hin E].
  apply String.eqb_eq in E. subst y. auto.
Qed.

Lemma findTruthy_true (l : list string) (x : string) :
  findTruthy l x = true <-> In x l /\ x <> EmptyString.
Proof.
  unfold findTruthy, truthy. split.
  - destruct (find (String.eqb x) l) as [y |] eqn:E; [| discriminate].
    apply find_eqb_some in E. destruct E as [-> Hin]. intros H.
    split; [exact Hin |]. apply negb_true_iff, String.eqb_neq in H. exact H.
  - intros [Hin Hne].
    destruct (find (String.eqb x) l) as [y |] eqn:E.
    + apply find_eqb_some in E. destruct E as [-> _].
      apply negb_true_iff, String.eqb_neq. exact Hne.
    + apply (find_none _ _ E) in Hin. now rewrite String.eqb_refl in Hin.
Qed.

(** ** The token loop *)

Lemma findOption_no_match (options : list OptEntry) (namePart : string) (hasEq : bool)
    (dataPart nextArg : option string) :
  (forall e, In e options ->
     findTruthy (opt_name (snd e) :: opt_aliases (snd e)) namePart = false) ->
  findOption options namePart hasEq dataPart nextArg = Ok None.
Proof.
  induction options as [| [k o] rest IH]; intros H; [reflexivity |].
  pose proof (H (k, o) (or_introl eq_refl)) as Hk. simpl in Hk.
  cbn [findOption]. unfold matchOption. rewrite Hk. cbn [negb bind].
  apply IH. intros e He. apply H. right. exact He.
Qed.

Lemma scanArgs_flag_no_match (options positionals : list OptEntry) (arg : string)
    (rest : list string) (result : Record_) (unrec : list string) :
  startsWith arg "-" = true ->
  isHelpFlag (namePartOf arg) = false ->
  isVersionFlag (namePartOf arg) = false ->
  (forall e, In e options ->
     findTruthy (opt_name (snd e) :: opt_aliases (snd e)) (namePartOf arg) = false) ->
  scanArgs options positionals (arg :: rest) result unrec =
  scanArgs options positionals (if includes arg "=" then rest else tl rest)
    (setKey result "undefined" VUndefined) (unrec ++ [namePartOf arg]).
Proof.
  intros Hdash Hh Hv Hno. simpl. unfold parseArg.
  rewrite Hh, Hv, Hdash. simpl.
  rewrite findOption_no_match by exact Hno. simpl.
  destruct (includes arg "="); simpl; [reflexivity |].
  destruct rest; reflexivity.
Qed.

Lemma scanArgs_stray_token (options : list OptEntry) (arg : string)
    (rest : list string) (result : Record_) (unrec : list string) :
  startsWith arg "-" = false ->
  scanArgs options [] (arg :: rest) result unrec =
  scanArgs options [] rest (setKey result "undefined" VUndefined)
    (unrec ++ [namePartOf arg]).
Proof.
  intros Hdash. destruct (namePartOf_not_flag _ Hdash) as [Hh Hv].
  simpl. unfold parseArg. rewrite Hh, Hv, Hdash. reflexivity.
Qed.

(** The unrecognized list only grows during the loop. *)
Lemma scanArgs_unrecognized_grows (n : nat) :
  forall (options positionals : list OptEntry) (args : list string)
         (result result' : Record_) (unrec unrec' : list string),
    (length args <= n)%nat ->
    scanArgs options positionals args result unrec = Ok (Scanned result' unrec') ->
    exists ext, unrec' = (unrec ++ ext)%list.
Proof.
  induction n as [| n IH]; intros options positionals args result result' unrec unrec' Hlen H.
  - destruct args; [| simpl in Hlen; lia].
    simpl in H. injection H as _ <-. exists []. now rewrite app_nil_r.
  - destruct args as [| arg rest].
    + simpl in H. injection H as _ <-. exists []. now rewrite app_nil_r.
    + simpl in H, Hlen.
      destruct (parseArg options positionals arg (hd_error rest)) as [[p positionals'] | e];
        simpl in H; [| discriminate].
      destruct (pa_isHelp p); [discriminate |].
      destruct (pa_isVersion p); [discriminate |].
      set (u := if isNone (pa_option p) then (unrec ++ [namePartOf arg])%list else unrec) in *.
      assert (Hu : exists ext, u = (unrec ++ ext)%list).
      { subst u. destruct (isNone (pa_option p)); [eauto |].
        exists []. now rewrite app_nil_r. }
      destruct Hu as [ext0 Hu].
      assert (Hk : forall l, (length l <= n)%nat ->
                 scanArgs options positionals' l
                   (setKey result (keyOf (pa_name p)) (pa_data p)) u
                 = Ok (Scanned result' unrec') ->
                 exists ext, unrec' = (unrec ++ ext)%list).
      { intros l Hl Hs. destruct (IH _ _ _ _ _ _ _ Hl Hs) as [ext1 ->].
        exists (ext0 ++ ext1)%list. rewrite Hu. now rewrite app_assoc. }
      destruct (pa_skipNext p).
      * destruct rest as [| next rest'].
        -- injection H as _ <-. exists ext0. exact Hu.
        -- apply (Hk rest'); [simpl in Hlen; lia | exact H].
      * apply (Hk rest); [lia | exact H].
Qed.

(** ** Objects *)

Lemma getKey_setKey_same {V : Type} (o : list (string * V)) (k : string) (v : V) :
  getKey (setKey o k v) k = Some v.
Proof.
  induction o as [| [k' v'] t IH]; simpl.
  - now rewrite String.eqb_refl.
  - destruct (String.eqb k' k) eqn:E; simpl.
    + now rewrite String.eqb_refl.
    + now rewrite E.
Qed.

Lemma getKey_setKey_other {V : Type} (o : list (string * V)) (k k' : string) (v : V) :
  k' <> k -> getKey (setKey o k v) k' = getKey o k'.
Proof.
  intros Hne. induction o as [| [k0 v0] t IH]; simpl.
  - destruct (String.eqb k k') eqn:E; [| reflexivity].
    apply String.eqb_eq in E. congruence.
  - destruct (String.eqb k0 k) eqn:E; simpl.
    + apply String.eqb_eq in E. subst k0.
      destruct (String.eqb k k') eqn:E'; [| reflexivity].
      apply String.eqb_eq in E'. congruence.
    + now rewrite IH.
Qed.

Lemma readKey_setKey_same (o : Record_) (k : string) (v : OutputType) :
  readKey (setKey o k v) k = v.
Proof. unfold readKey. now rewrite getKey_setKey_same. Qed.

Lemma readKey_setKey_other (o : Record_) (k k' : string) (v : OutputType) :
  k' <> k -> readKey (setKey o k v) k' = readKey o k'.
Proof. intros H. unfold readKey. now rewrite getKey_setKey_other. Qed.

Lemma insertIndexed_In {V : Type} (n : Z) (e : string * V) (l : list (Z * (string * V)))
    (x : Z * (string * V)) :
  In x (insertIndexed n e l) <-> x = (n, e) \/ In x l.
Proof.
  induction l as [| [m e'] t IH]; cbn [insertIndexed In].
  - split; intros [H | H]; auto.
  - destruct (n <? m); cbn [In]; [intuition congruence |].
    rewrite IH. intuition congruence.
Qed.

Lemma indexedEntries_In {V : Type} (o : list (string * V)) (n : Z) (e : string * V) :
  In (n, e) (indexedEntries o) <-> In e o /\ arrayIndex (fst e) = Some n.
Proof.
  induction o as [| e0 t IH]; cbn [indexedEntries In]; [tauto |].
  destruct (arrayIndex (fst e0)) as [m |] eqn:E.
  - rewrite insertIndexed_In, IH. split.
    + intros [H | [H1 H2]]; [injection H as -> ->; auto | auto].
    + intros [[-> | H1] H2]; [left; congruence | auto].
  - rewrite IH. split; [tauto |].
    intros [[-> | H1] H2]; [congruence | auto].
Qed.

(** [Object.entries] lists the own properties, each once over. *)
Lemma objectEntries_In {V : Type} (o : list (string * V)) (e : string * V) :
  In e (objectEntries o) <-> In e o.
Proof.
  unfold objectEntries, isPlainKey. rewrite in_app_iff, in_map_iff, filter_In. split.
  - intros [[[n e'] [E H]] | [H _]]; [| exact H].
    cbn [snd] in E. subst e'. now apply indexedEntries_In in H.
  - intros H. destruct (arrayIndex (fst e)) as [n |] eqn:E.
    + left. exists (n, e). split; [reflexivity |]. now apply indexedEntries_In.
    + right. split; [exact H |]. reflexivity.
Qed.

Lemma objectValues_In {V : Type} (o : list (string * V)) (v : V) :
  In v (objectValues o) <-> In v (map snd o).
Proof.
  unfold objectValues. rewrite !in_map_iff.
  split; intros [e [E H]]; exists e; (split; [exact E |]); now apply objectEntries_In.
Qed.

(** Without integer-like keys, enumeration order is insertion order. *)
Lemma objectEntries_plain {V : Type} (o : list (string * V)) :
  Forall (fun e => arrayIndex (fst e) = None) o -> objectEntries o = o.
Proof.
  intros H. unfold objectEntries, isPlainKey.
  assert (E1 : indexedEntries o = []).
  { induction H as [| e t He _ IH]; [reflexivity |].
    cbn [indexedEntries]. cbn beta in He. rewrite He. exact IH. }
  rewrite E1. cbn [map app]. clear E1.
  induction H as [| e t He _ IH]; [reflexivity |].
  cbn [filter]. cbn beta in He. rewrite He. now rewrite IH.
Qed.

Lemma assign_setKey {V : Type} (o : list (string * V)) (k : string) (v : V) :
  k <> "__proto__" -> assign o k v = setKey o k v.
Proof. intros H. unfold assign. apply String.eqb_neq in H. now rewrite H. Qed.

Lemma coalesce_undefined (a b : OutputType) :
  isUndefined (coalesce a b) = true -> isUndefined a = true.
Proof. unfold coalesce. destruct (isUndefined a) eqn:E; [reflexivity | congruence]. Qed.

(** ** Defaults and required options *)

Lemma applyDefaults_missing (omit : bool) (optEntries : list OptEntry) :
  forall (result : Record_) (missing : list (list string)),
    NoDup (map fst optEntries) ->
    snd (applyDefaults omit optEntries result missing)
    = (missing ++ map optNames (filter (isMissing result) optEntries))%list.
Proof.
  induction optEntries as [| [k o] rest IH]; intros result missing Hnd.
  - simpl. now rewrite app_nil_r.
  - inversion Hnd as [| ? ? Hnotin Hnd']; subst.
    cbn [applyDefaults].
    set (d := coalesce (readKey result k) (opt_default o)).
    set (result' := if negb omit then setKey result k d
                    else if negb (isUndefined d) then setKey result k d else result).
    assert (Hread : isUndefined (readKey result' k) = isUndefined d).
    { subst result'. destruct omit; simpl.
      - destruct (isUndefined d) eqn:Ed; simpl.
        + apply coalesce_undefined in Ed. exact Ed.
        + rewrite readKey_setKey_same. exact Ed.
      - now rewrite readKey_setKey_same. }
    assert (Hother : forall e, In e rest -> isMissing result' e = isMissing result e).
    { intros e He. unfold isMissing.
      assert (Hne : fst e <> k).
      { intros Heq. apply Hnotin. rewrite <- Heq. now apply in_map. }
      replace (readKey result' (fst e)) with (readKey result (fst e)); [reflexivity |].
      subst result'. destruct (negb omit); [now rewrite readKey_setKey_other |].
      destruct (negb (isUndefined d)); [now rewrite readKey_setKey_other | reflexivity]. }
    rewrite IH by exact Hnd'.
    rewrite (filter_ext_in _ _ _ Hother).
    rewrite Hread.
    cbn [filter].
    change (isMissing result (k, o)) with (opt_isRequired o && isUndefined d)%bool.
    destruct (opt_isRequired o && isUndefined d)%bool; cbn [map].
    + now rewrite <- app_assoc.
    + reflexivity.
Qed.

(** [parseOptions] in terms of its two phases. *)
Lemma parseOptions_phases (command : Command) (args : list string) (omit : bool)
    (result : Record_) (unrec : list string) :
  scanArgs (filter (fun e => negb (isPositional (opt_type (snd e)))) (optEntriesOf command))
           (filter (fun e => isPositional (opt_type (snd e))) (optEntriesOf command))
           args [] [] = Ok (Scanned result unrec) ->
  parseOptions command args omit =
  let missing := snd (applyDefaults omit (optEntriesOf command) result []) in
  let result' := fst (applyDefaults omit (optEntriesOf command) result []) in
  if negb (isEmpty missing) then Throw (missingRequired (cmd_name command) missing)
  else if negb (isEmpty unrec) then Throw (unrecognizedOptions (cmd_name command) unrec)
  else Ok (if isEmpty result' then Undefined else Options result').
Proof.
  intros H. unfold parseOptions. rewrite H. cbn [bind].
  destruct (applyDefaults omit (optEntriesOf command) result []); reflexivity.
Qed.

(** ** Claims about the option parser *)

(** C1 (as amended).  A token that starts with the flag prefix, is not a
    help or version flag and matches no declared option is recorded, by its
    part before the first [=], in the unrecognized list; the following token
    is consumed exactly when the token carries no [=].  In particular,
    parsing [["--nope"; "--also-nope=1"]] against a command none of whose
    options is named [--nope] ends in a single aggregate error, which names
    [--nope] alone when it is the unrecognized-options error. *)
Theorem C1_unrecognized_flag :
  (forall (options positionals : list OptEntry) (arg : string) (rest : list string)
          (result : Record_) (unrec : list string),
      startsWith arg "-" = true ->
      isHelpFlag (namePartOf arg) = false ->
      isVersionFlag (namePartOf arg) = false ->
      (forall e, In e options -> findTruthy (optNames e) (namePartOf arg) = false) ->
      scanArgs options positionals (arg :: rest) result unrec =
      scanArgs options positionals (if includes arg "=" then rest else tl rest)
        (setKey result "undefined" VUndefined) (unrec ++ [namePartOf arg]))
  /\
  (forall (command : Command) (omit : bool),
      (forall e, In e (optEntriesOf command) -> findTruthy (optNames e) "--nope" = false) ->
      parseOptions command ["--nope"; "--also-nope=1"] omit
        = Throw (unrecognizedOptions (cmd_name command) ["--nope"])
      \/ exists missing,
           parseOptions command ["--nope"; "--also-nope=1"] omit
             = Throw (missingRequired (cmd_name command) missing)).
Proof.
  split.
  - intros. now apply scanArgs_flag_no_match.
  - intros command omit Hno.
    rewrite (parseOptions_phases command _ omit
               (setKey [] "undefined" VUndefined) ["--nope"]).
    + cbn zeta.
      destruct (snd (applyDefaults omit (optEntriesOf command)
                       (setKey [] "undefined" VUndefined) [])) as [| m ms].
      * left. reflexivity.
      * right. eexists. reflexivity.
    + rewrite scanArgs_flag_no_match; try reflexivity.
      intros e He. apply filter_In in He. apply (Hno e). tauto.
Qed.

(** The token loop is the iteration of its body. *)
Lemma scanFrom_loopBody (options : list OptEntry) (st : LoopState) :
  scanFrom options st
  = (r <- loopBody options st ;;
     match r with
     | Returned s => Ok s
     | Continue st' => scanFrom options st'
     end).
Proof.
  destruct st as [positionals args result unrec]. unfold scanFrom, loopBody.
  cbn [st_positionals st_args st_result st_unrecognized].
  destruct args as [| arg rest]; [reflexivity |].
  cbn [scanArgs].
  destruct (parseArg options positionals arg (hd_error rest)) as [[p positionals'] | e];
    cbn [bind]; [| reflexivity].
  destruct (pa_isHelp p); [reflexivity |].
  destruct (pa_isVersion p); [reflexivity |].
  cbn [bind st_positionals st_args st_result st_unrecognized].
  destruct (pa_skipNext p); [| reflexivity].
  destruct rest as [| next rest']; reflexivity.
Qed.

Lemma scanFrom_iterations (n : nat) (options : list OptEntry) :
  forall st,
    scanFrom options st
    = (r <- iterations n options st ;;
       match r with
       | Returned s => Ok s
       | Continue st' => scanFrom options st'
       end).
Proof.
  induction n as [| n IH]; intros st; [reflexivity |].
  rewrite scanFrom_loopBody. cbn [iterations].
  destruct (loopBody options st) as [[s | st'] | e]; cbn [bind]; try reflexivity.
  apply IH.
Qed.

(** [parseOptions] after the loop. *)
Lemma parseOptions_scan (command : Command) (args : list string) (omit : bool) :
  parseOptions command args omit
  = (s <- scanArgs (nonPositionalEntries command) (positionalEntries command) args [] [] ;;
     match s with
     | ScanHelp => Ok Help
     | ScanVersion => Ok Version
     | Scanned result unrec =>
         let missing := snd (applyDefaults omit (optEntriesOf command) result []) in
         let result' := fst (applyDefaults omit (optEntriesOf command) result []) in
         if negb (isEmpty missing) then Throw (missingRequired (cmd_name command) missing)
         else if negb (isEmpty unrec)
         then Throw (unrecognizedOptions (cmd_name command) unrec)
         else Ok (if isEmpty result' then Undefined else Options result')
     end).
Proof.
  unfold parseOptions, nonPositionalEntries, positionalEntries. cbn zeta.
  match goal with |- bind ?sc _ = _ => destruct sc as [[| | r u] | e] end;
    cbn [bind]; try reflexivity.
  destruct (applyDefaults omit (optEntriesOf command) r []); reflexivity.
Qed.

(** C2 (as amended).  A token that does not start with the flag prefix and
    arrives when the queue of positional specs is empty is bound to no spec
    and consumes no other token, but its part before the first [=] is
    recorded in the unrecognized list (and the key [undefined] of the result
    is set): the loop goes on with the following token, and a scan that
    completes names the token in the list.  So a parse in which the loop
    meets such a token, at its first iteration or after earlier tokens have
    emptied the queue, ends as the rest of the scan decides: in the error
    raised for a later token, in the help or version sentinel of a later
    token, and otherwise in an aggregate error, on the missing required
    options or else on the unrecognized tokens, this one among them; it
    returns neither an option mapping nor [undefined]. *)
Theorem C2_stray_token_recorded (options : list OptEntry) (arg : string)
    (rest : list string) (result : Record_) (unrec : list string) :
  startsWith arg "-" = false ->
  loopBody options (mkLoopState [] (arg :: rest) result unrec)
    = Ok (Continue (mkLoopState [] rest (setKey result "undefined" VUndefined)
                      (unrec ++ [namePartOf arg])))
  /\ scanArgs options [] (arg :: rest) result unrec =
       scanArgs options [] rest (setKey result "undefined" VUndefined)
         (unrec ++ [namePartOf arg])
  /\ (forall result' unrec',
        scanArgs options [] (arg :: rest) result unrec = Ok (Scanned result' unrec') ->
        In (namePartOf arg) unrec')
  /\ (forall (command : Command) (args : list string) (omit : bool) (n : nat),
        options = nonPositionalEntries command ->
        iterations n options (mkLoopState (positionalEntries command) args [] [])
          = Ok (Continue (mkLoopState [] (arg :: rest) result unrec)) ->
        match scanArgs options [] rest (setKey result "undefined" VUndefined)
                (unrec ++ [namePartOf arg]) with
        | Throw e => parseOptions command args omit = Throw e
        | Ok ScanHelp => parseOptions command args omit = Ok Help
        | Ok ScanVersion => parseOptions command args omit = Ok Version
        | Ok (Scanned _ unrec') =>
            In (namePartOf arg) unrec'
            /\ (parseOptions command args omit
                  = Throw (unrecognizedOptions (cmd_name command) unrec')
                \/ exists missing,
                     missing <> []
                     /\ parseOptions command args omit
                        = Throw (missingRequired (cmd_name command) missing))
        end).
Proof.
  intros Hdash.
  assert (Hin : forall result' unrec',
             scanArgs options [] rest (setKey result "undefined" VUndefined)
               (unrec ++ [namePartOf arg]) = Ok (Scanned result' unrec') ->
             In (namePartOf arg) unrec').
  { intros r' u' H.
    destruct (scanArgs_unrecognized_grows _ _ _ _ _ _ _ _ (le_n _) H) as [ext ->].
    apply in_or_app. left. apply in_or_app. right. now left. }
  split; [| split; [| split]].
  - destruct (namePartOf_not_flag _ Hdash) as [Hh Hv].
    unfold loopBody. cbn [st_args st_positionals st_result st_unrecognized].
    unfold parseArg. rewrite Hh, Hv, Hdash. reflexivity.
  - now apply scanArgs_stray_token.
  - intros r' u' H. rewrite scanArgs_stray_token in H by exact Hdash. exact (Hin r' u' H).
  - intros command args omit n -> Hreach.
    rewrite parseOptions_scan.
    change (scanArgs (nonPositionalEntries command) (positionalEntries command) args [] [])
      with (scanFrom (nonPositionalEntries command)
              (mkLoopState (positionalEntries command) args [] [])).
    rewrite (scanFrom_iterations n), Hreach. cbn [bind]. unfold scanFrom.
    cbn [st_positionals st_args st_result st_unrecognized].
    rewrite scanArgs_stray_token by exact Hdash.
    destruct (scanArgs (nonPositionalEntries command) [] rest
                (setKey result "undefined" VUndefined) (unrec ++ [namePartOf arg]))
      as [[| | r' u'] | e] eqn:Es; cbn [bind]; try reflexivity.
    pose proof (Hin r' u' eq_refl) as Hu. split; [exact Hu |]. cbn zeta.
    destruct (snd (applyDefaults omit (optEntriesOf command) r' [])) as [| m ms].
    + left. destruct u' as [| u0 us]; [contradiction | reflexivity].
    + right. exists (m :: ms). split; [discriminate | reflexivity].
Qed.

(** C10.  [parseOptions] never returns an empty mapping: when the parse
    completes normally and the final result has no keys it returns
    [undefined].  For a command that declares no option specs and an empty
    token list, [test] therefore yields a handler result whose options are
    [undefined] (passed through the transform when there is one). *)
Theorem C10_empty_result_is_undefined (command : Command) (args : list string)
    (omit : bool) :
  parseOptions command args omit <> Ok (Options [])
  /\ (forall result,
        scanArgs (filter (fun e => negb (isPositional (opt_type (snd e)))) (optEntriesOf command))
                 (filter (fun e => isPositional (opt_type (snd e))) (optEntriesOf command))
                 args [] [] = Ok (Scanned result []) ->
        applyDefaults omit (optEntriesOf command) result [] = ([], []) ->
        parseOptions command args omit = Ok Undefined)
  /\ (optEntriesOf command = [] ->
        parseOptions command [] omit = Ok Undefined
        /\ test command [] = test_handler (handlerInput command Undefined)).
Proof.
  split; [| split].
  - unfold parseOptions.
    match goal with
    | |- bind ?sc _ <> _ => destruct sc as [[| | r u] | e]
    end; cbn [bind]; try discriminate.
    destruct (applyDefaults omit (optEntriesOf command) r []) as [r' m].
    destruct (negb (isEmpty m)); [discriminate |].
    destruct (negb (isEmpty u)); [discriminate |].
    destruct r'; cbn; discriminate.
  - intros result Hscan Hdef.
    rewrite (parseOptions_phases command args omit result [] Hscan).
    rewrite Hdef. reflexivity.
  - intros Hnone.
    assert (H : forall o, parseOptions command [] o = Ok Undefined).
    { intros o. unfold parseOptions. rewrite Hnone. reflexivity. }
    split; [apply H |]. unfold test. now rewrite H.
Qed.

(** ** Arrays *)

Lemma removeByIndex_firstn_skipn {A : Type} (l : list A) (j : Z) :
  0 <= j ->
  removeByIndex l j = (firstn (Z.to_nat j) l ++ skipn (S (Z.to_nat j)) l)%list.
Proof.
  intros Hj. unfold removeByIndex, slice.
  set (len := Z.of_nat (length l)).
  assert (Hlen : 0 <= len) by (subst len; lia).
  replace (0 <? 0) with false by reflexivity.
  replace (j <? 0) with false by (symmetry; apply Z.ltb_ge; lia).
  replace (j + 1 <? 0) with false by (symmetry; apply Z.ltb_ge; lia).
  replace (len <? 0) with false by (symmetry; apply Z.ltb_ge; lia).
  f_equal.
  - rewrite (Z.min_l 0 len) by lia. cbn [Z.to_nat skipn]. rewrite Z.sub_0_r.
    destruct (Z.le_gt_cases j len) as [H | H].
    + now rewrite Z.min_l by lia.
    + rewrite Z.min_r by lia. subst len. rewrite Nat2Z.id.
      rewrite firstn_all. symmetry. apply firstn_all2. lia.
  - rewrite Z.min_id.
    destruct (Z.le_gt_cases (j + 1) len) as [H | H].
    + rewrite Z.min_l by lia.
      replace (Z.to_nat (j + 1)) with (S (Z.to_nat j)) by lia.
      apply firstn_all2. rewrite length_skipn. subst len. lia.
    + rewrite Z.min_r by lia. rewrite Z.sub_diag. cbn [Z.to_nat firstn].
      symmetry. apply skipn_all2. subst len. lia.
Qed.

Lemma removeByIndex_nil {A : Type} (j : Z) : 0 <= j -> removeByIndex (@nil A) j = [].
Proof.
  intros Hj. rewrite removeByIndex_firstn_skipn by exact Hj.
  now rewrite firstn_nil, skipn_nil.
Qed.

Lemma removeByIndex_head {A : Type} (x : A) (t : list A) : removeByIndex (x :: t) 0 = t.
Proof. now rewrite removeByIndex_firstn_skipn by lia. Qed.

Lemma removeByIndex_tail {A : Type} (x : A) (t : list A) (j : Z) :
  0 < j -> removeByIndex (x :: t) j = x :: removeByIndex t (j - 1).
Proof.
  intros Hj. rewrite !removeByIndex_firstn_skipn by lia.
  replace (Z.to_nat j) with (S (Z.to_nat (j - 1))) by lia.
  reflexivity.
Qed.

Lemma at_cons_pos {A : Type} (x : A) (t : list A) (i : Z) :
  0 < i -> at_ (x :: t) i = at_ t (i - 1).
Proof.
  intros Hi. unfold at_.
  replace (i <? 0) with false by (symmetry; apply Z.ltb_ge; lia).
  replace (i - 1 <? 0) with false by (symmetry; apply Z.ltb_ge; lia).
  replace (Z.to_nat i) with (S (Z.to_nat (i - 1))) by lia.
  reflexivity.
Qed.

Lemma at_app_length {A : Type} (pre : list A) (x : A) (t : list A) :
  at_ (pre ++ x :: t) (Z.of_nat (length pre)) = Some x.
Proof.
  unfold at_.
  replace (Z.of_nat (length pre) <? 0) with false by (symmetry; apply Z.ltb_ge; lia).
  rewrite Nat2Z.id. rewrite nth_error_app2 by lia. now rewrite Nat.sub_diag.
Qed.

(** Removing the token at [j] moves every later token down by one. *)
Lemma at_removeByIndex_above {A : Type} (l : list A) :
  forall j i, 0 <= j < i -> at_ (removeByIndex l j) (i - 1) = at_ l i.
Proof.
  induction l as [| x t IH]; intros j i H.
  - rewrite removeByIndex_nil by lia. unfold at_.
    destruct (i - 1 <? 0), (i <? 0); try reflexivity;
      now rewrite ?nth_error_nil.
  - destruct (Z.eq_dec j 0) as [-> | Hj].
    + rewrite removeByIndex_head. symmetry. apply at_cons_pos. lia.
    + rewrite removeByIndex_tail by lia.
      rewrite !at_cons_pos by lia. apply IH. lia.
Qed.

(** ** The invariant of command resolution *)

Lemma ascending_weaken (candidates : list CommandCandidate) (lo lo' : Z) :
  lo' <= lo -> ascending lo candidates -> ascending lo' candidates.
Proof.
  destruct candidates as [| c rest]; simpl; [trivial |].
  intros Hle [H1 H2]. split; [lia | exact H2].
Qed.

Lemma ascending_lower_bound (candidates : list CommandCandidate) :
  forall lo, ascending lo candidates -> Forall (fun c => lo <= originalIndex c) candidates.
Proof.
  induction candidates as [| c rest IH]; intros lo H; constructor.
  - apply H.
  - destruct H as [H1 H2]. apply IH in H2.
    eapply Forall_impl; [| exact H2]. simpl. intros. lia.
Qed.

Lemma ascending_shift (candidates : list CommandCandidate) :
  forall lo, ascending (lo + 1) candidates -> ascending lo (map shiftCandidate candidates).
Proof.
  induction candidates as [| c rest IH]; intros lo H; simpl; [trivial |].
  destruct H as [H1 H2]. split; [lia |].
  replace (originalIndex c - 1 + 1) with (originalIndex c) by lia.
  apply IH. exact H2.
Qed.

(** The scanner yields candidates with growing indices, each indexing its
    own token. *)
Lemma scanCandidates_invariant (n : nat) :
  forall (args pre : list string),
    (length args <= n)%nat ->
    ascending (Z.of_nat (length pre)) (scanCandidates (Z.of_nat (length pre)) args)
    /\ Forall (indexes (pre ++ args)) (scanCandidates (Z.of_nat (length pre)) args).
Proof.
  induction n as [| n IH]; intros args pre Hlen.
  - destruct args; [simpl; auto | simpl in Hlen; lia].
  - destruct args as [| arg rest]; [simpl; auto |].
    simpl in Hlen.
    assert (H1 : ascending (Z.of_nat (length pre) + 1)
                   (scanCandidates (Z.of_nat (length pre) + 1) rest)
                 /\ Forall (indexes (pre ++ arg :: rest))
                      (scanCandidates (Z.of_nat (length pre) + 1) rest)).
    { assert (Hr : (length rest <= n)%nat) by lia.
      pose proof (IH rest (pre ++ [arg])%list Hr) as IH1.
      rewrite length_app, <- app_assoc in IH1. cbn [length app] in IH1.
      replace (Z.of_nat (length pre + 1)) with (Z.of_nat (length pre) + 1) in IH1 by lia.
      exact IH1. }
    assert (H2 : forall next rest', rest = next :: rest' ->
                 ascending (Z.of_nat (length pre) + 2)
                   (scanCandidates (Z.of_nat (length pre) + 2) rest')
                 /\ Forall (indexes (pre ++ arg :: rest))
                      (scanCandidates (Z.of_nat (length pre) + 2) rest')).
    { intros next rest' ->. simpl in Hlen.
      assert (Hr : (length rest' <= n)%nat) by lia.
      pose proof (IH rest' (pre ++ [arg; next])%list Hr) as IH2.
      rewrite length_app, <- app_assoc in IH2. cbn [length app] in IH2.
      replace (Z.of_nat (length pre + 2)) with (Z.of_nat (length pre) + 2) in IH2 by lia.
      exact IH2. }
    assert (W1 : ascending (Z.of_nat (length pre))
                   (scanCandidates (Z.of_nat (length pre) + 1) rest)
                 /\ Forall (indexes (pre ++ arg :: rest))
                      (scanCandidates (Z.of_nat (length pre) + 1) rest)).
    { destruct H1 as [Ha Hf]. split; [| exact Hf].
      eapply ascending_weaken; [| exact Ha]. lia. }
    assert (W2 : forall next rest', rest = next :: rest' ->
                 ascending (Z.of_nat (length pre))
                   (scanCandidates (Z.of_nat (length pre) + 2) rest')
                 /\ Forall (indexes (pre ++ arg :: rest))
                      (scanCandidates (Z.of_nat (length pre) + 2) rest')).
    { intros next rest' E. destruct (H2 next rest' E) as [Ha Hf]. split; [| exact Hf].
      eapply ascending_weaken; [| exact Ha]. lia. }
    cbn [scanCandidates].
    destruct (isHelpFlag arg || isVersionFlag arg)%bool.
    + destruct rest as [| next rest']; [simpl; auto |].
      destruct (isBooleanLiteral (toLowerCase next)); [eapply W2; reflexivity | exact W1].
    + destruct (startsWith arg "-").
      * destruct (negb (includes arg "=")); [| exact W1].
        destruct rest as [| next rest']; [simpl; auto |]. eapply W2; reflexivity.
      * destruct H1 as [Ha Hf]. split.
        -- simpl. split; [lia | exact Ha].
        -- constructor; [| exact Hf]. apply at_app_length.
Qed.

Lemma inner_call_step (args : list string) (c : CommandCandidate)
    (rest : list CommandCandidate) :
  ascending 0 (c :: rest) ->
  Forall (indexes args) (c :: rest) ->
  ascending 0 (map shiftCandidate rest)
  /\ Forall (indexes (removeByIndex args (originalIndex c))) (map shiftCandidate rest).
Proof.
  intros [Hc Hrest] Hidx. split.
  - apply ascending_shift. eapply ascending_weaken; [| exact Hrest]. lia.
  - apply Forall_map.
    inversion Hidx as [| ? ? _ Hidx']; subst.
    pose proof (ascending_lower_bound _ _ Hrest) as Hlow.
    rewrite Forall_forall in *. intros r Hr.
    unfold indexes, shiftCandidate. cbn [originalIndex data].
    rewrite at_removeByIndex_above.
    + apply Hidx'. exact Hr.
    + specialize (Hlow r Hr). cbn in Hlow. lia.
Qed.

Lemma inner_call_invariant (commands0 : list Command) (args0 : list string)
    (onMiss : Error) (commands : list Command) (candidates : list CommandCandidate)
    (args : list string) :
  InnerCall commands0 args0 onMiss commands candidates args ->
  ascending 0 candidates /\ Forall (indexes args) candidates.
Proof.
  induction 1 as [c rest Hscan _
                 | onMiss commands c next rest args command subcommands _ [IHa IHf] _ _].
  - rewrite <- Hscan.
    apply (scanCandidates_invariant (length args0) args0 [] (le_n _)).
  - apply inner_call_step; assumption.
Qed.

(** The result of [getCommand] is the result of each call of
    [getCommandInner] that it gives rise to, handed up to it. *)
Lemma inner_call_result (commands0 : list Command) (args0 : list string)
    (onMiss : Error) (commands : list Command) (candidates : list CommandCandidate)
    (args : list string) :
  InnerCall commands0 args0 onMiss commands candidates args ->
  getCommand commands0 args0
  = resolutionOf onMiss (getCommandInner commands candidates args).
Proof.
  induction 1 as [c rest Hscan Hhelp
                 | onMiss commands c next rest args command subcommands _ IH Hfind Hsubs].
  - unfold getCommand. rewrite Hscan, Hhelp.
    destruct (getCommandInner commands0 (c :: rest) args0) as [[[cmd |] a] | e];
      reflexivity.
  - rewrite IH, getCommandInner_equation_2, Hfind. cbn zeta. rewrite Hsubs.
    destruct (getCommandInner subcommands (map shiftCandidate (next :: rest))
                (removeByIndex args (originalIndex c))) as [[[cmd |] a] | e];
      reflexivity.
Qed.

(** ** Removing the consumed tokens *)

Lemma existsb_eqb_absent (i : Z) (removed : list Z) :
  Forall (fun r => i <> r) removed -> existsb (Z.eqb i) removed = false.
Proof.
  induction 1 as [| r rs Hr _ IH]; [reflexivity |].
  simpl. rewrite IH. apply Z.eqb_neq in Hr. now rewrite Hr.
Qed.

Lemma dropAt_none (args : list string) : forall i, dropAt i [] args = args.
Proof. induction args as [| x t IH]; intros i; simpl; [| rewrite IH]; reflexivity. Qed.

Lemma dropAt_passed (args : list string) :
  forall i j removed, j < i -> dropAt i (j :: removed) args = dropAt i removed args.
Proof.
  induction args as [| x t IH]; intros i j removed H; [reflexivity |].
  cbn [dropAt existsb].
  replace (i =? j) with false by (symmetry; apply Z.eqb_neq; lia).
  cbn [orb]. rewrite IH by lia. reflexivity.
Qed.

Lemma dropAt_shift (args : list string) :
  forall i removed,
    dropAt (i + 1) removed args = dropAt i (map (fun r => r - 1) removed) args.
Proof.
  induction args as [| x t IH]; intros i removed; [reflexivity |].
  cbn [dropAt].
  assert (E : existsb (Z.eqb (i + 1)) removed
              = existsb (Z.eqb i) (map (fun r => r - 1) removed)).
  { induction removed as [| r rs IHr]; [reflexivity |].
    cbn [existsb map]. rewrite IHr. f_equal.
    destruct (Z.eqb_spec (i + 1) r), (Z.eqb_spec i (r - 1)); (reflexivity || lia). }
  rewrite E, IH. reflexivity.
Qed.

(** Dropping position [i + j] together with later positions is removing the
    token at [j] first and dropping the later positions, moved down by
    one. *)
Lemma dropAt_removeByIndex (args : list string) :
  forall i j removed,
    0 <= j ->
    Forall (fun r => i + j < r) removed ->
    dropAt i (i + j :: removed) args
    = dropAt i (map (fun r => r - 1) removed) (removeByIndex args j).
Proof.
  induction args as [| x t IH]; intros i j removed Hj Hlate.
  - rewrite removeByIndex_nil by exact Hj. reflexivity.
  - destruct (Z.eq_dec j 0) as [-> | Hne].
    + rewrite removeByIndex_head. cbn [dropAt existsb].
      replace (i =? i + 0) with true by (symmetry; apply Z.eqb_eq; lia).
      cbn [orb]. rewrite dropAt_passed by lia. apply dropAt_shift.
    + rewrite removeByIndex_tail by lia. cbn [dropAt existsb].
      replace (i =? i + j) with false by (symmetry; apply Z.eqb_neq; lia).
      rewrite !existsb_eqb_absent.
      * cbn [orb]. f_equal.
        replace (i + j) with (i + 1 + (j - 1)) by lia.
        apply IH; [lia |].
        eapply Forall_impl; [| exact Hlate]. simpl. intros. lia.
      * apply Forall_map. eapply Forall_impl; [| exact Hlate]. simpl. intros. lia.
      * eapply Forall_impl; [| exact Hlate]. simpl. intros. lia.
Qed.

Lemma dropIndices_step (args : list string) (c : CommandCandidate)
    (taken : list CommandCandidate) :
  ascending 0 (c :: taken) ->
  dropIndices (originalIndex c :: map originalIndex taken) args
  = dropIndices (map originalIndex (map shiftCandidate taken))
      (removeByIndex args (originalIndex c)).
Proof.
  intros [Hc Htaken]. unfold dropIndices.
  rewrite map_map. cbn [shiftCandidate originalIndex].
  rewrite <- (map_map originalIndex (fun r => r - 1)).
  rewrite <- dropAt_removeByIndex; [reflexivity | lia |].
  apply Forall_map. pose proof (ascending_lower_bound _ _ Htaken) as Hlow.
  eapply Forall_impl; [| exact Hlow]. simpl. intros. lia.
Qed.

Lemma ascending_firstn (candidates : list CommandCandidate) :
  forall k lo, ascending lo candidates -> ascending lo (firstn k candidates).
Proof.
  induction candidates as [| c rest IH]; intros k lo H.
  - now rewrite firstn_nil.
  - destruct k; [exact I |]. destruct H as [H1 H2]. simpl. split; [exact H1 |].
    apply IH. exact H2.
Qed.

(** ** Claims about command resolution *)

(** C9.  Every call of [getCommandInner] that resolution makes is on the
    way to the result of [getCommand]; in every such call each remaining
    candidate indexes its own token, [args[originalIndex] = data]; and after
    the token of the first candidate is removed, the other candidates, with
    their index moved down by one, index their own token in the reduced
    list, which is what the call hands to the next one. *)
Theorem C9_candidates_index_their_tokens (commands0 : list Command)
    (args0 : list string) (onMiss : Error) (commands : list Command)
    (candidates : list CommandCandidate) (args : list string) :
  InnerCall commands0 args0 onMiss commands candidates args ->
  getCommand commands0 args0
    = resolutionOf onMiss (getCommandInner commands candidates args)
  /\ Forall (indexes args) candidates
  /\ (forall c rest, candidates = c :: rest ->
        Forall (indexes (removeByIndex args (originalIndex c)))
          (map shiftCandidate rest))
  /\ (forall c next rest command subcommands,
        candidates = c :: next :: rest ->
        findCommand commands (data c) = Some command ->
        cmd_subcommands command = Some subcommands ->
        getCommandInner commands candidates args
        = match getCommandInner subcommands (map shiftCandidate (next :: rest))
                  (removeByIndex args (originalIndex c)) with
          | Ok (None, _) => Throw (unknownSubcommand command (data next))
          | subcommand => subcommand
          end).
Proof.
  intros H. destruct (inner_call_invariant _ _ _ _ _ _ H) as [Ha Hf].
  split; [exact (inner_call_result _ _ _ _ _ _ H) |].
  split; [exact Hf |]. split.
  - intros c rest ->. now apply inner_call_step.
  - intros c next rest command subcommands -> Hfind Hsubs.
    rewrite getCommandInner_equation_2, Hfind. cbn zeta. now rewrite Hsubs.
Qed.

Lemma descend_single (commands : list Command) (name : string) :
  descend commands [name] = findCommand commands name.
Proof. simpl. destruct (findCommand commands name); reflexivity. Qed.

Lemma map_data_shift (l : list CommandCandidate) :
  map data (map shiftCandidate l) = map data l.
Proof. rewrite map_map. reflexivity. Qed.

(** What [getCommandInner] returns was reached along the leading candidates,
    and no further descent was possible. *)
Lemma getCommandInner_sound (n : nat) :
  forall (commands : list Command) (candidates : list CommandCandidate)
         (args : list string) (cmd : Command) (args' : list string),
    (length candidates <= n)%nat ->
    ascending 0 candidates ->
    getCommandInner commands candidates args = Ok (Some cmd, args') ->
    exists k,
      (0 < k <= length candidates)%nat
      /\ descend commands (map data (firstn k candidates)) = Some cmd
      /\ (k = length candidates \/ cmd_subcommands cmd = None)
      /\ args' = dropIndices (map originalIndex (firstn k candidates)) args.
Proof.
  induction n as [| n IH]; intros commands candidates args cmd args' Hlen Hasc H.
  - destruct candidates; [| simpl in Hlen; lia].
    rewrite getCommandInner_equation_1 in H. discriminate.
  - destruct candidates as [| c rest];
      [rewrite getCommandInner_equation_1 in H; discriminate |].
    rewrite getCommandInner_equation_2 in H.
    destruct (findCommand commands (data c)) as [command |] eqn:Ef; [| discriminate].
    cbn zeta in H.
    assert (Hone : (Ok (Some command, removeByIndex args (originalIndex c))
                    : res InnerCommandParseRes) = Ok (Some cmd, args') ->
                   (rest = [] \/ cmd_subcommands command = None) ->
                   exists k,
                     (0 < k <= length (c :: rest))%nat
                     /\ descend commands (map data (firstn k (c :: rest))) = Some cmd
                     /\ (k = length (c :: rest) \/ cmd_subcommands cmd = None)
                     /\ args' = dropIndices (map originalIndex (firstn k (c :: rest))) args).
    { intros E Hstop. injection E as <- <-. exists 1%nat.
      cbn [firstn map length]. repeat split.
      - lia.
      - lia.
      - rewrite descend_single. exact Ef.
      - destruct Hstop as [-> | Hleaf]; [left; reflexivity | right; exact Hleaf].
      - assert (E : ascending 0 [c]) by (simpl; split; [apply Hasc | exact I]).
        apply (dropIndices_step args) in E. cbn [map] in E. rewrite E.
        unfold dropIndices. now rewrite dropAt_none. }
    destruct rest as [| next rest']; [apply Hone; [exact H | now left] |].
    destruct (cmd_subcommands command) as [subcommands |] eqn:Es;
      [| apply Hone; [exact H | now right]].
    assert (Hasc' : ascending 0 (map shiftCandidate (next :: rest'))).
    { apply ascending_shift. eapply ascending_weaken; [| apply Hasc].
      destruct Hasc as [Hc _]. lia. }
    destruct (getCommandInner subcommands (map shiftCandidate (next :: rest'))
                (removeByIndex args (originalIndex c)))
      as [[[cmd0 |] args0] | e] eqn:Er; try discriminate.
    injection H as -> ->.
    apply IH in Er; [| rewrite length_map; simpl in Hlen |- *; lia | exact Hasc'].
    destruct Er as [k [Hk [Hd [Hdeep Hargs]]]].
    rewrite length_map in Hk, Hdeep.
    rewrite firstn_map in Hd, Hargs. rewrite map_data_shift in Hd.
    exists (S k). cbn [firstn map length]. repeat split.
    + lia.
    + simpl in Hk. lia.
    + cbn [descend]. rewrite Ef.
      destruct (map data (firstn k (next :: rest'))) as [| d ds] eqn:Ed.
      * destruct k; [lia | discriminate].
      * rewrite Es. exact Hd.
    + destruct Hdeep as [-> | Hleaf]; [left; reflexivity | right; exact Hleaf].
    + rewrite Hargs. symmetry. apply dropIndices_step.
      destruct Hasc as [Hc Hrest]. split; [exact Hc |].
      apply ascending_firstn. exact Hrest.
Qed.

(** Conversely, a descent along the leading candidates that cannot go any
    further is what [getCommandInner] returns. *)
Lemma getCommandInner_complete (k : nat) :
  forall (commands : list Command) (candidates : list CommandCandidate)
         (args : list string) (cmd : Command),
    ascending 0 candidates ->
    (0 < k <= length candidates)%nat ->
    descend commands (map data (firstn k candidates)) = Some cmd ->
    (k = length candidates \/ cmd_subcommands cmd = None) ->
    getCommandInner commands candidates args
    = Ok (Some cmd, dropIndices (map originalIndex (firstn k candidates)) args).
Proof.
  induction k as [| k IH]; intros commands candidates args cmd Hasc Hk Hd Hdeep; [lia |].
  destruct candidates as [| c rest]; [simpl in Hk; lia |].
  cbn [firstn map descend] in Hd.
  destruct (findCommand commands (data c)) as [command |] eqn:Ef; [| discriminate].
  rewrite getCommandInner_equation_2, Ef. cbn zeta.
  destruct k as [| k'].
  - cbn [firstn map] in Hd |- *. injection Hd as ->.
    assert (E : ascending 0 [c]) by (simpl; split; [apply Hasc | exact I]).
    apply (dropIndices_step args) in E. cbn [map] in E. rewrite E.
    unfold dropIndices. rewrite dropAt_none.
    destruct rest as [| next rest']; [reflexivity |].
    destruct Hdeep as [Hl | Hleaf]; [simpl in Hl; lia |].
    now rewrite Hleaf.
  - destruct rest as [| next rest']; [simpl in Hk; lia |].
    cbn [firstn map] in Hd.
    destruct (cmd_subcommands command) as [subcommands |] eqn:Es; [| discriminate].
    assert (Hasc' : ascending 0 (map shiftCandidate (next :: rest'))).
    { apply ascending_shift. eapply ascending_weaken; [| apply Hasc].
      destruct Hasc as [Hc _]. lia. }
    rewrite (IH subcommands (map shiftCandidate (next :: rest'))
               (removeByIndex args (originalIndex c)) cmd Hasc').
    + f_equal. f_equal. rewrite firstn_map. symmetry.
      change (map originalIndex (firstn (S (S k')) (c :: next :: rest')))
        with (originalIndex c :: map originalIndex (firstn (S k') (next :: rest'))).
      apply dropIndices_step.
      destruct Hasc as [Hc Hrest]. split; [exact Hc |].
      apply ascending_firstn. exact Hrest.
    + rewrite length_map. simpl in Hk |- *. lia.
    + rewrite firstn_map, map_data_shift. exact Hd.
    + rewrite length_map. destruct Hdeep as [Hl | Hleaf]; [left | right; exact Hleaf].
      simpl in Hl |- *. lia.
Qed.

Lemma hasName_namesOf (c : Command) (name : string) :
  hasName c name <-> In name (namesOf c).
Proof.
  unfold hasName, namesOf. destruct (cmd_aliases c) as [al |]; cbn [In]; split.
  - intros [-> | [al' [E Hin]]]; [now left |]. injection E as <-. now right.
  - intros [<- | Hin]; [now left |]. right. now exists al.
  - intros [-> | [al' [E _]]]; [now left | discriminate].
  - intros [<- | []]. now left.
Qed.

(** [findCommand] selects the first command that goes by the name. *)
Lemma findCommand_firstMatch (commands : list Command) (name : string) (c : Command) :
  findCommand commands name = Some c <-> firstMatch commands name c.
Proof.
  unfold findCommand, firstMatch. split.
  - induction commands as [| c0 rest IH]; intros H; [discriminate |].
    cbn [find] in H. destruct (findTruthy (namesOf c0) name) eqn:E.
    + injection H as <-. apply findTruthy_true in E. destruct E as [Hin Hne].
      split; [exact Hne |]. exists [], rest.
      split; [reflexivity |]. split; [now apply hasName_namesOf |]. intros b [].
    + destruct (IH H) as [Hne [before [after [-> [Hin Hb]]]]].
      split; [exact Hne |]. exists (c0 :: before), after.
      split; [reflexivity |]. split; [exact Hin |].
      intros b [<- | Hb']; [| now apply Hb].
      intros Hin0. apply hasName_namesOf in Hin0.
      assert (findTruthy (namesOf c0) name = true); [| congruence].
      apply findTruthy_true. auto.
  - intros [Hne [before [after [-> [Hin Hb]]]]].
    induction before as [| b0 before IH]; cbn [app find].
    + replace (findTruthy (namesOf c) name) with true; [reflexivity |].
      symmetry. apply findTruthy_true. split; [now apply hasName_namesOf | exact Hne].
    + replace (findTruthy (namesOf b0) name) with false.
      * apply IH. intros b Hb'. apply Hb. now right.
      * symmetry. destruct (findTruthy (namesOf b0) name) eqn:E; [| reflexivity].
        apply findTruthy_true in E. destruct E as [Hin0 _].
        exfalso. apply (Hb b0 (or_introl eq_refl)). now apply hasName_namesOf.
Qed.

(** The descent that [getCommandInner] makes is the descent by first
    matches. *)
Lemma descend_Descends (path : list string) :
  forall (commands : list Command) (cmd : Command),
    descend commands path = Some cmd <-> Descends commands path cmd.
Proof.
  induction path as [| name deeper IH]; intros commands cmd.
  - split; [discriminate | intros H; inversion H].
  - cbn [descend]. split.
    + destruct (findCommand commands name) as [c |] eqn:Ef; [| discriminate].
      apply findCommand_firstMatch in Ef.
      destruct deeper as [| name' deeper'].
      * intros H. injection H as <-. now apply descends_last.
      * destruct (cmd_subcommands c) as [subcommands |] eqn:Es; [| discriminate].
        intros H. apply IH in H. now apply (descends_sub commands name c subcommands).
    + intros H. inversion H as [? ? ? Hm | ? ? c subcommands ? ? Hm Hs Hd]; subst.
      * apply findCommand_firstMatch in Hm. now rewrite Hm.
      * apply findCommand_firstMatch in Hm. rewrite Hm.
        destruct deeper as [| name' deeper']; [inversion Hd |].
        rewrite Hs. now apply IH.
Qed.

(** C7.  [getCommand] resolves to [cmd] exactly when [cmd] is reached by
    following some leading run of the scanned candidates down the command
    tree, each candidate selecting the first command that goes by it among
    the subcommands of the command selected before, the run cannot be
    extended (the candidates are exhausted or [cmd] has no subcommands), and
    the first candidate is not the literal [help]; the tokens returned are
    the input without the tokens of that run, the others in their order.
    For [db] with the single subcommand [migrate] and the input
    [["db"; "migrate"; "--dry"]] resolution yields [migrate] and
    [["--dry"]]. *)
Theorem C7_resolution_deepest (commands : list Command) (args : list string)
    (cmd : Command) (args' : list string) :
  (getCommand commands args = Ok (Resolve cmd, args') <->
   exists k,
     let candidates := scanCandidates 0 args in
     let run := firstn k candidates in
     (0 < k <= length candidates)%nat
     /\ option_map data (hd_error candidates) <> Some "help"
     /\ Descends commands (map data run) cmd
     /\ (k = length candidates \/ cmd_subcommands cmd = None)
     /\ args' = dropIndices (map originalIndex run) args)
  /\ (forall db migrate : Command,
        cmd_name db = "db" -> cmd_subcommands db = Some [migrate] ->
        cmd_name migrate = "migrate" ->
        getCommand [db] ["db"; "migrate"; "--dry"] = Ok (Resolve migrate, ["--dry"])).
Proof.
  split.
  - pose proof (scanCandidates_invariant (length args) args [] (le_n _)) as [Hasc _].
    cbn [length Z.of_nat app] in Hasc.
    unfold getCommand. cbn zeta.
    destruct (scanCandidates 0 args) as [| c rest] eqn:Ec.
    + split; [discriminate |]. intros [k [Hk _]]. simpl in Hk. lia.
    + cbn [hd_error option_map].
      destruct (String.eqb (data c) "help") eqn:Eh.
      * split; [discriminate |]. intros [k [_ [Hn _]]].
        apply String.eqb_eq in Eh. congruence.
      * split.
        -- intros H.
           destruct (getCommandInner commands (c :: rest) args)
             as [[[cmd0 |] args0] | e] eqn:Er; cbn [bind] in H; try discriminate.
           injection H as -> ->.
           apply (getCommandInner_sound (length (c :: rest))) in Er;
             [| apply le_n | exact Hasc].
           destruct Er as [k [Hk [Hd [Hdeep Hargs]]]].
           apply descend_Descends in Hd.
           exists k. repeat split; try assumption; try lia.
           intros E. injection E as E. apply String.eqb_neq in Eh. congruence.
        -- intros [k [Hk [_ [Hd [Hdeep ->]]]]].
           apply descend_Descends in Hd.
           rewrite (getCommandInner_complete k commands (c :: rest) args cmd
                      Hasc Hk Hd Hdeep).
           reflexivity.
  - intros db migrate Hdb Hsub Hmig.
    assert (Fdb : findCommand [db] "db" = Some db).
    { unfold findCommand, namesOf. cbn [find]. rewrite Hdb.
      destruct (cmd_aliases db); reflexivity. }
    assert (Fmig : findCommand [migrate] "migrate" = Some migrate).
    { unfold findCommand, namesOf. cbn [find]. rewrite Hmig.
      destruct (cmd_aliases migrate); reflexivity. }
    unfold getCommand.
    change (scanCandidates 0 ["db"; "migrate"; "--dry"])
      with [mkCandidate "db" 0; mkCandidate "migrate" 1].
    cbn [data String.eqb Ascii.eqb Bool.eqb].
    rewrite getCommandInner_equation_2. cbn [data originalIndex]. rewrite Fdb.
    cbn zeta. rewrite Hsub. cbn [map shiftCandidate data originalIndex].
    rewrite getCommandInner_equation_2.
    change (data (shiftCandidate (mkCandidate "migrate" 1))) with "migrate".
    rewrite Fmig. reflexivity.
Qed.

(** ** The short-circuit guards of the pipeline *)

Lemma at_nil {A : Type} (i : Z) : at_ (@nil A) i = None.
Proof. unfold at_. destruct (i <? 0); [reflexivity |]. now destruct (Z.to_nat i). Qed.

Lemma at_negative {A : Type} (l : list A) (i : Z) : i < 0 -> at_ l i = None.
Proof. intros H. unfold at_. now replace (i <? 0) with true by (symmetry; apply Z.ltb_lt; lia). Qed.

Lemma at_previous {A : Type} (l : list A) :
  forall i t, at_ l i = Some t -> 0 < i -> exists prev, at_ l (i - 1) = Some prev.
Proof.
  induction l as [| x l' IH]; intros i t H Hi; [rewrite at_nil in H; discriminate |].
  destruct (Z.eq_dec i 1) as [-> | Hne].
  - exists x. reflexivity.
  - rewrite at_cons_pos in H by lia. rewrite at_cons_pos by lia.
    apply (IH _ t); [exact H | lia].
Qed.

Lemma findIndex_lower (p : string -> bool) (l : list string) : -1 <= findIndex p l.
Proof.
  induction l as [| x t IH]; simpl; [lia |].
  destruct (p x); [lia |]. destruct (findIndex p t <? 0) eqn:E; [lia |].
  apply Z.ltb_ge in E. lia.
Qed.

Lemma firstIndex_findIndex (p : string -> bool) (l : list string) :
  forall i, firstIndex p l i -> findIndex p l = i.
Proof.
  induction l as [| x t IH]; intros i [[tok [Hat Hp]] Hfirst].
  - rewrite at_nil in Hat. discriminate.
  - cbn [findIndex]. destruct (Z.lt_trichotomy i 0) as [Hneg | [-> | Hpos]].
    + rewrite at_negative in Hat by exact Hneg. discriminate.
    + injection Hat as ->. now rewrite Hp.
    + rewrite (Hfirst 0 x) by (reflexivity || lia).
      rewrite (IH (i - 1)).
      * replace (i - 1 <? 0) with false by (symmetry; apply Z.ltb_ge; lia). lia.
      * split.
        -- exists tok. rewrite at_cons_pos in Hat by lia. auto.
        -- intros j tj Hj Hatj. apply (Hfirst (j + 1) tj); [lia |].
           rewrite at_cons_pos by lia. now replace (j + 1 - 1) with j by lia.
Qed.

Lemma findIndex_firstIndex (p : string -> bool) (l : list string) :
  findIndex p l <> -1 -> firstIndex p l (findIndex p l).
Proof.
  induction l as [| x t IH]; cbn [findIndex]; [congruence |].
  destruct (p x) eqn:Hp.
  - intros _. split; [exists x; auto |]. intros j tj Hj. lia.
  - pose proof (findIndex_lower p t) as Hlow.
    destruct (findIndex p t <? 0) eqn:E; [congruence |].
    apply Z.ltb_ge in E. intros _.
    destruct IH as [[tok [Hat Htok]] Hfirst]; [lia |].
    split.
    + exists tok. rewrite at_cons_pos by lia.
      now replace (findIndex p t + 1 - 1) with (findIndex p t) by lia.
    + intros j tj Hj Hatj. destruct (Z.eq_dec j 0) as [-> | Hne].
      * injection Hatj as <-. exact Hp.
      * rewrite at_cons_pos in Hatj by lia. apply (Hfirst (j - 1) tj); [lia | exact Hatj].
Qed.

Lemma helpShortCircuit_iff (args : list string) :
  helpShortCircuit args = true <-> helpQualifies args.
Proof.
  unfold helpShortCircuit, helpQualifies, bareFlag. cbn zeta. split.
  - intros H. apply andb_prop in H. destruct H as [Hfound Hprev].
    apply negb_true_iff, Z.eqb_neq in Hfound.
    pose proof (findIndex_firstIndex _ _ Hfound) as Hfirst.
    exists (findIndex isHelpFlag args). split; [exact Hfirst |].
    destruct (0 <? findIndex isHelpFlag args) eqn:Epos.
    + apply Z.ltb_lt in Epos. right.
      destruct Hfirst as [[tok [Hat _]] _].
      destruct (at_previous _ _ _ Hat Epos) as [prev Hprevat].
      exists prev. split; [exact Hprevat |]. rewrite Hprevat in Hprev.
      destruct (startsWith prev "-" && negb (includes prev "="))%bool;
        [discriminate | reflexivity].
    + apply Z.ltb_ge in Epos. left. pose proof (findIndex_lower isHelpFlag args). lia.
  - intros [i [Hfirst Hprev]].
    pose proof Hfirst as [[tok [Hat _]] _].
    rewrite (firstIndex_findIndex _ _ _ Hfirst).
    assert (Hi : 0 <= i).
    { destruct (Z.lt_ge_cases i 0) as [Hneg |]; [| assumption].
      rewrite at_negative in Hat by exact Hneg. discriminate. }
    replace (i =? -1) with false by (symmetry; apply Z.eqb_neq; lia). cbn [negb andb].
    destruct Hprev as [-> | [prev [Hprevat Hbare]]]; [reflexivity |].
    destruct (0 <? i); [| reflexivity].
    rewrite Hprevat, Hbare. reflexivity.
Qed.

Lemma versionShortCircuit_first (args : list string) (i : Z) :
  firstIndex isVersionFlag args i ->
  (i = 0 \/ exists prev, at_ args (i - 1) = Some prev /\ startsWith prev "-" = false) ->
  versionShortCircuit args = true.
Proof.
  intros Hfirst Hprev. unfold versionShortCircuit. cbn zeta.
  pose proof Hfirst as [[tok [Hat _]] _].
  rewrite (firstIndex_findIndex _ _ _ Hfirst).
  assert (Hi : 0 <= i).
  { destruct (Z.lt_ge_cases i 0) as [Hneg |]; [| assumption].
    rewrite at_negative in Hat by exact Hneg. discriminate. }
  replace (i =? -1) with false by (symmetry; apply Z.eqb_neq; lia). cbn [negb andb].
  destruct Hprev as [-> | [prev [Hprevat Hflag]]]; [reflexivity |].
  destruct (0 <? i); [| reflexivity].
  rewrite Hprevat, Hflag. reflexivity.
Qed.

(** C4 (as amended).  The help guard of the pipeline holds exactly when the
    first [--help]/[-h] of the raw tokens is at index 0 or is not immediately
    preceded by a flag-prefixed token without [=]; the pipeline then resolves
    the command from the raw tokens and reports help for it, or global help
    when none is resolved, a resolution error being raised as it is.  When
    the help guard fails and the first [--version]/[-v] is at index 0 or
    follows a token that is not flag-prefixed, the pipeline reports the
    version without resolving a command.  In particular
    [["push"; "--help"]] reports help for the command that [push] names. *)
Theorem C4_help_version_short_circuit (commands : list Command)
    (args : list string) (omit : bool) :
  (helpShortCircuit args = true <-> helpQualifies args)
  /\ (helpQualifies args ->
        rawCliArgs commands args omit
        = match getCommand commands args with
          | Ok (Resolve command, _) => Ok (commandHelp command)
          | Ok _ => Ok globalHelp
          | Throw e => Throw e
          end)
  /\ (forall i,
        ~ helpQualifies args ->
        firstIndex isVersionFlag args i ->
        (i = 0 \/ exists prev, at_ args (i - 1) = Some prev /\ startsWith prev "-" = false) ->
        rawCliArgs commands args omit = Ok version)
  /\ (forall push,
        findCommand commands "push" = Some push ->
        rawCliArgs commands ["push"; "--help"] omit = Ok (commandHelp push)).
Proof.
  split; [apply helpShortCircuit_iff |]. split; [| split].
  - intros Hq. pose proof Hq as [i [[[tok [Hat _]] _] _]].
    apply helpShortCircuit_iff in Hq.
    unfold rawCliArgs. destruct args as [| a rest]; [rewrite at_nil in Hat; discriminate |].
    cbn [isEmpty]. rewrite Hq.
    destruct (getCommand commands (a :: rest)) as [[[| | command] args'] | e]; reflexivity.
  - intros i Hnq Hfirst Hprev.
    pose proof Hfirst as [[tok [Hat _]] _].
    unfold rawCliArgs. destruct args as [| a rest]; [rewrite at_nil in Hat; discriminate |].
    cbn [isEmpty].
    destruct (helpShortCircuit (a :: rest)) eqn:Eh.
    + apply helpShortCircuit_iff in Eh. contradiction.
    + now rewrite (versionShortCircuit_first _ _ Hfirst Hprev).
  - intros push Hpush. unfold rawCliArgs. cbn [isEmpty].
    change (helpShortCircuit ["push"; "--help"]) with true. cbn iota.
    unfold getCommand.
    change (scanCandidates 0 ["push"; "--help"]) with [mkCandidate "push" 0].
    cbn [data String.eqb Ascii.eqb Bool.eqb].
    rewrite getCommandInner_equation_2. cbn [data]. rewrite Hpush. reflexivity.
Qed.

(** ** Definition-time validation of command names *)

Lemma combine_In_snd {A B : Type} (l : list B) :
  forall (l' : list A) (x : B),
    length l' = length l -> In x l -> exists i, In (i, x) (combine l' l).
Proof.
  induction l as [| y t IH]; intros l' x Hlen Hin; [contradiction |].
  destruct l' as [| i0 t']; [discriminate |].
  destruct Hin as [-> | Hin].
  - exists i0. now left.
  - destruct (IH t' x) as [i Hi]; [simpl in Hlen; lia | exact Hin |].
    exists i. now right.
Qed.

Lemma indexed_In {A : Type} (l : list A) (x : A) :
  In x l -> exists i, In (i, x) (indexed l).
Proof.
  intros H. unfold indexed. apply combine_In_snd; [| exact H].
  now rewrite length_map, length_seq.
Qed.

(** A reserved name anywhere among the names still to check makes the
    [forEach] throw. *)
Lemma checkNames_reserved (cmdName : string) (allNames : list (option string))
    (todo : list (Z * option string)) (i : Z) (n : string) :
  In (i, Some n) todo ->
  n = "help" \/ isBooleanLiteral (toLowerCase n) = true ->
  exists e, checkNames cmdName allNames todo = Throw e.
Proof.
  intros Hin Hbad. induction todo as [| [i0 n0] rest IH]; [contradiction |].
  cbn [checkNames].
  destruct (optionStringEqb n0 (Some "help")) eqn:E1; [eauto |].
  destruct (match n0 with Some x => isBooleanLiteral (toLowerCase x) | None => false end)
    eqn:E2; [eauto |].
  destruct (negb (findIndex (optionStringEqb n0) allNames =? i0)); [eauto |].
  destruct Hin as [Heq | Hin]; [| exact (IH Hin)].
  injection Heq as -> ->. destruct Hbad as [-> | Hbool].
  - discriminate.
  - rewrite Hbool in E2. discriminate.
Qed.

(** C8 (as amended).  [command] rejects a declaration that gives no name at
    all, whose command name (the declared name, or the first alias when no
    name is declared) is empty, or one of whose names (name or alias) starts
    with the flag prefix, is exactly [help], or is, whatever its case, one
    of [0], [1], [true], [false]. *)
Theorem C8_command_name_rejected (c : RawCommand) :
  declaredNames c = []
  \/ hd_error (declaredNames c) = Some EmptyString
  \/ (exists n, In n (declaredNames c)
                /\ (startsWith n "-" = true \/ n = "help"
                    \/ isBooleanLiteral (toLowerCase n) = true)) ->
  exists e, command c = Throw e.
Proof.
  destruct c as [name aliases options subcommands tr h].
  unfold command, declaredNames.
  cbn [raw_name raw_aliases raw_options raw_subcommands raw_transform raw_handler].
  intros Hbad.
  match goal with |- exists e, (if ?b then _ else _) = _ => destruct b end; [eauto |].
  match goal with |- exists e, bind ?r _ = _ => destruct r as [po | e0] end;
    [| eexists; reflexivity].
  cbn [bind].
  assert (Tail : forall (n : string) (al : list string) (al' : option (list string))
                        (allNames : list (option string)),
             (forall x, In x al -> In (Some x) allNames) ->
             In (Some n) allNames ->
             (match al' with Some l => l | None => [] end) = al ->
             n = EmptyString
             \/ (exists x, In x (n :: al)
                           /\ (startsWith x "-" = true \/ x = "help"
                               \/ isBooleanLiteral (toLowerCase x) = true)) ->
             exists e,
               (if negb (truthy n) then Throw commandWithoutName
                else if startsWith n "-" then Throw (commandNameDash n)
                else if existsb (fun a => startsWith a "-")
                          (match al' with Some l => l | None => [] end)
                then Throw (commandAliasDash n)
                else _ <- checkNames n allNames (indexed allNames) ;;
                     Ok (mkCommand n al' po subcommands tr h)) = Throw e).
  { intros n al al' allNames Hal Hn Eal Hb. rewrite Eal.
    destruct (negb (truthy n)) eqn:Et; [eauto |].
    destruct (startsWith n "-") eqn:Ed; [eauto |].
    destruct (existsb (fun a => startsWith a "-") al) eqn:Ea; [eauto |].
    destruct Hb as [-> | [x [Hx Hbx]]]; [discriminate |].
    assert (Hres : x = "help" \/ isBooleanLiteral (toLowerCase x) = true).
    { destruct Hbx as [Hdash | Hres]; [| exact Hres]. exfalso.
      destruct Hx as [<- | Hx]; [congruence |].
      assert (existsb (fun a => startsWith a "-") al = true)
        by (apply existsb_exists; eauto).
      congruence. }
    assert (Hall : In (Some x) allNames).
    { destruct Hx as [<- | Hx]; [exact Hn | apply Hal; exact Hx]. }
    destruct (indexed_In _ _ Hall) as [i Hi].
    destruct (checkNames_reserved n allNames _ i x Hi Hres) as [e He].
    rewrite He. cbn [bind]. eauto. }
  destruct name as [n |].
  - destruct aliases as [al |].
    + replace (match al with a :: rest => Some (a :: rest) | [] => None end)
        with (match al with [] => None | _ => Some al end) by (destruct al; reflexivity).
      apply (Tail n al (match al with [] => None | _ => Some al end)).
      * intros x Hx. right. now apply in_map.
      * now left.
      * destruct al; reflexivity.
      * cbn [app hd_error] in Hbad.
        destruct Hbad as [Hnil | [Hempty | Hex]]; [discriminate | | right; exact Hex].
        left. congruence.
    + apply (Tail n [] None).
      * intros x [].
      * now left.
      * reflexivity.
      * cbn [app hd_error] in Hbad.
        destruct Hbad as [Hnil | [Hempty | Hex]]; [discriminate | | right; exact Hex].
        left. congruence.
  - destruct aliases as [[| a rest] |].
    + eexists. reflexivity.
    + replace (match rest with a0 :: rest0 => Some (a0 :: rest0) | [] => None end)
        with (match rest with [] => None | _ => Some rest end) by (destruct rest; reflexivity).
      apply (Tail a rest (match rest with [] => None | _ => Some rest end)).
      * intros x Hx. right. right. now apply in_map.
      * right. now left.
      * destruct rest; reflexivity.
      * cbn [app hd_error] in Hbad.
        destruct Hbad as [Hnil | [Hempty | Hex]]; [discriminate | | right; exact Hex].
        left. congruence.
    + eexists. reflexivity.
Qed.

(** ** What the parser does with a matched value *)

(** The enum check of a positional reads [dataPart], not the token. *)
Lemma parseArg_positional_enum (options : list OptEntry) (pos : OptEntry)
    (queue : list OptEntry) (arg : string) (nextArg : option string)
    (vals : list string) :
  startsWith arg "-" = false ->
  opt_enumVals (snd pos) = Some vals ->
  parseArg options (pos :: queue) arg nextArg
  = if notInEnum vals (dataPartOf arg nextArg)
    then Throw (enumViolationPos (opt_name (snd pos)) arg vals)
    else Ok (mkParsedArg (VString arg) (Some (fst pos)) (Some (snd pos))
               false false false, queue).
Proof.
  intros Hdash Henum. destruct (namePartOf_not_flag _ Hdash) as [Hh Hv].
  unfold parseArg. rewrite Hh, Hv, Hdash, Henum. reflexivity.
Qed.

(** A number option whose value passes every check keeps the text of the
    value. *)
Lemma matchOption_number_valid (opt : ProcessedBuilderConfig) (namePart d : string)
    (hasEq : bool) (nextArg : option string) :
  opt_type opt = TNumber ->
  findTruthy (opt_name opt :: opt_aliases opt) namePart = true ->
  (hasEq = true \/ nextArg <> None) ->
  isNaN (Number d) = false ->
  (opt_isInt opt = true -> isInt (Number d) = true) ->
  (forall m, opt_minVal opt = Some m -> num_lt (Number d) m = false) ->
  (forall m, opt_maxVal opt = Some m -> num_lt m (Number d) = false) ->
  matchOption opt namePart hasEq (Some d) nextArg = Ok (Some (VString d, negb hasEq)).
Proof.
  intros Ht Hn Hval Hnan Hint Hmin Hmax. unfold matchOption.
  rewrite Hn, Ht. cbn [negb].
  replace (negb hasEq && isNone nextArg)%bool with false.
  2:{ destruct Hval as [-> | Hnext]; [reflexivity |].
      destruct nextArg; [now rewrite andb_false_r | congruence]. }
  rewrite Hnan.
  replace (opt_isInt opt && negb (isInt (Number d)))%bool with false.
  2:{ destruct (opt_isInt opt); [| reflexivity]. now rewrite Hint. }
  destruct (opt_minVal opt) as [m |]; [rewrite (Hmin m eq_refl) |];
    (destruct (opt_maxVal opt) as [m' |]; [rewrite (Hmax m' eq_refl) |]); reflexivity.
Qed.

(** ** The help loop always has fuel left *)

Lemma removeByIndex_length {A : Type} (l : list A) (j : Z) (x : A) :
  at_ l j = Some x -> length l = S (length (removeByIndex l j)).
Proof.
  intros H. unfold at_ in H. destruct (j <? 0) eqn:E; [discriminate |].
  apply Z.ltb_ge in E.
  assert (Hlt : (Z.to_nat j < length l)%nat).
  { apply nth_error_Some. congruence. }
  rewrite removeByIndex_firstn_skipn by exact E.
  rewrite length_app, length_firstn, length_skipn. lia.
Qed.

Lemma getCommand_help_shrinks (commands : list Command) (args args' : list string) :
  getCommand commands args = Ok (HelpCommand, args') -> length args = S (length args').
Proof.
  pose proof (scanCandidates_invariant (length args) args [] (le_n _)) as [_ Hidx].
  cbn [length Z.of_nat app] in Hidx.
  unfold getCommand.
  destruct (scanCandidates 0 args) as [| c rest]; [discriminate |].
  destruct (String.eqb (data c) "help").
  - intros H. injection H as <-.
    inversion Hidx as [| ? ? Hc _]; subst. apply (removeByIndex_length _ _ _ Hc).
  - destruct (getCommandInner commands (c :: rest) args) as [[[cmd |] a] | e];
      cbn [bind]; discriminate.
Qed.

Lemma helpLoop_fuel (n : nat) :
  forall (commands : list Command) (args : list string) (extra : nat),
    (length args <= n)%nat ->
    helpLoop (length args + extra) commands args = helpLoop (length args) commands args.
Proof.
  induction n as [| n IH]; intros commands args extra Hlen.
  - destruct args; [| simpl in Hlen; lia].
    destruct extra; reflexivity.
  - destruct (getCommand commands args) as [[[| | cmd] args'] | e] eqn:Eg.
    + destruct (length args + extra)%nat, (length args); cbn [helpLoop]; now rewrite Eg.
    + pose proof (getCommand_help_shrinks _ _ _ Eg) as Hs. rewrite Hs.
      cbn [Nat.add helpLoop]. rewrite Eg. cbn [bind]. apply IH. lia.
    + destruct (length args + extra)%nat, (length args); cbn [helpLoop]; now rewrite Eg.
    + destruct (length args + extra)%nat, (length args); cbn [helpLoop]; now rewrite Eg.
Qed.

(** * Further properties of the code *)

(** ** Flag form of option names *)

Lemma startsWith_dash_app (s t : string) :
  startsWith s "-" = true -> startsWith (s ++ t) "-" = true.
Proof.
  destruct s as [| a s']; [discriminate |].
  cbn [String.append]. now rewrite !startsWith_dash_cons.
Qed.

Lemma includes_app (s t : string) (c : ascii) :
  includes (s ++ t) c = (includes s c || includes t c)%bool.
Proof.
  induction s as [| a s' IH]; [reflexivity |].
  cbn [String.append includes]. destruct (Ascii.eqb a c); [reflexivity | exact IH].
Qed.

Lemma generatePrefix_startsWith (name : string) :
  startsWith (generatePrefix name) "-" = true.
Proof.
  unfold generatePrefix. destruct (startsWith name "-") eqn:E; [exact E |].
  destruct (Nat.ltb 1 (String.length name)); cbn [String.append];
    now rewrite startsWith_dash_cons.
Qed.

Lemma generatePrefix_includes (name : string) :
  includes (generatePrefix name) "=" = includes name "=".
Proof.
  unfold generatePrefix. destruct (startsWith name "-"); [reflexivity |].
  destruct (Nat.ltb 1 (String.length name)); rewrite includes_app; reflexivity.
Qed.


(** ** Splitting a token at [=] *)

Lemma split_not_nil (s : string) (c : ascii) : split s c <> [].
Proof.
  destruct s as [| a s']; cbn [split]; [discriminate |].
  destruct (Ascii.eqb a c); [discriminate |]. destruct (split s' c); discriminate.
Qed.

Lemma join_cons (a : ascii) (h : string) (t : list string) (sep : string) :
  join (String a h :: t) sep = String a (join (h :: t) sep).
Proof. unfold join. destruct t; reflexivity. Qed.

(** Joining what [split] produced gives the string back. *)
Lemma join_split (s : string) (c : ascii) : join (split s c) (String c EmptyString) = s.
Proof.
  induction s as [| a s' IH]; [reflexivity |].
  cbn [split]. destruct (Ascii.eqb a c) eqn:E.
  - apply Ascii.eqb_eq in E. subst a.
    destruct (split s' c) as [| h t] eqn:Es; [now apply split_not_nil in Es |].
    change (join (EmptyString :: h :: t) (String c EmptyString))
      with (String c (join (h :: t) (String c EmptyString))).
    now rewrite IH.
  - destruct (split s' c) as [| h t] eqn:Es; [now apply split_not_nil in Es |].
    rewrite join_cons. now rewrite IH.
Qed.

Lemma split_no_separator (s : string) (c : ascii) :
  includes s c = false -> split s c = [s].
Proof.
  induction s as [| a s' IH]; [reflexivity |].
  cbn [includes split]. destruct (Ascii.eqb a c); [discriminate |].
  intros H. now rewrite (IH H).
Qed.

Lemma split_at_first (name v : string) (c : ascii) :
  includes name c = false ->
  split (name ++ String c v) c = name :: split v c.
Proof.
  induction name as [| a n' IH]; cbn [includes String.append split].
  - intros _. now rewrite Ascii.eqb_refl.
  - destruct (Ascii.eqb a c); [discriminate |]. intros H. now rewrite (IH H).
Qed.

Lemma token_with_value (name v : string) (nextArg : option string) :
  includes name "=" = false ->
  namePartOf (name ++ "=" ++ v) = name
  /\ includes (name ++ "=" ++ v) "=" = true
  /\ dataPartOf (name ++ "=" ++ v) nextArg = Some v.
Proof.
  intros Hno. cbn [String.append].
  assert (Hinc : includes (name ++ String "=" v) "=" = true).
  { rewrite includes_app. cbn [includes]. cbn. now rewrite orb_true_r. }
  unfold namePartOf, dataPartOf. rewrite Hinc, split_at_first by exact Hno.
  cbn [hd tl]. repeat split. f_equal. apply join_split.
Qed.

Lemma token_without_value (name : string) (nextArg : option string) :
  includes name "=" = false ->
  namePartOf name = name /\ dataPartOf name nextArg = nextArg.
Proof.
  intros Hno. split.
  - unfold namePartOf. now rewrite split_no_separator.
  - unfold dataPartOf. now rewrite Hno.
Qed.

(** X2.  A token [name=value], with no [=] in [name], is read by [parseArg]
    as the name part [name] and the data part [value], whatever further [=]
    the value contains; a token without [=] is its own name part and takes
    the next token as its data part. *)
Theorem X2_token_name_and_data (name : string) (nextArg : option string) :
  includes name "=" = false ->
  (forall v,
      namePartOf (name ++ "=" ++ v) = name
      /\ includes (name ++ "=" ++ v) "=" = true
      /\ dataPartOf (name ++ "=" ++ v) nextArg = Some v)
  /\ namePartOf name = name
  /\ dataPartOf name nextArg = nextArg.
Proof.
  intros Hno. split.
  - intros v. now apply token_with_value.
  - now apply token_without_value.
Qed.

(** ** Removing one element *)

Lemma at_removeByIndex_below {A : Type} (l : list A) :
  forall j i, 0 <= i < j -> at_ (removeByIndex l j) i = at_ l i.
Proof.
  induction l as [| x t IH]; intros j i H.
  - rewrite removeByIndex_nil by lia. reflexivity.
  - rewrite removeByIndex_tail by lia.
    destruct (Z.eq_dec i 0) as [-> | Hne]; [reflexivity |].
    rewrite !at_cons_pos by lia. apply IH. lia.
Qed.

(** X7.  [removeByIndex] at an index [j >= 0] keeps the elements before [j]
    at their index, moves those after [j] down by one and, when [j] is
    within the array, makes it one shorter; an index at or beyond the end
    leaves the array as it is. *)
Theorem X7_removeByIndex_removes_one {A : Type} (l : list A) (j : Z) :
  0 <= j ->
  (forall i, 0 <= i < j -> at_ (removeByIndex l j) i = at_ l i)
  /\ (forall i, j <= i -> at_ (removeByIndex l j) i = at_ l (i + 1))
  /\ (j < Z.of_nat (length l) -> length l = S (length (removeByIndex l j)))
  /\ (Z.of_nat (length l) <= j -> removeByIndex l j = l).
Proof.
  intros Hj. split; [| split; [| split]].
  - intros i Hi. now apply at_removeByIndex_below.
  - intros i Hi. replace i with (i + 1 - 1) at 1 by lia.
    apply at_removeByIndex_above. lia.
  - intros Hin.
    destruct (nth_error l (Z.to_nat j)) as [x |] eqn:E.
    + apply (removeByIndex_length l j x). unfold at_.
      now replace (j <? 0) with false by (symmetry; apply Z.ltb_ge; lia).
    + apply nth_error_None in E. lia.
  - intros Hout. rewrite removeByIndex_firstn_skipn by exact Hj.
    rewrite firstn_all2 by lia. rewrite skipn_all2 by lia. apply app_nil_r.
Qed.

(** ** What [validateOptions] guarantees *)

Lemma findTruthy_false_flag (l : list string) (x : string) :
  startsWith x "-" = true -> findTruthy l x = false -> ~ In x l.
Proof.
  intros Hx Hf Hin.
  assert (findTruthy l x = true); [| congruence].
  apply findTruthy_true. split; [exact Hin |]. intros ->. discriminate.
Qed.

Lemma prefixEntry_ok (e : string * BuilderConfig) (e' : OptEntry) :
  prefixEntry e = Ok e' ->
  fst e' = fst e
  /\ opt_type (snd e') = cfg_type (snd e)
  /\ opt_default (snd e') = cfg_default (snd e)
  /\ opt_isRequired (snd e') = cfg_isRequired (snd e)
  /\ (isNamedOption e' = true -> flagNamed e').
Proof.
  destruct e as [key cfg]. unfold prefixEntry.
  set (name := match cfg_name cfg with Some n => n | None => key end).
  destruct (isPositional (cfg_type cfg)) eqn:Ep.
  - intros H. injection H as <-. unfold isNamedOption. cbn. rewrite Ep.
    repeat split; discriminate.
  - destruct (includes name "=") eqn:En; [discriminate |].
    destruct (existsb (fun a => includes a "=") (cfg_aliases cfg)) eqn:Ea; [discriminate |].
    intros H. injection H as <-.
    unfold flagNamed, optNames, isNamedOption, processed.
    cbn [fst snd opt_type opt_default opt_isRequired opt_name opt_aliases].
    split; [reflexivity |].
    split; [reflexivity |]. split; [reflexivity |]. split; [reflexivity |].
    intros _ n [<- | Hal].
    + split; [apply generatePrefix_startsWith |].
      now rewrite generatePrefix_includes.
    + apply in_map_iff in Hal. destruct Hal as [a [<- Ha]].
      split; [apply generatePrefix_startsWith |].
      rewrite generatePrefix_includes.
      destruct (includes a "=") eqn:Eia; [| reflexivity].
      assert (existsb (fun a => includes a "=") (cfg_aliases cfg) = true)
        by (apply existsb_exists; eauto).
      congruence.
Qed.

Lemma prefixEntries_ok (config : list (string * BuilderConfig)) :
  forall es, prefixEntries config = Ok es ->
    map fst es = map fst config
    /\ Forall (fun e => isNamedOption e = true -> flagNamed e) es
    /\ Forall2 (fun e e' => opt_type (snd e') = cfg_type (snd e)
                            /\ opt_default (snd e') = cfg_default (snd e)
                            /\ opt_isRequired (snd e') = cfg_isRequired (snd e))
         config es.
Proof.
  induction config as [| e rest IH]; intros es H.
  - injection H as <-. repeat constructor.
  - cbn [prefixEntries] in H.
    destruct (prefixEntry e) as [e' |] eqn:Ee; [| discriminate]. cbn [bind] in H.
    destruct (prefixEntries rest) as [rest' |]; [| discriminate]. cbn [bind] in H.
    injection H as <-.
    destruct (prefixEntry_ok _ _ Ee) as [Hk [Ht [Hd [Hr Hf]]]].
    destruct (IH rest' eq_refl) as [IHk [IHf IH2]].
    split; [cbn [map]; congruence |]. split; constructor; auto.
Qed.

Lemma combine_seq_nth {A : Type} (l : list A) :
  forall (s i : nat) (x : A),
    nth_error l i = Some x ->
    In (Z.of_nat (s + i), x) (combine (map Z.of_nat (seq s (length l))) l).
Proof.
  induction l as [| y t IH]; intros s i x H; [destruct i; discriminate |].
  cbn [length seq map combine]. destruct i as [| i'].
  - injection H as ->. left. now rewrite Nat.add_0_r.
  - right. replace (s + S i')%nat with (S s + i')%nat by lia. now apply IH.
Qed.

Lemma indexed_nth {A : Type} (l : list A) (i : nat) (x : A) :
  nth_error l i = Some x -> In (Z.of_nat i, x) (indexed l).
Proof. intros H. apply (combine_seq_nth l 0 i x H). Qed.

(** When no element is misplaced, no element occurs twice. *)
Lemma misplaced_none_NoDup {A : Type} (eqb : A -> A -> bool) (l : list A) :
  misplaced eqb l = None -> NoDup l.
Proof.
  unfold misplaced. intros H.
  destruct (find _ (indexed l)) eqn:E; [discriminate |].
  apply NoDup_nth_error. intros i j Hi Hij.
  destruct (nth_error l i) as [x |] eqn:Ex; [| apply nth_error_None in Ex; lia].
  symmetry in Hij.
  pose proof (find_none _ _ E _ (indexed_nth _ _ _ Ex)) as F1.
  pose proof (find_none _ _ E _ (indexed_nth _ _ _ Hij)) as F2.
  cbn [fst snd] in F1, F2.
  apply negb_false_iff, Z.eqb_eq in F1. apply negb_false_iff, Z.eqb_eq in F2. lia.
Qed.

Lemma occupier_none (storageVals : list (list string)) (x : string) :
  startsWith x "-" = true ->
  occupier storageVals x = None ->
  forall st, In st storageVals -> ~ In x st.
Proof.
  intros Hx H st Hst. unfold occupier in H.
  apply (findTruthy_false_flag st x Hx). exact (find_none _ _ H _ Hst).
Qed.

Lemma aliasOccupier_none (storageVals : list (list string)) (aliases : list string) :
  aliasOccupier storageVals aliases = None ->
  forall a, In a aliases -> occupier storageVals a = None.
Proof.
  induction aliases as [| a0 rest IH]; intros H a Ha; [contradiction |].
  cbn [aliasOccupier] in H.
  destruct (occupier storageVals a0) eqn:E; [discriminate |].
  destruct Ha as [<- | Ha]; [exact E | now apply IH].
Qed.

Lemma setKey_fresh {V : Type} (o : list (string * V)) (k : string) (v : V) :
  (forall kv, In kv o -> fst kv <> k) -> setKey o k v = (o ++ [(k, v)])%list.
Proof.
  induction o as [| [k' v'] t IH]; intros H; [reflexivity |].
  cbn [setKey].
  destruct (String.eqb k' k) eqn:E.
  - apply String.eqb_eq in E. exfalso. apply (H (k', v')); [now left | exact E].
  - cbn [app]. f_equal. apply IH. intros kv Hkv. apply H. now right.
Qed.

Lemma checkEntries_same (es : list OptEntry) :
  forall stored es', checkEntries stored es = Ok es' -> es' = es.
Proof.
  induction es as [| [key cfg] rest IH]; intros stored es' H.
  - now injection H as <-.
  - cbn [checkEntries] in H.
    destruct (isPositional (opt_type cfg)).
    + destruct (checkEntries stored rest) as [r |] eqn:Er; [| discriminate].
      cbn [bind] in H. injection H as <-. now rewrite (IH _ _ Er).
    + destruct (find _ _); [discriminate |].
      destruct (occupier _ _); [discriminate |].
      destruct (aliasOccupier _ _) as [[? ?] |]; [discriminate |].
      destruct (misplaced _ _); [discriminate |].
      destruct (checkEntries _ rest) as [r |] eqn:Er; [| discriminate].
      cbn [bind] in H. injection H as <-. now rewrite (IH _ _ Er).
Qed.

Lemma flag_not_proto (n : string) : startsWith n "-" = true -> n <> "__proto__".
Proof. intros H ->. discriminate. Qed.

(** The registry invariant of the second loop: the names checked so far are
    pairwise distinct, not reserved, and in no storage met before. *)
Lemma checkEntries_distinct (es : list OptEntry) :
  forall stored es',
    Forall (fun e => isNamedOption e = true -> flagNamed e) es ->
    Forall (fun kv : string * list string => In (fst kv) (snd kv)) stored ->
    checkEntries stored es = Ok es' ->
    NoDup (flat_map optNames (filter isNamedOption es))
    /\ forall n, In n (flat_map optNames (filter isNamedOption es)) ->
                 ~ In n reservedNames
                 /\ forall st, In st (map snd stored) -> ~ In n st.
Proof.
  induction es as [| [key cfg] rest IH]; intros stored es' Hflag Hstored H.
  - split; [constructor | intros n []].
  - inversion Hflag as [| ? ? Hhead Hrest]; subst.
    cbn [checkEntries] in H. cbn [filter].
    change (isNamedOption (key, cfg)) with (negb (isPositional (opt_type cfg))).
    destruct (isPositional (opt_type cfg)) eqn:Ep; cbn [negb].
    + destruct (checkEntries stored rest) as [r |] eqn:Er; [| discriminate].
      exact (IH _ _ Hrest Hstored Er).
    + assert (Hnames : flagNamed (key, cfg)).
      { apply Hhead. unfold isNamedOption. cbn [snd]. now rewrite Ep. }
      destruct (find (findTruthy reservedNames) (opt_name cfg :: opt_aliases cfg))
        eqn:Eres; [discriminate |].
      destruct (occupier (objectValues stored) (opt_name cfg)) eqn:Eocc; [discriminate |].
      destruct (aliasOccupier (objectValues stored) (opt_aliases cfg)) as [[? ?] |] eqn:Eal;
        [discriminate |].
      destruct (misplaced String.eqb (opt_name cfg :: opt_aliases cfg)) eqn:Emis;
        [discriminate |].
      destruct (checkEntries _ rest) as [r |] eqn:Er; [| discriminate].
      assert (Hown : forall n, In n (optNames (key, cfg)) ->
                ~ In n reservedNames /\ forall st, In st (map snd stored) -> ~ In n st).
      { intros n Hn. destruct (Hnames n Hn) as [Hdash _]. split.
        - apply (findTruthy_false_flag _ _ Hdash). exact (find_none _ _ Eres _ Hn).
        - intros st Hst. apply objectValues_In in Hst. revert st Hst.
          apply (occupier_none _ _ Hdash).
          destruct Hn as [<- | Hn]; [exact Eocc |].
          exact (aliasOccupier_none _ _ Eal _ Hn). }
      assert (Hfresh : assign stored (opt_name cfg) (opt_name cfg :: opt_aliases cfg)
                       = (stored ++ [(opt_name cfg, opt_name cfg :: opt_aliases cfg)])%list).
      { rewrite assign_setKey
          by (apply flag_not_proto; apply (Hnames (opt_name cfg)); now left).
        apply setKey_fresh. intros kv Hkv Heq.
        rewrite Forall_forall in Hstored. specialize (Hstored kv Hkv).
        destruct (Hown (opt_name cfg) (or_introl eq_refl)) as [_ Hno].
        apply (Hno (snd kv)); [now apply in_map | now rewrite <- Heq]. }
      rewrite Hfresh in Er.
      assert (Hstored' : Forall (fun kv : string * list string => In (fst kv) (snd kv))
                           (stored ++ [(opt_name cfg, opt_name cfg :: opt_aliases cfg)])).
      { apply Forall_app. split; [exact Hstored |]. constructor; [now left | constructor]. }
      destruct (IH _ _ Hrest Hstored' Er) as [IHnd IHout].
      cbn [flat_map]. split.
      * apply NoDup_app.
        -- exact (misplaced_none_NoDup _ _ Emis).
        -- exact IHnd.
        -- intros n Hn Hn'. destruct (IHout n Hn') as [_ Hno].
           apply (Hno (opt_name cfg :: opt_aliases cfg)); [| exact Hn].
           rewrite map_app. apply in_or_app. right. now left.
      * intros n Hn. apply in_app_or in Hn. destruct Hn as [Hn | Hn]; [now apply Hown |].
        destruct (IHout n Hn) as [Hres Hno]. split; [exact Hres |].
        intros st Hst. apply Hno. rewrite map_app. apply in_or_app. now left.
Qed.

Lemma cloneRecord_In {V : Type} (config : list (string * V)) (e : string * V) :
  In e (cloneRecord config) <-> In e config /\ ~ In (fst e) objectPrototypeNames.
Proof.
  unfold cloneRecord. rewrite filter_In, objectEntries_In.
  split; intros [H1 H2]; (split; [exact H1 |]).
  - intros Hin. apply negb_true_iff in H2.
    assert (existsb (String.eqb (fst e)) objectPrototypeNames = true); [| congruence].
    apply existsb_exists. exists (fst e). split; [exact Hin | apply String.eqb_refl].
  - apply negb_true_iff. destruct (existsb _ _) eqn:E; [| reflexivity].
    apply existsb_exists in E. destruct E as [x [Hx Ex]].
    apply String.eqb_eq in Ex. subst x. contradiction.
Qed.

(** X3.  When [validateOptions] accepts a configuration it returns one
    entry for each declared key that [clone] keeps (a key that names a
    member of [Object.prototype] is lost), in the order in which
    [Object.entries] enumerates those keys, each of the declared kind;
    every name and alias of an option that is not positional is in flag
    form, contains no [=] and is none of the reserved flags. *)
Theorem X3_validateOptions_names (config : list (string * BuilderConfig))
    (es : list OptEntry) :
  validateOptions config = Ok es ->
  map fst es = map fst (objectEntries (cloneRecord config))
  /\ map (fun e => opt_type (snd e)) es
     = map (fun e => cfg_type (snd e)) (objectEntries (cloneRecord config))
  /\ (forall k, In k (map fst es) ->
        In k (map fst config) /\ ~ In k objectPrototypeNames)
  /\ forall e n, In e es -> isNamedOption e = true -> In n (optNames e) ->
       startsWith n "-" = true /\ includes n "=" = false /\ ~ In n reservedNames.
Proof.
  unfold validateOptions. cbn zeta. intros H.
  destruct (prefixEntries (objectEntries (cloneRecord config))) as [es1 |] eqn:E1;
    [| discriminate].
  cbn [bind] in H.
  pose proof (checkEntries_same _ _ _ H). subst es.
  destruct (prefixEntries_ok _ _ E1) as [Hk [Hf H2]].
  split; [exact Hk |]. split; [| split].
  - clear -H2. induction H2 as [| ? ? ? ? [Ht _] _ IH]; [reflexivity |].
    cbn [map]. now rewrite Ht, IH.
  - intros k Hkin. rewrite Hk in Hkin. apply in_map_iff in Hkin.
    destruct Hkin as [e [<- He]]. apply objectEntries_In, cloneRecord_In in He.
    destruct He as [He Hsafe]. split; [now apply in_map | exact Hsafe].
  - intros e n He Hnamed Hn.
    destruct (checkEntries_distinct _ _ _ Hf (Forall_nil _) H) as [_ Hout].
    rewrite Forall_forall in Hf. destruct (Hf e He Hnamed n Hn) as [Hd Hi].
    split; [exact Hd |]. split; [exact Hi |].
    destruct (Hout n) as [Hres _]; [| exact Hres].
    apply in_flat_map. exists e. split; [| exact Hn].
    apply filter_In. split; assumption.
Qed.

(** X4.  When [validateOptions] accepts a configuration, the names and
    aliases of its options that are not positional are all different: no
    two options share one, and no option lists one twice. *)
Theorem X4_validateOptions_names_distinct (config : list (string * BuilderConfig))
    (es : list OptEntry) :
  validateOptions config = Ok es ->
  NoDup (flat_map optNames (filter isNamedOption es)).
Proof.
  unfold validateOptions. cbn zeta. intros H.
  destruct (prefixEntries (objectEntries (cloneRecord config))) as [es1 |] eqn:E1;
    [| discriminate].
  cbn [bind] in H.
  pose proof (checkEntries_same _ _ _ H). subst es.
  destruct (prefixEntries_ok _ _ E1) as [_ [Hf _]].
  exact (proj1 (checkEntries_distinct _ _ _ Hf (Forall_nil _) H)).
Qed.

(** ** What [command] guarantees *)

Lemma first_occurrences_NoDup {A : Type} (eqb : A -> A -> bool) (l : list A) :
  (forall ix, In ix (indexed l) -> findIndex (eqb (snd ix)) l = fst ix) -> NoDup l.
Proof.
  intros H. apply NoDup_nth_error. intros i j Hi Hij.
  destruct (nth_error l i) as [x |] eqn:Ex; [| apply nth_error_None in Ex; lia].
  symmetry in Hij.
  pose proof (H _ (indexed_nth _ _ _ Ex)) as F1.
  pose proof (H _ (indexed_nth _ _ _ Hij)) as F2.
  cbn [fst snd] in F1, F2. lia.
Qed.

Lemma checkNames_ok (cmdName : string) (allNames : list (option string))
    (todo : list (Z * option string)) :
  checkNames cmdName allNames todo = Ok tt ->
  forall ix, In ix todo ->
    snd ix <> Some "help"
    /\ (forall x, snd ix = Some x -> isBooleanLiteral (toLowerCase x) = false)
    /\ findIndex (optionStringEqb (snd ix)) allNames = fst ix.
Proof.
  induction todo as [| [i n] rest IH]; intros H ix Hin; [contradiction |].
  cbn [checkNames] in H.
  destruct (optionStringEqb n (Some "help")) eqn:E1; [discriminate |].
  destruct (match n with Some x => isBooleanLiteral (toLowerCase x) | None => false end)
    eqn:E2; [discriminate |].
  destruct (negb (findIndex (optionStringEqb n) allNames =? i)) eqn:E3; [discriminate |].
  destruct Hin as [<- | Hin]; [| now apply IH].
  cbn [fst snd]. split; [| split].
  - intros ->. cbn in E1. discriminate.
  - intros x ->. exact E2.
  - now apply negb_false_iff, Z.eqb_eq in E3.
Qed.

(** X5.  A declaration that [command] accepts yields a command that keeps
    every declared name in order (the first alias stands in for a missing
    name), without any duplicate; its name is not empty, none of its names
    starts with the flag prefix, is [help], or is a boolean literal in any
    case, and its alias list is never present and empty. *)
Theorem X5_command_accepts (c : RawCommand) (cmd : Command) :
  command c = Ok cmd ->
  namesOf cmd = declaredNames c
  /\ NoDup (namesOf cmd)
  /\ cmd_name cmd <> EmptyString
  /\ cmd_aliases cmd <> Some []
  /\ cmd_subcommands cmd = raw_subcommands c
  /\ forall n, In n (namesOf cmd) ->
       startsWith n "-" = false /\ n <> "help"
       /\ isBooleanLiteral (toLowerCase n) = false.
Proof.
  destruct c as [name aliases options subcommands tr h].
  unfold command, declaredNames.
  cbn [raw_name raw_aliases raw_options raw_subcommands raw_transform raw_handler].
  match goal with |- (if ?b then _ else _) = _ -> _ => destruct b end; [discriminate |].
  match goal with |- bind ?r _ = _ -> _ => destruct r as [po | e0] end; [| discriminate].
  cbn [bind].
  assert (Tail : forall (n : string) (al : list string) (al' : option (list string))
                        (allNames : list (option string)),
             (forall x, In x al -> In (Some x) allNames) ->
             In (Some n) allNames ->
             (match al' with Some l => l | None => [] end) = al ->
             al' <> Some [] ->
             (NoDup allNames -> NoDup (n :: al)) ->
             (if negb (truthy n) then Throw commandWithoutName
              else if startsWith n "-" then Throw (commandNameDash n)
              else if existsb (fun a => startsWith a "-")
                        (match al' with Some l => l | None => [] end)
              then Throw (commandAliasDash n)
              else _ <- checkNames n allNames (indexed allNames) ;;
                   Ok (mkCommand n al' po subcommands tr h)) = Ok cmd ->
             namesOf cmd = n :: al
             /\ NoDup (namesOf cmd)
             /\ cmd_name cmd <> EmptyString
             /\ cmd_aliases cmd <> Some []
             /\ cmd_subcommands cmd = subcommands
             /\ forall x, In x (namesOf cmd) ->
                  startsWith x "-" = false /\ x <> "help"
                  /\ isBooleanLiteral (toLowerCase x) = false).
  { intros n al al' allNames Hal Hn Eal Hne Hnd. rewrite Eal.
    destruct (negb (truthy n)) eqn:Et; [discriminate |].
    destruct (startsWith n "-") eqn:Ed; [discriminate |].
    destruct (existsb (fun a => startsWith a "-") al) eqn:Ea; [discriminate |].
    destruct (checkNames n allNames (indexed allNames)) as [[] |] eqn:Ec; [| discriminate].
    cbn [bind]. intros H. injection H as <-.
    pose proof (checkNames_ok _ _ _ Ec) as Hok.
    assert (Hnames : namesOf (mkCommand n al' po subcommands tr h) = n :: al).
    { unfold namesOf. cbn [cmd_aliases cmd_name]. destruct al' as [l |]; now subst al. }
    rewrite Hnames. cbn [cmd_name cmd_aliases cmd_subcommands].
    split; [reflexivity |]. split.
    { apply Hnd. apply (first_occurrences_NoDup optionStringEqb).
      intros ix Hix. apply (Hok ix Hix). }
    split.
    { intros ->. discriminate. }
    split; [exact Hne |]. split; [reflexivity |].
    intros x Hx.
    assert (Hall : In (Some x) allNames).
    { destruct Hx as [<- | Hx]; [exact Hn | now apply Hal]. }
    destruct (indexed_In _ _ Hall) as [i Hi].
    destruct (Hok _ Hi) as [Hhelp [Hbool _]]. cbn [snd] in Hhelp, Hbool.
    split; [| split].
    - destruct Hx as [<- | Hx]; [exact Ed |].
      destruct (startsWith x "-") eqn:Ex; [| reflexivity].
      assert (existsb (fun a => startsWith a "-") al = true)
        by (apply existsb_exists; eauto).
      congruence.
    - congruence.
    - now apply Hbool. }
  destruct name as [n |].
  - destruct aliases as [al |].
    + replace (match al with a :: rest => Some (a :: rest) | [] => None end)
        with (match al with [] => None | _ => Some al end) by (destruct al; reflexivity).
      apply (Tail n al (match al with [] => None | _ => Some al end)).
      * intros x Hx. right. now apply in_map.
      * now left.
      * destruct al; reflexivity.
      * destruct al; discriminate.
      * intros Hnd. change (Some n :: map Some al) with (map Some (n :: al)) in Hnd.
        apply (NoDup_map_inv _ _ Hnd).
    + apply (Tail n [] None).
      * intros x [].
      * now left.
      * reflexivity.
      * discriminate.
      * intros _. repeat constructor. intros [].
  - destruct aliases as [[| a rest] |]; [discriminate | | discriminate].
    replace (match rest with a0 :: rest0 => Some (a0 :: rest0) | [] => None end)
      with (match rest with [] => None | _ => Some rest end) by (destruct rest; reflexivity).
    apply (Tail a rest (match rest with [] => None | _ => Some rest end)).
    + intros x Hx. right. right. now apply in_map.
    + right. now left.
    + destruct rest; reflexivity.
    + destruct rest; discriminate.
    + intros Hnd. inversion Hnd as [| ? ? _ Hnd']; subst.
      change (Some a :: map Some rest) with (map Some (a :: rest)) in Hnd'.
      apply (NoDup_map_inv _ _ Hnd').
Qed.

(** ** The order in which missing options are listed *)

Lemma validateOptions_keys (config : list (string * BuilderConfig)) (es : list OptEntry) :
  validateOptions config = Ok es ->
  map fst es = map fst (objectEntries (cloneRecord config)).
Proof.
  unfold validateOptions. cbn zeta. intros H.
  destruct (prefixEntries (objectEntries (cloneRecord config))) as [es1 |] eqn:E1;
    [| discriminate].
  cbn [bind] in H.
  pose proof (checkEntries_same _ _ _ H). subst es.
  exact (proj1 (prefixEntries_ok _ _ E1)).
Qed.

(** The options of an accepted command are the declared ones, validated. *)
Lemma command_options (c : RawCommand) (cmd : Command)
    (config : list (string * BuilderConfig)) :
  command c = Ok cmd ->
  raw_options c = Some config ->
  exists es, validateOptions config = Ok es /\ cmd_options cmd = Some es.
Proof.
  destruct c as [name aliases options subcommands tr h].
  unfold command.
  cbn [raw_name raw_aliases raw_options raw_subcommands raw_transform raw_handler].
  intros H ->.
  match type of H with (if ?b then _ else _) = _ => destruct b end; [discriminate |].
  destruct (validateOptions config) as [es | e0]; [| discriminate].
  cbn [bind] in H. exists es. split; [reflexivity |].
  assert (Tail : forall (n : string) (al' : option (list string))
                        (allNames : list (option string)),
             (if negb (truthy n) then Throw commandWithoutName
              else if startsWith n "-" then Throw (commandNameDash n)
              else if existsb (fun a => startsWith a "-")
                        (match al' with Some l => l | None => [] end)
              then Throw (commandAliasDash n)
              else _ <- checkNames n allNames (indexed allNames) ;;
                   Ok (mkCommand n al' (Some es) subcommands tr h)) = Ok cmd ->
             cmd_options cmd = Some es).
  { intros n al' allNames.
    destruct (negb (truthy n)); [discriminate |].
    destruct (startsWith n "-"); [discriminate |].
    destruct (existsb _ _); [discriminate |].
    destruct (checkNames n allNames (indexed allNames)) as [[] |]; [| discriminate].
    cbn [bind]. intros E. injection E as <-. reflexivity. }
  destruct name as [n |].
  - destruct aliases as [al |].
    + exact (Tail n (match al with a :: rest => Some (a :: rest) | [] => None end) _ H).
    + exact (Tail n None _ H).
  - destruct aliases as [[| a rest] |]; [discriminate | | discriminate].
    exact (Tail a (match rest with a0 :: rest0 => Some (a0 :: rest0) | [] => None end) _ H).
Qed.

Lemma plain_keys_same {V W : Type} (l : list (string * V)) (l' : list (string * W)) :
  map fst l' = map fst l ->
  Forall (fun e => arrayIndex (fst e) = None) l ->
  Forall (fun e => arrayIndex (fst e) = None) l'.
Proof.
  revert l'. induction l as [| e t IH]; intros [| e' t'] E H; try discriminate;
    [constructor |].
  cbn [map] in E. injection E as E1 E2. inversion H as [| ? ? He Ht]; subst.
  constructor; [cbn beta; now rewrite E1 | now apply IH].
Qed.

Lemma cloneRecord_plain {V : Type} (config : list (string * V)) :
  Forall (fun e => arrayIndex (fst e) = None /\ ~ In (fst e) objectPrototypeNames) config ->
  cloneRecord config = config.
Proof.
  intros H. unfold cloneRecord. rewrite objectEntries_plain.
  - induction H as [| e t [_ He] _ IH]; [reflexivity |].
    cbn [filter]. rewrite IH.
    replace (existsb (String.eqb (fst e)) objectPrototypeNames) with false; [reflexivity |].
    symmetry. destruct (existsb _ _) eqn:E; [| reflexivity].
    apply existsb_exists in E. destruct E as [x [Hx Ex]].
    apply String.eqb_eq in Ex. subst x. contradiction.
  - eapply Forall_impl; [| exact H]. cbn beta. tauto.
Qed.

(** C5 (as amended).  When the token scan completes and every required
    option is still undefined after defaulting, [parseOptions] raises one
    aggregate missing-required error, whatever was collected in the
    unrecognized list; it lists exactly the required options, in the order
    in which [Object.entries] enumerates the options of the command.  For a
    command that [command] accepted, that is the order of declaration when
    no declared key is integer-like or names a member of
    [Object.prototype]. *)
Theorem C5_missing_required_aggregate (cmd : Command) (args : list string)
    (omit : bool) (result : Record_) (unrec : list string) :
  NoDup (map fst (optEntriesOf cmd)) ->
  scanArgs (filter (fun e => negb (isPositional (opt_type (snd e)))) (optEntriesOf cmd))
           (filter (fun e => isPositional (opt_type (snd e))) (optEntriesOf cmd))
           args [] [] = Ok (Scanned result unrec) ->
  (forall e, In e (optEntriesOf cmd) -> opt_isRequired (snd e) = true ->
             coalesce (readKey result (fst e)) (opt_default (snd e)) = VUndefined) ->
  (exists e, In e (optEntriesOf cmd) /\ opt_isRequired (snd e) = true) ->
  parseOptions cmd args omit
    = Throw (missingRequired (cmd_name cmd)
               (map optNames (filter (fun e => opt_isRequired (snd e)) (optEntriesOf cmd))))
  /\ length (map optNames (filter (fun e => opt_isRequired (snd e)) (optEntriesOf cmd)))
     = length (filter (fun e => opt_isRequired (snd e)) (optEntriesOf cmd))
  /\ (forall (c : RawCommand) (config : list (string * BuilderConfig)),
        command c = Ok cmd ->
        raw_options c = Some config ->
        Forall (fun e => arrayIndex (fst e) = None /\ ~ In (fst e) objectPrototypeNames)
          config ->
        map fst (optEntriesOf cmd) = map fst config).
Proof.
  intros Hnd Hscan Hundef [e0 [Hin0 Hreq0]].
  split; [| split; [apply length_map |]].
  - rewrite (parseOptions_phases cmd args omit result unrec Hscan). cbn zeta.
    rewrite applyDefaults_missing by exact Hnd. cbn [app].
    assert (Hf : filter (isMissing result) (optEntriesOf cmd)
                 = filter (fun e => opt_isRequired (snd e)) (optEntriesOf cmd)).
    { apply filter_ext_in. intros e He. unfold isMissing.
      destruct (opt_isRequired (snd e)) eqn:Er; [| reflexivity].
      now rewrite (Hundef e He Er). }
    rewrite Hf.
    assert (Hne : In e0 (filter (fun e => opt_isRequired (snd e)) (optEntriesOf cmd))).
    { apply filter_In. split; assumption. }
    destruct (filter (fun e => opt_isRequired (snd e)) (optEntriesOf cmd)) as [| r rs];
      [contradiction | reflexivity].
  - intros c config Hc Hraw Hplain.
    destruct (command_options c cmd config Hc Hraw) as [es [Hv Ho]].
    apply validateOptions_keys in Hv.
    assert (Hkeys : Forall (fun e : string * BuilderConfig => arrayIndex (fst e) = None)
                      config).
    { eapply Forall_impl; [| exact Hplain]. cbn beta. tauto. }
    rewrite (cloneRecord_plain config Hplain) in Hv.
    rewrite (objectEntries_plain config Hkeys) in Hv.
    unfold optEntriesOf. rewrite Ho.
    rewrite (objectEntries_plain es (plain_keys_same config es Hv Hkeys)).
    exact Hv.
Qed.

(** ** The candidate scanner and the errors of resolution *)

Lemma scanCandidates_not_flags (n : nat) :
  forall (args : list string) (i : Z),
    (length args <= n)%nat ->
    Forall (fun c => startsWith (data c) "-" = false) (scanCandidates i args).
Proof.
  induction n as [| n IH]; intros args i Hlen.
  - destruct args; [constructor | simpl in Hlen; lia].
  - destruct args as [| arg rest]; [constructor |]. simpl in Hlen.
    cbn [scanCandidates].
    destruct (isHelpFlag arg || isVersionFlag arg)%bool.
    + destruct rest as [| next rest']; [constructor |]. simpl in Hlen.
      destruct (isBooleanLiteral (toLowerCase next)); apply IH; simpl; lia.
    + destruct (startsWith arg "-") eqn:Ed.
      * destruct (negb (includes arg "=")); [| apply IH; lia].
        destruct rest as [| next rest']; [constructor |]. simpl in Hlen. apply IH. lia.
      * constructor; [exact Ed | apply IH; lia].
Qed.

Lemma scanCandidates_flags_only (n : nat) :
  forall (args : list string) (i : Z),
    (length args <= n)%nat ->
    Forall (fun t => startsWith t "-" = true) args ->
    scanCandidates i args = [].
Proof.
  induction n as [| n IH]; intros args i Hlen Hflags.
  - destruct args; [reflexivity | simpl in Hlen; lia].
  - destruct args as [| arg rest]; [reflexivity |]. simpl in Hlen.
    inversion Hflags as [| ? ? Harg Hrest]; subst.
    cbn [scanCandidates].
    destruct (isHelpFlag arg || isVersionFlag arg)%bool.
    + destruct rest as [| next rest']; [reflexivity |]. simpl in Hlen.
      inversion Hrest; subst.
      destruct (isBooleanLiteral (toLowerCase next)); apply IH; simpl; auto; lia.
    + rewrite Harg.
      destruct (negb (includes arg "=")); [| apply IH; auto; lia].
      destruct rest as [| next rest']; [reflexivity |]. simpl in Hlen.
      inversion Hrest; subst. apply IH; auto; lia.
Qed.

(** X8.  The scanner never takes a flag-prefixed token for a candidate; a
    token list made of flag-prefixed tokens only has no candidate, and
    [getCommand] then resolves no command and returns the tokens as they
    are. *)
Theorem X8_candidates_are_not_flags (commands : list Command) (args : list string)
    (i : Z) :
  (forall c, In c (scanCandidates i args) -> startsWith (data c) "-" = false)
  /\ (Forall (fun t => startsWith t "-" = true) args ->
      getCommand commands args = Ok (NoCommand, args)).
Proof.
  split.
  - apply Forall_forall. apply (scanCandidates_not_flags (length args)). apply le_n.
  - intros Hflags. unfold getCommand.
    now rewrite (scanCandidates_flags_only (length args) args 0 (le_n _) Hflags).
Qed.

(** X9.  When the first candidate is not the literal [help] and names no
    command of the list, [getCommand] throws the unknown-command error for
    it; when it names a command that has subcommands and the next candidate
    names none of them, [getCommand] throws the unknown-subcommand error for
    that command and that candidate. *)
Theorem X9_unknown_command_errors (commands : list Command) (args : list string)
    (c : CommandCandidate) (rest : list CommandCandidate) :
  scanCandidates 0 args = c :: rest ->
  data c <> "help" ->
  (findCommand commands (data c) = None ->
   getCommand commands args = Throw (unknownCommand (data c)))
  /\ (forall command subcommands next rest',
        rest = next :: rest' ->
        findCommand commands (data c) = Some command ->
        cmd_subcommands command = Some subcommands ->
        findCommand subcommands (data next) = None ->
        getCommand commands args = Throw (unknownSubcommand command (data next))).
Proof.
  intros Hscan Hhelp. apply String.eqb_neq in Hhelp.
  unfold getCommand. rewrite Hscan, Hhelp. split.
  - intros Hnone. rewrite getCommandInner_equation_2, Hnone. reflexivity.
  - intros command subcommands next rest' -> Hsome Hsubs Hnone.
    rewrite getCommandInner_equation_2, Hsome. cbn zeta. rewrite Hsubs.
    cbn [map]. rewrite getCommandInner_equation_2.
    change (data (shiftCandidate next)) with (data next). rewrite Hnone.
    reflexivity.
Qed.

(** ** Resolution removes command tokens only *)

Lemma dropAt_filter (P : string -> bool) (removed : list Z) (args : list string) :
  forall i,
    (forall j x, nth_error args j = Some x ->
                 existsb (Z.eqb (i + Z.of_nat j)) removed = true -> P x = false) ->
    filter P (dropAt i removed args) = filter P args.
Proof.
  induction args as [| x t IH]; intros i H; [reflexivity |].
  cbn [dropAt].
  assert (Ht : filter P (dropAt (i + 1) removed t) = filter P t).
  { apply IH. intros j y Hj Hex. apply (H (S j) y Hj).
    now replace (i + Z.of_nat (S j)) with (i + 1 + Z.of_nat j) by lia. }
  destruct (existsb (Z.eqb i) removed) eqn:E.
  - rewrite Ht. cbn [filter].
    rewrite (H 0%nat x eq_refl); [reflexivity |].
    now replace (i + Z.of_nat 0) with i by lia.
  - cbn [filter]. now rewrite Ht.
Qed.

Lemma dropIndices_keeps_flags (args : list string) (taken : list CommandCandidate) :
  Forall (indexes args) taken ->
  Forall (fun c => startsWith (data c) "-" = false) taken ->
  filter (fun t => startsWith t "-") (dropIndices (map originalIndex taken) args)
  = filter (fun t => startsWith t "-") args.
Proof.
  intros Hidx Hnf. unfold dropIndices. apply dropAt_filter.
  intros j x Hj Hex. apply existsb_exists in Hex. destruct Hex as [r [Hr Er]].
  apply Z.eqb_eq in Er. apply in_map_iff in Hr. destruct Hr as [c [Hc Hin]].
  rewrite Forall_forall in Hidx, Hnf.
  pose proof (Hidx c Hin) as Hat. unfold indexes, at_ in Hat.
  rewrite Hc, <- Er in Hat. cbn [Z.add] in Hat.
  replace (Z.of_nat j <? 0) with false in Hat by (symmetry; apply Z.ltb_ge; lia).
  rewrite Nat2Z.id, Hj in Hat. injection Hat as ->. now apply Hnf.
Qed.

Lemma Forall_firstn {A : Type} (P : A -> Prop) (l : list A) (k : nat) :
  Forall P l -> Forall P (firstn k l).
Proof.
  intros H. rewrite <- (firstn_skipn k l) in H.
  apply Forall_app in H. apply H.
Qed.

(** X10.  Whatever [getCommand] returns, the tokens it hands back contain
    every flag-prefixed token of the input, in the same order: resolution
    removes command-path tokens only.  When no command is resolved the
    tokens are returned as they are, and when the literal [help] is found
    exactly one token is removed. *)
Theorem X10_resolution_keeps_flags (commands : list Command) (args : list string)
    (r : Resolved) (args' : list string) :
  getCommand commands args = Ok (r, args') ->
  filter (fun t => startsWith t "-") args' = filter (fun t => startsWith t "-") args
  /\ (r = NoCommand -> args' = args)
  /\ (r = HelpCommand -> length args = S (length args')).
Proof.
  intros H.
  pose proof (scanCandidates_invariant (length args) args [] (le_n _)) as [Hasc Hidx].
  cbn [length Z.of_nat app] in Hasc, Hidx.
  pose proof (scanCandidates_not_flags (length args) args 0 (le_n _)) as Hnf.
  split; [| split].
  - unfold getCommand in H.
    destruct (scanCandidates 0 args) as [| c rest] eqn:Ec.
    + now injection H as _ <-.
    + destruct (String.eqb (data c) "help").
      * injection H as _ <-.
        assert (E : ascending 0 [c]) by (simpl; split; [apply Hasc | exact I]).
        apply (dropIndices_step args) in E. cbn [map] in E.
        unfold dropIndices in E at 2. rewrite dropAt_none in E. rewrite <- E.
        apply (dropIndices_keeps_flags args [c]).
        -- inversion Hidx; subst. now constructor.
        -- inversion Hnf; subst. now constructor.
      * destruct (getCommandInner commands (c :: rest) args)
          as [[[cmd |] a] | e] eqn:Er; cbn [bind] in H; try discriminate.
        injection H as _ <-.
        apply (getCommandInner_sound (length (c :: rest))) in Er;
          [| apply le_n | exact Hasc].
        destruct Er as [k [_ [_ [_ ->]]]].
        apply dropIndices_keeps_flags; now apply Forall_firstn.
  - intros ->. unfold getCommand in H.
    destruct (scanCandidates 0 args) as [| c rest]; [now injection H as <- |].
    destruct (String.eqb (data c) "help"); [discriminate |].
    destruct (getCommandInner commands (c :: rest) args) as [[[cmd |] a] | e];
      cbn [bind] in H; discriminate.
  - intros ->. now apply (getCommand_help_shrinks commands).
Qed.

(** ** Help and version sentinels *)

Lemma parseArg_sentinel (options positionals : list OptEntry) (arg : string)
    (nextArg : option string) (p : ParsedArg) (q : list OptEntry) :
  parseArg options positionals arg nextArg = Ok (p, q) ->
  (pa_isHelp p = true -> isHelpFlag (namePartOf arg) = true)
  /\ (pa_isVersion p = true -> isVersionFlag (namePartOf arg) = true).
Proof.
  unfold parseArg.
  destruct (isHelpFlag (namePartOf arg)) eqn:Eh.
  { intros H. injection H as <- _. cbn. split; [reflexivity | discriminate]. }
  destruct (isVersionFlag (namePartOf arg)) eqn:Ev.
  { intros H. injection H as <- _. cbn. split; [discriminate | reflexivity]. }
  destruct (negb (startsWith arg "-")).
  - destruct positionals as [| pos positionals'].
    + intros H. injection H as <- _. cbn. split; discriminate.
    + destruct (opt_enumVals (snd pos)) as [vals |];
        [destruct (notInEnum vals (dataPartOf arg nextArg)); [discriminate |] |];
        intros H; injection H as <- _; cbn; split; discriminate.
  - destruct (findOption options (namePartOf arg) (includes arg "=")
                (dataPartOf arg nextArg) nextArg) as [[[[entry d] skipNext] |] | e];
      cbn [bind]; [| | discriminate];
      intros H; injection H as <- _; cbn; split; discriminate.
Qed.

Lemma scanArgs_sentinel_source (n : nat) :
  forall (options positionals : list OptEntry) (args : list string)
         (result : Record_) (unrec : list string),
    (length args <= n)%nat ->
    (scanArgs options positionals args result unrec = Ok ScanHelp ->
     exists t, In t args /\ isHelpFlag (namePartOf t) = true)
    /\ (scanArgs options positionals args result unrec = Ok ScanVersion ->
        exists t, In t args /\ isVersionFlag (namePartOf t) = true).
Proof.
  induction n as [| n IH]; intros options positionals args result unrec Hlen.
  - destruct args; [split; discriminate | simpl in Hlen; lia].
  - destruct args as [| arg rest]; [split; discriminate |]. simpl in Hlen.
    cbn [scanArgs].
    destruct (parseArg options positionals arg (hd_error rest)) as [[p q] | e] eqn:Ep;
      cbn [bind]; [| split; discriminate].
    destruct (parseArg_sentinel _ _ _ _ _ _ Ep) as [Hh Hv].
    destruct (pa_isHelp p).
    { split; [| discriminate]. intros _. exists arg. split; [now left | now apply Hh]. }
    destruct (pa_isVersion p).
    { split; [discriminate |]. intros _. exists arg. split; [now left | now apply Hv]. }
    assert (Hk : forall l r u, (length l <= n)%nat -> (forall t, In t l -> In t rest) ->
              (scanArgs options q l r u = Ok ScanHelp ->
               exists t, In t (arg :: rest) /\ isHelpFlag (namePartOf t) = true)
              /\ (scanArgs options q l r u = Ok ScanVersion ->
                  exists t, In t (arg :: rest) /\ isVersionFlag (namePartOf t) = true)).
    { intros l r u Hl Hsub. destruct (IH options q l r u Hl) as [I1 I2].
      split; intros Hs; [destruct (I1 Hs) as [t [Ht Hf]] | destruct (I2 Hs) as [t [Ht Hf]]];
        exists t; (split; [right; now apply Hsub | exact Hf]). }
    destruct (pa_skipNext p).
    + destruct rest as [| next rest']; [split; discriminate |].
      apply Hk; [simpl in Hlen; lia | intros t Ht; now right].
    + apply Hk; [lia | auto].
Qed.

(** X11.  A first token whose name part is [--help] or [-h] makes
    [parseOptions] return the help sentinel, whatever follows and whatever
    the command requires; one whose name part is [--version] or [-v] makes
    it return the version sentinel.  Conversely a sentinel is only returned
    when some token has such a name part. *)
Theorem X11_help_version_sentinels (command : Command) (args : list string)
    (omit : bool) :
  (forall arg rest, args = arg :: rest ->
     (isHelpFlag (namePartOf arg) = true -> parseOptions command args omit = Ok Help)
     /\ (isVersionFlag (namePartOf arg) = true ->
         parseOptions command args omit = Ok Version))
  /\ (parseOptions command args omit = Ok Help ->
      exists t, In t args /\ isHelpFlag (namePartOf t) = true)
  /\ (parseOptions command args omit = Ok Version ->
      exists t, In t args /\ isVersionFlag (namePartOf t) = true).
Proof.
  split; [| split].
  - intros arg rest ->. split; intros H; unfold parseOptions; cbn [scanArgs];
      unfold parseArg; rewrite H.
    + reflexivity.
    + destruct (isHelpFlag (namePartOf arg)) eqn:Eh; [| reflexivity].
      exfalso. unfold isHelpFlag, isVersionFlag in *.
      destruct (String.eqb_spec (namePartOf arg) "--help") as [E | _];
        [rewrite E in H; discriminate |].
      destruct (String.eqb_spec (namePartOf arg) "-h") as [E | _];
        [rewrite E in H; discriminate | discriminate].
  - unfold parseOptions.
    match goal with |- bind ?sc _ = _ -> _ => destruct sc as [[| | r u] | e] eqn:Es end;
      cbn [bind]; try discriminate.
    + intros _. eapply (proj1 (scanArgs_sentinel_source _ _ _ _ _ _ (le_n _))). exact Es.
    + destruct (applyDefaults omit (optEntriesOf command) r []) as [r' m].
      destruct (negb (isEmpty m)); [discriminate |].
      destruct (negb (isEmpty u)); [discriminate |].
      destruct (isEmpty r'); discriminate.
  - unfold parseOptions.
    match goal with |- bind ?sc _ = _ -> _ => destruct sc as [[| | r u] | e] eqn:Es end;
      cbn [bind]; try discriminate.
    + intros _. eapply (proj2 (scanArgs_sentinel_source _ _ _ _ _ _ (le_n _))). exact Es.
    + destruct (applyDefaults omit (optEntriesOf command) r []) as [r' m].
      destruct (negb (isEmpty m)); [discriminate |].
      destruct (negb (isEmpty u)); [discriminate |].
      destruct (isEmpty r'); discriminate.
Qed.

(** ** Values of matched options *)

Lemma findOption_first (key : string) (opt : ProcessedBuilderConfig)
    (others : list OptEntry) (namePart : string) (hasEq : bool)
    (dataPart nextArg : option string) :
  findOption ((key, opt) :: others) namePart hasEq dataPart nextArg
  = match matchOption opt namePart hasEq dataPart nextArg with
    | Ok (Some (d, skipNext)) => Ok (Some ((key, opt), d, skipNext))
    | Ok None => findOption others namePart hasEq dataPart nextArg
    | Throw e => Throw e
    end.
Proof.
  cbn [findOption].
  destruct (matchOption opt namePart hasEq dataPart nextArg) as [[[d s] |] | e];
    reflexivity.
Qed.

(** [parseArg] on a flag-prefixed token that is no help or version flag. *)
Lemma parseArg_flag (options positionals : list OptEntry) (arg : string)
    (nextArg : option string) :
  startsWith arg "-" = true ->
  isHelpFlag (namePartOf arg) = false ->
  isVersionFlag (namePartOf arg) = false ->
  parseArg options positionals arg nextArg
  = match findOption options (namePartOf arg) (includes arg "=")
            (dataPartOf arg nextArg) nextArg with
    | Ok (Some (entry, d, skipNext)) =>
        Ok (mkParsedArg d (Some (fst entry)) (Some (snd entry)) skipNext false false,
            positionals)
    | Ok None =>
        Ok (mkParsedArg VUndefined None None (negb (includes arg "=")) false false,
            positionals)
    | Throw e => Throw e
    end.
Proof.
  intros Hd Hh Hv. unfold parseArg. rewrite Hh, Hv, Hd. cbn [negb].
  destruct (findOption _ _ _ _ _) as [[[[entry d] skipNext] |] | e]; reflexivity.
Qed.

(** X12.  For a boolean option, the token [name=value] gives [true] when
    the value is empty, [true] or [1], and [false] when it is [false] or
    [0], in any case of the letters; any other value is the
    invalid-boolean-syntax error.  The next token is not consumed. *)
Theorem X12_boolean_with_value (key : string) (opt : ProcessedBuilderConfig)
    (others positionals : list OptEntry) (name v : string) (nextArg : option string) :
  opt_type opt = TBoolean ->
  In name (optNames (key, opt)) ->
  startsWith name "-" = true ->
  includes name "=" = false ->
  isHelpFlag name = false ->
  isVersionFlag name = false ->
  parseArg ((key, opt) :: others) positionals (name ++ "=" ++ v) nextArg
  = if spellsTrue (toLowerCase v)
    then Ok (mkParsedArg (VBoolean true) (Some key) (Some opt) false false false,
             positionals)
    else if spellsFalse (toLowerCase v)
    then Ok (mkParsedArg (VBoolean false) (Some key) (Some opt) false false false,
             positionals)
    else Throw (invalidBooleanSyntax name).
Proof.
  intros Ht Hin Hdash Hno Hh Hv.
  destruct (token_with_value name v nextArg Hno) as [Hn [Hi Hdata]].
  rewrite parseArg_flag; rewrite ?Hn; try assumption;
    [| now apply startsWith_dash_app].
  rewrite Hi, Hdata, findOption_first. unfold matchOption.
  assert (Hf : findTruthy (opt_name opt :: opt_aliases opt) name = true).
  { apply findTruthy_true. split; [exact Hin |]. intros ->. discriminate. }
  rewrite Hf, Ht. cbn [negb andb option_map].
  fold (spellsTrue (toLowerCase v)). fold (spellsFalse (toLowerCase v)).
  destruct (spellsTrue (toLowerCase v)); [reflexivity |].
  destruct (spellsFalse (toLowerCase v)); reflexivity.
Qed.

(** X13.  A boolean option given without [=] never throws: it is [true],
    unless the next token spells [false] or [0]; the next token is consumed
    exactly when it is absent or is not flag-prefixed and spells a
    boolean. *)
Theorem X13_boolean_bare (key : string) (opt : ProcessedBuilderConfig)
    (others positionals : list OptEntry) (name : string) (nextArg : option string) :
  opt_type opt = TBoolean ->
  In name (optNames (key, opt)) ->
  startsWith name "-" = true ->
  includes name "=" = false ->
  isHelpFlag name = false ->
  isVersionFlag name = false ->
  parseArg ((key, opt) :: others) positionals name nextArg
  = let taken value skipNext :=
        Ok (mkParsedArg (VBoolean value) (Some key) (Some opt) skipNext false false,
            positionals) in
    match nextArg with
    | None => taken true true
    | Some next =>
        if startsWith next "-" then taken true false
        else if spellsTrue (toLowerCase next) then taken true true
        else if spellsFalse (toLowerCase next) then taken false true
        else taken true false
    end.
Proof.
  intros Ht Hin Hdash Hno Hh Hv.
  destruct (token_without_value name nextArg Hno) as [Hn Hdata].
  rewrite parseArg_flag; rewrite ?Hn; try assumption.
  rewrite Hno, Hdata, findOption_first. unfold matchOption.
  assert (Hf : findTruthy (opt_name opt :: opt_aliases opt) name = true).
  { apply findTruthy_true. split; [exact Hin |]. intros ->. discriminate. }
  rewrite Hf, Ht. cbn [negb andb]. cbn zeta.
  destruct nextArg as [next |]; cbn [option_map]; [| reflexivity].
  destruct (startsWith next "-"); [reflexivity |].
  fold (spellsTrue (toLowerCase next)). fold (spellsFalse (toLowerCase next)).
  destruct (spellsTrue (toLowerCase next)); [reflexivity |].
  destruct (spellsFalse (toLowerCase next)); reflexivity.
Qed.

(** X14.  A string or number option given as the last token, without [=],
    has no value: [parseArg] throws the invalid-string-syntax error for the
    one and the invalid-number-syntax error for the other. *)
Theorem X14_missing_value (key : string) (opt : ProcessedBuilderConfig)
    (others positionals : list OptEntry) (name : string) :
  In name (optNames (key, opt)) ->
  startsWith name "-" = true ->
  includes name "=" = false ->
  isHelpFlag name = false ->
  isVersionFlag name = false ->
  (opt_type opt = TString ->
   parseArg ((key, opt) :: others) positionals name None
   = Throw (invalidStringSyntax name))
  /\ (opt_type opt = TNumber ->
      parseArg ((key, opt) :: others) positionals name None
      = Throw (invalidNumberSyntax name)).
Proof.
  intros Hin Hdash Hno Hh Hv.
  destruct (token_without_value name None Hno) as [Hn Hdata].
  assert (Hf : findTruthy (opt_name opt :: opt_aliases opt) name = true).
  { apply findTruthy_true. split; [exact Hin |]. intros ->. discriminate. }
  split; intros Ht; rewrite parseArg_flag; rewrite ?Hn; try assumption;
    rewrite Hno, Hdata, findOption_first; unfold matchOption;
    rewrite Hf, Ht; reflexivity.
Qed.

(** X15.  A number option with a value is accepted exactly when the value
    converts to a number that is not [NaN], is an integer if the option
    demands one, and lies within the declared bounds; nothing else than the
    text of the value is ever produced for it. *)
Theorem X15_number_validation (opt : ProcessedBuilderConfig) (namePart d : string)
    (hasEq : bool) (nextArg : option string) :
  opt_type opt = TNumber ->
  findTruthy (opt_name opt :: opt_aliases opt) namePart = true ->
  (hasEq = true \/ nextArg <> None) ->
  (matchOption opt namePart hasEq (Some d) nextArg = Ok (Some (VString d, negb hasEq))
   <-> isNaN (Number d) = false
       /\ (opt_isInt opt = true -> isInt (Number d) = true)
       /\ (forall m, opt_minVal opt = Some m -> num_lt (Number d) m = false)
       /\ (forall m, opt_maxVal opt = Some m -> num_lt m (Number d) = false))
  /\ (forall r, matchOption opt namePart hasEq (Some d) nextArg = Ok r ->
                r = Some (VString d, negb hasEq)).
Proof.
  intros Ht Hn Hval.
  assert (Hgen : forall r, matchOption opt namePart hasEq (Some d) nextArg = Ok r ->
             r = Some (VString d, negb hasEq)
             /\ isNaN (Number d) = false
             /\ (opt_isInt opt = true -> isInt (Number d) = true)
             /\ (forall m, opt_minVal opt = Some m -> num_lt (Number d) m = false)
             /\ (forall m, opt_maxVal opt = Some m -> num_lt m (Number d) = false)).
  { intros r. unfold matchOption. rewrite Hn, Ht. cbn [negb].
    destruct (negb hasEq && isNone nextArg)%bool; [discriminate |].
    destruct (isNaN (Number d)) eqn:Enan; [discriminate |].
    destruct (opt_isInt opt && negb (isInt (Number d)))%bool eqn:Eint; [discriminate |].
    assert (Hint : opt_isInt opt = true -> isInt (Number d) = true).
    { intros E. rewrite E in Eint. cbn in Eint. now apply negb_false_iff in Eint. }
    destruct (opt_minVal opt) as [mn |];
      [destruct (num_lt (Number d) mn) eqn:Emin; [discriminate |] |];
      (destruct (opt_maxVal opt) as [mx |];
       [destruct (num_lt mx (Number d)) eqn:Emax; [discriminate |] |]);
      intros H; injection H as <-;
      (split; [reflexivity |]); (split; [reflexivity |]); (split; [exact Hint |]);
      split; intros m E; try discriminate; injection E as <-; assumption. }
  split; [split |].
  - intros H. apply Hgen in H. tauto.
  - intros [H1 [H2 [H3 H4]]]. now apply matchOption_number_valid.
  - intros r H. apply Hgen in H. tauto.
Qed.

(** X16.  A string option with an enum accepts a value exactly when it is a
    non-empty member of the enum, and then yields that value; otherwise it
    throws the enum violation for it.  (An empty value is refused even when
    the enum lists the empty string.) *)
Theorem X16_string_enum (opt : ProcessedBuilderConfig) (namePart d : string)
    (hasEq : bool) (nextArg : option string) (vals : list string) :
  opt_type opt = TString ->
  opt_enumVals opt = Some vals ->
  findTruthy (opt_name opt :: opt_aliases opt) namePart = true ->
  (hasEq = true \/ nextArg <> None) ->
  (In d vals /\ d <> EmptyString ->
   matchOption opt namePart hasEq (Some d) nextArg = Ok (Some (VString d, negb hasEq)))
  /\ (~ (In d vals /\ d <> EmptyString) ->
      matchOption opt namePart hasEq (Some d) nextArg
      = Throw (enumViolation namePart (Some d) vals)).
Proof.
  intros Ht He Hn Hval. unfold matchOption. rewrite Hn, Ht, He. cbn [negb notInEnum].
  replace (negb hasEq && isNone nextArg)%bool with false.
  2:{ destruct Hval as [-> | Hnext]; [reflexivity |].
      destruct nextArg; [now rewrite andb_false_r | congruence]. }
  split; intros H.
  - apply findTruthy_true in H. now rewrite H.
  - destruct (findTruthy vals d) eqn:E; [| reflexivity].
    apply findTruthy_true in E. contradiction.
Qed.

(** ** The result mapping *)

Lemma isUndefined_eq (v : OutputType) : isUndefined v = true -> v = VUndefined.
Proof. destruct v; (reflexivity || discriminate). Qed.

Lemma applyDefaults_cons (omit : bool) (k : string) (o : ProcessedBuilderConfig)
    (rest : list OptEntry) (result : Record_) (missing : list (list string)) :
  exists result' missing',
    applyDefaults omit (@cons OptEntry (k, o) rest) result missing
    = applyDefaults omit rest result' missing'
    /\ (result' = setKey result k (coalesce (readKey result k) (opt_default o))
        \/ (omit = true /\ result' = result
            /\ coalesce (readKey result k) (opt_default o) = VUndefined)).
Proof.
  cbn [applyDefaults]. eexists. eexists. split; [reflexivity |].
  destruct omit; cbn [negb]; [| now left].
  destruct (isUndefined (coalesce (readKey result k) (opt_default o))) eqn:E;
    cbn [negb]; [| now left].
  right. repeat split. now apply isUndefined_eq.
Qed.

Lemma applyDefaults_untouched (omit : bool) (optEntries : list OptEntry) (k : string) :
  forall result missing,
    ~ In k (map fst optEntries) ->
    getKey (fst (applyDefaults omit optEntries result missing)) k = getKey result k.
Proof.
  induction optEntries as [| [k0 o] rest IH]; intros result missing Hk; [reflexivity |].
  destruct (applyDefaults_cons omit k0 o rest result missing)
    as [result' [missing' [-> Hres]]].
  rewrite IH by (intros Hin; apply Hk; now right).
  destruct Hres as [-> | [_ [-> _]]]; [| reflexivity].
  apply getKey_setKey_other. intros ->. apply Hk. now left.
Qed.

Lemma applyDefaults_value (omit : bool) (optEntries : list OptEntry) :
  forall result missing e,
    NoDup (map fst optEntries) ->
    In e optEntries ->
    readKey (fst (applyDefaults omit optEntries result missing)) (fst e)
    = coalesce (readKey result (fst e)) (opt_default (snd e)).
Proof.
  induction optEntries as [| [k o] rest IH]; intros result missing e Hnd He;
    [contradiction |].
  inversion Hnd as [| ? ? Hnotin Hnd']; subst.
  destruct (applyDefaults_cons omit k o rest result missing)
    as [result' [missing' [-> Hres]]].
  destruct He as [<- | He].
  - cbn [fst snd]. unfold readKey at 1.
    rewrite applyDefaults_untouched by exact Hnotin. fold (readKey result' k).
    destruct Hres as [-> | [_ [-> Hund]]].
    + apply readKey_setKey_same.
    + rewrite Hund. unfold coalesce in Hund.
      destruct (isUndefined (readKey result k)) eqn:E; [now apply isUndefined_eq |].
      exact Hund.
  - rewrite (IH result' missing' e Hnd' He).
    assert (Hne : fst e <> k).
    { intros Heq. apply Hnotin. rewrite <- Heq. now apply in_map. }
    destruct Hres as [-> | [_ [-> _]]]; [| reflexivity].
    now rewrite readKey_setKey_other.
Qed.

Lemma getKey_setKey_present {V : Type} (o : list (string * V)) (k k' : string) (v : V) :
  getKey o k' <> None -> getKey (setKey o k v) k' <> None.
Proof.
  intros H. destruct (String.eqb_spec k' k) as [-> | Hne].
  - rewrite getKey_setKey_same. discriminate.
  - now rewrite getKey_setKey_other.
Qed.

Lemma applyDefaults_keeps_keys (omit : bool) (optEntries : list OptEntry) (k : string) :
  forall result missing,
    getKey result k <> None ->
    getKey (fst (applyDefaults omit optEntries result missing)) k <> None.
Proof.
  induction optEntries as [| [k0 o] rest IH]; intros result missing Hk; [exact Hk |].
  destruct (applyDefaults_cons omit k0 o rest result missing)
    as [result' [missing' [-> Hres]]].
  apply IH. destruct Hres as [-> | [_ [-> _]]]; [| exact Hk].
  now apply getKey_setKey_present.
Qed.

Lemma applyDefaults_all_keys (optEntries : list OptEntry) :
  forall result missing e,
    In e optEntries ->
    getKey (fst (applyDefaults false optEntries result missing)) (fst e) <> None.
Proof.
  induction optEntries as [| [k o] rest IH]; intros result missing e He; [contradiction |].
  destruct (applyDefaults_cons false k o rest result missing)
    as [result' [missing' [-> Hres]]].
  destruct He as [<- | He]; [| now apply IH].
  apply applyDefaults_keeps_keys.
  destruct Hres as [-> | [Hc _]]; [| discriminate].
  cbn [fst]. rewrite getKey_setKey_same. discriminate.
Qed.

(** What a parse that returns a mapping went through. *)
Lemma parseOptions_returns (command : Command) (args : list string) (omit : bool)
    (res : Record_) :
  parseOptions command args omit = Ok (Options res) ->
  exists result,
    scanArgs (filter (fun e => negb (isPositional (opt_type (snd e)))) (optEntriesOf command))
             (filter (fun e => isPositional (opt_type (snd e))) (optEntriesOf command))
             args [] [] = Ok (Scanned result [])
    /\ res = fst (applyDefaults omit (optEntriesOf command) result [])
    /\ snd (applyDefaults omit (optEntriesOf command) result []) = [].
Proof.
  unfold parseOptions.
  match goal with |- bind ?sc _ = _ -> _ => destruct sc as [[| | r u] | e] eqn:Es end;
    cbn [bind]; try discriminate.
  destruct (applyDefaults omit (optEntriesOf command) r []) as [r' m] eqn:Ed.
  destruct m; cbn [isEmpty negb]; [| discriminate].
  destruct u; cbn [isEmpty negb]; [| discriminate].
  destruct r'; cbn [isEmpty]; [discriminate |].
  intros H. injection H as <-. exists r. rewrite Ed. cbn [fst snd].
  split; [reflexivity |]. split; reflexivity.
Qed.

(** X17.  In a mapping that [parseOptions] returns, the value of every
    declared key is the value the token scan captured for it or, when none
    was captured, the declared default; no required option is left
    undefined; and unless undefined keys are omitted, every declared key is
    present. *)
Theorem X17_values_and_defaults (command : Command) (args : list string)
    (omit : bool) (res : Record_) :
  NoDup (map fst (optEntriesOf command)) ->
  parseOptions command args omit = Ok (Options res) ->
  exists result,
    scanArgs (filter (fun e => negb (isPositional (opt_type (snd e)))) (optEntriesOf command))
             (filter (fun e => isPositional (opt_type (snd e))) (optEntriesOf command))
             args [] [] = Ok (Scanned result [])
    /\ (forall e, In e (optEntriesOf command) ->
          readKey res (fst e) = coalesce (readKey result (fst e)) (opt_default (snd e)))
    /\ (forall e, In e (optEntriesOf command) -> opt_isRequired (snd e) = true ->
          isUndefined (readKey res (fst e)) = false)
    /\ (omit = false ->
        forall e, In e (optEntriesOf command) -> getKey res (fst e) <> None).
Proof.
  intros Hnd H. destruct (parseOptions_returns _ _ _ _ H) as [result [Hscan [-> Hmiss]]].
  exists result. split; [exact Hscan |].
  assert (Hval : forall e, In e (optEntriesOf command) ->
            readKey (fst (applyDefaults omit (optEntriesOf command) result [])) (fst e)
            = coalesce (readKey result (fst e)) (opt_default (snd e))).
  { intros e He. now apply applyDefaults_value. }
  split; [exact Hval |]. split.
  - intros e He Hreq. rewrite (Hval e He).
    rewrite applyDefaults_missing in Hmiss by exact Hnd. cbn [app] in Hmiss.
    destruct (isUndefined (coalesce (readKey result (fst e)) (opt_default (snd e))))
      eqn:E; [| reflexivity].
    assert (Hin : In e (filter (isMissing result) (optEntriesOf command))).
    { apply filter_In. split; [exact He |]. unfold isMissing. now rewrite Hreq, E. }
    apply (in_map optNames) in Hin. rewrite Hmiss in Hin. contradiction.
  - intros -> e He. now apply applyDefaults_all_keys.
Qed.

(** ** Omitting undefined options *)

Lemma setKey_defined (o : Record_) (k : string) (v : OutputType) :
  allDefined o -> isUndefined v = false -> allDefined (setKey o k v).
Proof.
  unfold allDefined. intros Ho Hv. induction o as [| [k' v'] t IH]; cbn [setKey].
  - now repeat constructor.
  - inversion Ho; subst. destruct (String.eqb k' k); constructor; auto.
Qed.

Lemma matchOption_defined (opt : ProcessedBuilderConfig) (namePart : string)
    (hasEq : bool) (dataPart nextArg : option string) (d : OutputType) (s : bool) :
  (hasEq = true -> dataPart <> None) ->
  (hasEq = false -> dataPart = nextArg) ->
  matchOption opt namePart hasEq dataPart nextArg = Ok (Some (d, s)) ->
  isUndefined d = false.
Proof.
  intros Heq Hnext. unfold matchOption.
  destruct (negb (findTruthy (opt_name opt :: opt_aliases opt) namePart)); [discriminate |].
  assert (Hdata : (negb hasEq && isNone nextArg)%bool = false -> dataPart <> None).
  { destruct hasEq; [intros _; now apply Heq |]. rewrite Hnext by reflexivity.
    destruct nextArg; [discriminate | cbn; discriminate]. }
  destruct (opt_type opt).
  - destruct (negb hasEq && isNone nextArg)%bool; [discriminate |].
    specialize (Hdata eq_refl). destruct dataPart as [x |]; [| congruence].
    destruct (opt_enumVals opt) as [vals |];
      [destruct (notInEnum vals (Some x)); [discriminate |] |];
      intros H; injection H as <- _; reflexivity.
  - repeat match goal with
           | |- (if ?b then _ else _) = _ -> _ => destruct b
           end; try discriminate; intros H; injection H as <- _; reflexivity.
  - destruct (negb hasEq && isNone nextArg)%bool; [discriminate |].
    destruct dataPart as [x |]; [| discriminate].
    repeat match goal with
           | |- (if ?b then _ else _) = _ -> _ => destruct b
           | |- match ?o with Some _ => _ | None => _ end = _ -> _ => destruct o
           end; try discriminate; intros H; injection H as <- _; reflexivity.
  - destruct (negb hasEq && isNone nextArg)%bool; [discriminate |].
    destruct dataPart as [x |]; [| discriminate].
    repeat match goal with
           | |- (if ?b then _ else _) = _ -> _ => destruct b
           | |- match ?o with Some _ => _ | None => _ end = _ -> _ => destruct o
           end; try discriminate; intros H; injection H as <- _; reflexivity.
Qed.

Lemma findOption_defined (options : list OptEntry) (namePart : string)
    (hasEq : bool) (dataPart nextArg : option string) (entry : OptEntry)
    (d : OutputType) (s : bool) :
  (hasEq = true -> dataPart <> None) ->
  (hasEq = false -> dataPart = nextArg) ->
  findOption options namePart hasEq dataPart nextArg = Ok (Some (entry, d, s)) ->
  isUndefined d = false.
Proof.
  intros Heq Hnext. induction options as [| [k o] rest IH]; [discriminate |].
  rewrite findOption_first.
  destruct (matchOption o namePart hasEq dataPart nextArg) as [[[d0 s0] |] | e] eqn:Em;
    [| exact IH | discriminate].
  intros H. injection H as _ <- _. exact (matchOption_defined _ _ _ _ _ _ _ Heq Hnext Em).
Qed.

(** A token bound to an option carries a defined value. *)
Lemma parseArg_defined (options positionals : list OptEntry) (arg : string)
    (nextArg : option string) (p : ParsedArg) (q : list OptEntry) :
  parseArg options positionals arg nextArg = Ok (p, q) ->
  isNone (pa_option p) = false ->
  isUndefined (pa_data p) = false.
Proof.
  unfold parseArg.
  destruct (isHelpFlag (namePartOf arg)); [intros H; injection H as <- _; discriminate |].
  destruct (isVersionFlag (namePartOf arg)); [intros H; injection H as <- _; discriminate |].
  destruct (negb (startsWith arg "-")).
  - destruct positionals as [| pos positionals'];
      [intros H; injection H as <- _; discriminate |].
    destruct (opt_enumVals (snd pos)) as [vals |];
      [destruct (notInEnum vals (dataPartOf arg nextArg)); [discriminate |] |];
      intros H; injection H as <- _; reflexivity.
  - destruct (findOption options (namePartOf arg) (includes arg "=")
                (dataPartOf arg nextArg) nextArg) as [[[[entry d] skipNext] |] | e] eqn:Ef;
      cbn [bind]; [| intros H; injection H as <- _; discriminate | discriminate].
    intros H _. injection H as <- _. cbn [pa_data].
    apply (findOption_defined _ _ _ _ _ _ _ _) with (3 := Ef); unfold dataPartOf.
    + intros ->. discriminate.
    + intros ->. reflexivity.
Qed.

Lemma scanArgs_defined (n : nat) :
  forall (options positionals : list OptEntry) (args : list string)
         (result result' : Record_),
    (length args <= n)%nat ->
    allDefined result ->
    scanArgs options positionals args result [] = Ok (Scanned result' []) ->
    allDefined result'.
Proof.
  induction n as [| n IH]; intros options positionals args result result' Hlen Hdef H.
  - destruct args; [| simpl in Hlen; lia]. now injection H as <-.
  - destruct args as [| arg rest]; [now injection H as <- |]. simpl in Hlen.
    cbn [scanArgs] in H.
    destruct (parseArg options positionals arg (hd_error rest)) as [[p q] | e] eqn:Ep;
      cbn [bind] in H; [| discriminate].
    destruct (pa_isHelp p); [discriminate |].
    destruct (pa_isVersion p); [discriminate |].
    destruct (isNone (pa_option p)) eqn:Eo.
    + exfalso.
      assert (Hgrow : exists ext, @nil string = (([] ++ [namePartOf arg]) ++ ext)%list).
      { destruct (pa_skipNext p).
        - destruct rest as [| next rest']; [discriminate |].
          exact (scanArgs_unrecognized_grows _ _ _ _ _ _ _ _ (le_n _) H).
        - exact (scanArgs_unrecognized_grows _ _ _ _ _ _ _ _ (le_n _) H). }
      destruct Hgrow as [ext Hext]. discriminate.
    + pose proof (setKey_defined _ (keyOf (pa_name p)) _ Hdef
                    (parseArg_defined _ _ _ _ _ _ Ep Eo)) as Hdef'.
      destruct (pa_skipNext p).
      * destruct rest as [| next rest']; [now injection H as <- |].
        simpl in Hlen. refine (IH _ _ _ _ _ _ Hdef' H). lia.
      * refine (IH _ _ _ _ _ _ Hdef' H). lia.
Qed.

Lemma applyDefaults_defined (optEntries : list OptEntry) :
  forall result missing,
    allDefined result -> allDefined (fst (applyDefaults true optEntries result missing)).
Proof.
  induction optEntries as [| [k o] rest IH]; intros result missing Hdef; [exact Hdef |].
  cbn [applyDefaults negb]. apply IH.
  destruct (isUndefined (coalesce (readKey result k) (opt_default o))) eqn:E;
    cbn [negb]; [exact Hdef |].
  now apply setKey_defined.
Qed.

(** X18.  With [omitKeysOfUndefinedOptions], a mapping that [parseOptions]
    returns has no key whose value is undefined. *)
Theorem X18_omit_undefined (command : Command) (args : list string) (res : Record_) :
  parseOptions command args true = Ok (Options res) ->
  forall k v, In (k, v) res -> v <> VUndefined.
Proof.
  intros H. destruct (parseOptions_returns _ _ _ _ H) as [result [Hscan [-> _]]].
  assert (Hall : allDefined (fst (applyDefaults true (optEntriesOf command) result []))).
  { apply applyDefaults_defined.
    apply (scanArgs_defined _ _ _ _ _ _ (le_n _) (Forall_nil _) Hscan). }
  intros k v Hin ->. unfold allDefined in Hall. rewrite Forall_forall in Hall.
  specialize (Hall _ Hin). discriminate.
Qed.

(** ** Matching a command and binding positionals *)

(** X19.  [findCommand] returns the first command of the list that has the
    token among its names; it returns none for the empty token, even when a
    command lists the empty string as an alias. *)
Theorem X19_findCommand_match (commands : list Command) (arg : string) :
  (forall c, findCommand commands arg = Some c ->
     exists before after,
       commands = (before ++ c :: after)%list
       /\ In arg (namesOf c) /\ arg <> EmptyString
       /\ forall b, In b before -> ~ In arg (namesOf b))
  /\ (findCommand commands arg = None ->
      forall c, In c commands -> arg = EmptyString \/ ~ In arg (namesOf c))
  /\ findCommand commands EmptyString = None.
Proof.
  unfold findCommand. split; [| split].
  - induction commands as [| c0 rest IH]; intros c H; [discriminate |].
    cbn [find] in H. destruct (findTruthy (namesOf c0) arg) eqn:E.
    + injection H as <-. apply findTruthy_true in E. destruct E as [Hin Hne].
      exists [], rest. split; [reflexivity |]. split; [exact Hin |].
      split; [exact Hne |]. intros b [].
    + destruct (IH c H) as [before [after [-> [Hin [Hne Hb]]]]].
      exists (c0 :: before), after. split; [reflexivity |]. split; [exact Hin |].
      split; [exact Hne |].
      intros b [<- | Hb']; [| now apply Hb].
      intros Hin0. assert (findTruthy (namesOf c0) arg = true); [| congruence].
      apply findTruthy_true. auto.
  - intros H c Hc. pose proof (find_none _ _ H c Hc) as E. cbn beta in E.
    destruct (String.eqb_spec arg EmptyString) as [-> | Hne]; [now left |].
    right. intros Hin. assert (findTruthy (namesOf c) arg = true); [| congruence].
    apply findTruthy_true. auto.
  - induction commands as [| c0 rest IH]; [reflexivity |].
    cbn [find]. replace (findTruthy (namesOf c0) EmptyString) with false; [exact IH |].
    symmetry. destruct (findTruthy (namesOf c0) EmptyString) eqn:E; [| reflexivity].
    apply findTruthy_true in E. now destruct E.
Qed.

Lemma scanArgs_positionals (options : list OptEntry) (tokens : list string) :
  forall (positionals : list OptEntry) (result : Record_) (unrec : list string),
    Forall (fun t => startsWith t "-" = false) tokens ->
    Forall (fun e => opt_enumVals (snd e) = None) positionals ->
    (length tokens <= length positionals)%nat ->
    scanArgs options positionals tokens result unrec
    = Ok (Scanned (fold_left (fun r kt => setKey r (fst kt) (VString (snd kt)))
                     (combine (map fst positionals) tokens) result)
            unrec).
Proof.
  induction tokens as [| t rest IH]; intros positionals result unrec Htok Hpos Hlen.
  - destruct positionals; reflexivity.
  - destruct positionals as [| pos queue]; [simpl in Hlen; lia |].
    inversion Htok as [| ? ? Ht Hrest]; subst. inversion Hpos as [| ? ? He Hq]; subst.
    destruct (namePartOf_not_flag _ Ht) as [Hh Hv].
    cbn [scanArgs]. unfold parseArg. rewrite Hh, Hv, Ht, He. cbn [negb bind].
    cbn [pa_option pa_name pa_data pa_isHelp pa_isVersion pa_skipNext isNone keyOf].
    rewrite IH; [reflexivity | exact Hrest | exact Hq | simpl in Hlen; lia].
Qed.

(** With ordinary keys, [validateOptions] works on the declared entries in
    their order. *)
Lemma validateOptions_plain (config : list (string * BuilderConfig)) (es : list OptEntry) :
  Forall (fun e => arrayIndex (fst e) = None /\ ~ In (fst e) objectPrototypeNames) config ->
  validateOptions config = Ok es ->
  prefixEntries config = Ok es.
Proof.
  intros Hplain. unfold validateOptions. cbn zeta.
  rewrite (cloneRecord_plain config Hplain).
  rewrite objectEntries_plain by (eapply Forall_impl; [| exact Hplain]; cbn beta; tauto).
  destruct (prefixEntries config) as [es1 |]; [| discriminate].
  cbn [bind]. intros H. now rewrite (checkEntries_same _ _ _ H).
Qed.

Lemma positional_keys_same (config : list (string * BuilderConfig)) :
  forall es : list OptEntry,
    map fst es = map fst config ->
    Forall2 (fun e e' => opt_type (snd e') = cfg_type (snd e)
                         /\ opt_default (snd e') = cfg_default (snd e)
                         /\ opt_isRequired (snd e') = cfg_isRequired (snd e))
      config es ->
    map fst (filter (fun e => isPositional (opt_type (snd e))) es)
    = map fst (filter (fun e => isPositional (cfg_type (snd e))) config).
Proof.
  induction config as [| e rest IH]; intros es Hk H2; inversion H2 as [| ? e' ? es' [Ht _] Hr];
    subst; [reflexivity |].
  cbn [map] in Hk. injection Hk as Hk1 Hk2.
  cbn [filter]. rewrite Ht.
  destruct (isPositional (cfg_type (snd e))); cbn [map]; rewrite (IH es' Hk2 Hr);
    [now rewrite Hk1 | reflexivity].
Qed.

(** X20.  A token that does not start with the flag prefix and meets a
    queue of positional specs that is not empty is bound to the spec at the
    head of the queue, which leaves the queue, provided that spec has no
    enum or its enum check passes; the token is the value stored under the
    key of the spec, no other token is consumed and nothing is recorded as
    unrecognized.  A token that starts with the flag prefix leaves the queue
    as it is.  So a run of tokens without the prefix fills the specs of the
    queue in the order of the queue, one token each, as long as specs
    without enum are left.  The queue holds the positional specs in the
    order in which [Object.entries] enumerates the options; for a command
    that [command] accepted this is their order of declaration when no
    declared key is integer-like or names a member of [Object.prototype]. *)
Theorem X20_positionals_in_order (options : list OptEntry) :
  (forall (pos : OptEntry) (queue : list OptEntry) (arg : string) (rest : list string)
          (result : Record_) (unrec : list string),
      startsWith arg "-" = false ->
      match opt_enumVals (snd pos) with
      | Some vals => notInEnum vals (dataPartOf arg (hd_error rest)) = false
      | None => True
      end ->
      loopBody options (mkLoopState (pos :: queue) (arg :: rest) result unrec)
        = Ok (Continue (mkLoopState queue rest (setKey result (fst pos) (VString arg)) unrec))
      /\ scanArgs options (pos :: queue) (arg :: rest) result unrec
         = scanArgs options queue rest (setKey result (fst pos) (VString arg)) unrec)
  /\ (forall (positionals positionals' : list OptEntry) (arg : string)
             (nextArg : option string) (p : ParsedArg),
        startsWith arg "-" = true ->
        parseArg options positionals arg nextArg = Ok (p, positionals') ->
        positionals' = positionals)
  /\ (forall (tokens : list string) (positionals : list OptEntry) (result : Record_)
             (unrec : list string),
        Forall (fun t => startsWith t "-" = false) tokens ->
        Forall (fun e => opt_enumVals (snd e) = None) positionals ->
        (length tokens <= length positionals)%nat ->
        scanArgs options positionals tokens result unrec
        = Ok (Scanned (fold_left (fun r kt => setKey r (fst kt) (VString (snd kt)))
                         (combine (map fst positionals) tokens) result)
                unrec))
  /\ (forall (c : RawCommand) (cmd : Command) (config : list (string * BuilderConfig)),
        command c = Ok cmd ->
        raw_options c = Some config ->
        Forall (fun e => arrayIndex (fst e) = None /\ ~ In (fst e) objectPrototypeNames)
          config ->
        map fst (positionalEntries cmd)
        = map fst (filter (fun e => isPositional (cfg_type (snd e))) config)).
Proof.
  split; [| split; [| split]].
  - intros pos queue arg rest result unrec Hdash Henum.
    destruct (namePartOf_not_flag _ Hdash) as [Hh Hv].
    assert (Hp : parseArg options (pos :: queue) arg (hd_error rest)
                 = Ok (mkParsedArg (VString arg) (Some (fst pos)) (Some (snd pos))
                         false false false, queue)).
    { unfold parseArg. rewrite Hh, Hv, Hdash. cbn [negb].
      destruct (opt_enumVals (snd pos)) as [vals |]; [| reflexivity].
      now rewrite Henum. }
    split.
    + unfold loopBody. cbn [st_args st_positionals st_result st_unrecognized].
      rewrite Hp. reflexivity.
    + cbn [scanArgs]. rewrite Hp. reflexivity.
  - intros positionals positionals' arg nextArg p Hdash. unfold parseArg.
    destruct (isHelpFlag (namePartOf arg)); [intros H; now injection H as _ <- |].
    destruct (isVersionFlag (namePartOf arg)); [intros H; now injection H as _ <- |].
    rewrite Hdash. cbn [negb].
    destruct (findOption options _ _ _ _) as [[[[entry d] skipNext] |] |]; cbn [bind];
      intros H; try discriminate; now injection H as _ <-.
  - intros tokens. apply scanArgs_positionals.
  - intros c cmd config Hc Hraw Hplain.
    destruct (command_options c cmd config Hc Hraw) as [es [Hv Ho]].
    apply (validateOptions_plain config es Hplain) in Hv.
    destruct (prefixEntries_ok _ _ Hv) as [Hk [_ H2]].
    assert (Hkeys : Forall (fun e : string * BuilderConfig => arrayIndex (fst e) = None)
                      config).
    { eapply Forall_impl; [| exact Hplain]. cbn beta. tauto. }
    unfold positionalEntries, optEntriesOf. rewrite Ho.
    rewrite (objectEntries_plain es (plain_keys_same config es Hk Hkeys)).
    exact (positional_keys_same config es Hk H2).
Qed.

(** ** What [validateCommands] guarantees *)

Lemma namesOf_aliasesOf (c : Command) : namesOf c = cmd_name c :: aliasesOf c.
Proof. unfold namesOf, aliasesOf. destruct (cmd_aliases c); reflexivity. Qed.

Lemma validateCommand_unfold (parent : option Command)
    (storedNames : list (string * list string)) (cmd : Command) :
  validateCommand parent storedNames cmd
  = match occupier (objectValues storedNames) (cmd_name cmd) with
    | Some storage => Throw (commandNameInUse cmd parent (hd "" storage))
    | None =>
        match aliasOccupier (objectValues storedNames) (aliasesOf cmd) with
        | Some (alias, storage) =>
            Throw (commandAliasInUse cmd alias parent (hd "" storage))
        | None =>
            match cmd_subcommands cmd with
            | Some subs => validateSiblings (Some cmd) [] subs
            | None => Ok tt
            end
        end
    end.
Proof.
  destruct cmd as [name aliases options subs tr h]. unfold aliasesOf.
  cbn [validateCommand cmd_name cmd_aliases cmd_subcommands].
  destruct (occupier (objectValues storedNames) name); [reflexivity |].
  destruct (aliasOccupier _ _) as [[? ?] |]; [reflexivity |].
  destruct subs as [subs |]; [| reflexivity].
  generalize (Some (mkCommand name aliases options (Some subs) tr h)).
  generalize (@nil (string * list string)).
  induction subs as [| c rest IH]; intros stored p; [reflexivity |].
  cbn [validateSiblings].
  destruct (validateCommand _ stored c) as [[] |]; cbn [bind]; [apply IH | reflexivity].
Qed.

Lemma validateCommand_any_parent (p p' : option Command)
    (storedNames : list (string * list string)) (cmd : Command) :
  validateCommand p storedNames cmd = Ok tt -> validateCommand p' storedNames cmd = Ok tt.
Proof.
  rewrite !validateCommand_unfold.
  destruct (occupier _ _); [discriminate |].
  destruct (aliasOccupier _ _) as [[? ?] |]; [discriminate |]. auto.
Qed.

Lemma validateSiblings_any_parent (p p' : option Command) (cs : list Command) :
  forall stored,
    validateSiblings p stored cs = Ok tt -> validateSiblings p' stored cs = Ok tt.
Proof.
  induction cs as [| c rest IH]; intros stored H; [reflexivity |].
  cbn [validateSiblings] in *.
  destruct (validateCommand p stored c) as [[] |] eqn:E; [| discriminate].
  rewrite (validateCommand_any_parent p p' _ _ E). cbn [bind] in *. now apply IH.
Qed.

Lemma occupier_none_nonempty (storageVals : list (list string)) (x : string) :
  x <> EmptyString ->
  occupier storageVals x = None ->
  forall st, In st storageVals -> ~ In x st.
Proof.
  intros Hx H st Hst Hin. unfold occupier in H.
  pose proof (find_none _ _ H _ Hst) as E. cbn beta in E.
  assert (findTruthy st x = true); [| congruence].
  apply findTruthy_true. auto.
Qed.

Lemma validateSiblings_apart (parent : option Command) (cs : list Command) :
  forall stored,
    Forall (fun c => cmd_name c <> EmptyString /\ cmd_name c <> "__proto__") cs ->
    Forall (fun kv : string * list string => In (fst kv) (snd kv)) stored ->
    validateSiblings parent stored cs = Ok tt ->
    ForallOrdPairs apartNames cs
    /\ forall c n st, In c cs -> n <> EmptyString -> In n (namesOf c) ->
                      In st (map snd stored) -> ~ In n st.
Proof.
  induction cs as [| c rest IH]; intros stored Hne Hstored H.
  - split; [constructor | intros c n st []].
  - inversion Hne as [| ? ? [Hc Hproto] Hrest]; subst.
    cbn [validateSiblings] in H.
    destruct (validateCommand parent stored c) as [[] |] eqn:Ev; [| discriminate].
    cbn [bind] in H. rewrite validateCommand_unfold in Ev.
    destruct (occupier (objectValues stored) (cmd_name c)) eqn:Eocc; [discriminate |].
    destruct (aliasOccupier (objectValues stored) (aliasesOf c)) as [[? ?] |] eqn:Eal;
      [discriminate |].
    assert (Hown : forall n st, n <> EmptyString -> In n (namesOf c) ->
              In st (map snd stored) -> ~ In n st).
    { intros n st Hn Hin Hst. apply objectValues_In in Hst. revert st Hst.
      apply (occupier_none_nonempty _ _ Hn).
      rewrite namesOf_aliasesOf in Hin.
      destruct Hin as [<- | Hin]; [exact Eocc |].
      exact (aliasOccupier_none _ _ Eal _ Hin). }
    assert (Hfresh : assign stored (cmd_name c) (namesOf c)
                     = (stored ++ [(cmd_name c, namesOf c)])%list).
    { rewrite assign_setKey by exact Hproto.
      apply setKey_fresh. intros kv Hkv Heq.
      rewrite Forall_forall in Hstored. specialize (Hstored kv Hkv).
      apply (Hown (cmd_name c) (snd kv) Hc).
      - rewrite namesOf_aliasesOf. now left.
      - now apply in_map.
      - now rewrite <- Heq. }
    rewrite Hfresh in H.
    assert (Hstored' : Forall (fun kv : string * list string => In (fst kv) (snd kv))
                         (stored ++ [(cmd_name c, namesOf c)])).
    { apply Forall_app. split; [exact Hstored |].
      constructor; [| constructor]. cbn [fst snd]. rewrite namesOf_aliasesOf. now left. }
    destruct (IH _ Hrest Hstored' H) as [IHp IHout].
    split.
    + constructor; [| exact IHp].
      apply Forall_forall. intros c2 Hc2 n Hn Hin.
      apply (IHout c2 n (namesOf c) Hc2 Hn Hin).
      rewrite map_app. apply in_or_app. right. now left.
    + intros c2 n st [<- | Hc2] Hn Hin Hst; [now apply (Hown n st) |].
      apply (IHout c2 n st Hc2 Hn Hin). rewrite map_app. apply in_or_app. now left.
Qed.

Lemma validateSiblings_subcommands (parent : option Command) (cs : list Command) :
  forall stored,
    validateSiblings parent stored cs = Ok tt ->
    forall c subs, In c cs -> cmd_subcommands c = Some subs ->
                   validateSiblings None [] subs = Ok tt.
Proof.
  induction cs as [| c0 rest IH]; intros stored H c subs Hc Hsubs; [contradiction |].
  cbn [validateSiblings] in H.
  destruct (validateCommand parent stored c0) as [[] |] eqn:Ev; [| discriminate].
  cbn [bind] in H. destruct Hc as [<- | Hc]; [| exact (IH _ H c subs Hc Hsubs)].
  rewrite validateCommand_unfold in Ev.
  destruct (occupier _ _); [discriminate |].
  destruct (aliasOccupier _ _) as [[? ?] |]; [discriminate |].
  rewrite Hsubs in Ev. exact (validateSiblings_any_parent _ None _ _ Ev).
Qed.

(** X6.  When [validateCommands] accepts a list it returns that list; if no
    command of the list is named by the empty string or by [__proto__] (a
    name that the registry does not record), no two of its commands share a
    non-empty name or alias; and the subcommands of each of its commands
    are accepted by [validateCommands] in their turn. *)
Theorem X6_validateCommands_siblings (commands cs : list Command) :
  validateCommands commands = Ok cs ->
  cs = commands
  /\ (Forall (fun c => cmd_name c <> EmptyString /\ cmd_name c <> "__proto__") commands ->
      ForallOrdPairs apartNames commands)
  /\ (forall c subs, In c commands -> cmd_subcommands c = Some subs ->
        validateCommands subs = Ok subs).
Proof.
  unfold validateCommands.
  destruct (validateSiblings None [] commands) as [[] |] eqn:E; [| discriminate].
  cbn [bind]. intros H. injection H as <-. split; [reflexivity |]. split.
  - intros Hne. exact (proj1 (validateSiblings_apart _ _ _ Hne (Forall_nil _) E)).
  - intros c subs Hc Hsubs.
    now rewrite (validateSiblings_subcommands _ _ _ E c subs Hc Hsubs).
Qed.

End Properties.

(** * Worked inputs

    The definitions are run here on concrete declarations, with the decimal
    numbers of [Decimal]. *)

Import Decimal.

Definition plainOption (name : string) (type : OptionType) (required : bool)
  : ProcessedBuilderConfig :=
  mkProcessed name [] type VUndefined required false None None None.

(** A command that declares no options. *)
Definition bare : Command := mkCommand "cmd" None None None false true.

(** [mode: positional().enum('a', 'b')] *)
Definition withMode : Command :=
  mkCommand "cmd" None
    (Some [("mode", mkProcessed "mode" [] TPositional VUndefined false false None None
                      (Some ["a"; "b"]))])
    None false true.

(** [count: number()] *)
Definition withCount : Command :=
  mkCommand "cmd" None (Some [("count", plainOption "--count" TNumber false)]) None false true.

(** [n: number()] on a command named [push]. *)
Definition push : Command :=
  mkCommand "push" None (Some [("n", plainOption "--n" TNumber false)]) None false true.

(** Two required options, one of them with an alias. *)
Definition withRequired : Command :=
  mkCommand "cmd" None
    (Some [("a", plainOption "--a" TString true);
           ("b", mkProcessed "--b" ["-b"] TString VUndefined true false None None None)])
    None false true.

Definition migrate : Command := mkCommand "migrate" None None None false true.
Definition db : Command := mkCommand "db" None None (Some [migrate]) false false.

(** C1, the claim as stated fails: [--nope], which carries no [=], takes
    [--also-nope=1] as its value, so the aggregate error names [--nope]
    alone. *)
Lemma C1_counterexample :
  parseOptions bare ["--nope"; "--also-nope=1"] false
    = Throw (unrecognizedOptions "cmd" ["--nope"])
  /\ parseOptions bare ["--nope"; "--also-nope=1"] false
       <> Throw (unrecognizedOptions "cmd" ["--nope"; "--also-nope"])
  /\ scanArgs [] [] ["--nope"; "--also-nope=1"] [] []
       <> scanArgs [] [] ["--also-nope=1"] (setKey [] "undefined" VUndefined) ["--nope"].
Proof. repeat split; vm_compute; discriminate. Qed.

Lemma C1_witness :
  scanArgs [] [] ["--also-nope=1"; "--nope"] [] []
  = scanArgs [] [] ["--nope"] (setKey [] "undefined" VUndefined) ["--also-nope"].
Proof.
  apply (proj1 C1_unrecognized_flag [] [] "--also-nope=1" ["--nope"] [] []);
    try reflexivity.
  intros e [].
Defined.

(** C2, the claim as stated fails: a token left without a positional slot
    turns a parse that returns [undefined] into one that throws. *)
Lemma C2_counterexample :
  parseOptions bare ["extra"] false = Throw (unrecognizedOptions "cmd" ["extra"])
  /\ parseOptions bare [] false = Ok Undefined.
Proof. split; reflexivity. Qed.

(** [file: positional()] *)
Definition withFile : Command :=
  mkCommand "cmd" None
    (Some [("file", mkProcessed "file" [] TPositional VUndefined false false None None None)])
    None false true.

(** The token [stray] arrives after [a] has taken the one positional. *)
Lemma C2_witness :
  In "stray" ["stray"]
  /\ (parseOptions withFile ["a"; "stray"] false
        = Throw (unrecognizedOptions "cmd" ["stray"])
      \/ exists missing,
           missing <> []
           /\ parseOptions withFile ["a"; "stray"] false
              = Throw (missingRequired "cmd" missing)).
Proof.
  exact (proj2 (proj2 (proj2 (C2_stray_token_recorded [] "stray" []
                                [("file", VString "a")] [] eq_refl)))
           withFile ["a"; "stray"] false 1%nat eq_refl eq_refl).
Defined.

(** After a token without a slot, a later token may still settle the
    parse: here the value of [--n] is no number. *)
Lemma stray_token_then_bad_number :
  parseOptions push ["stray"; "--n=abc"] false
  = Throw (invalidNumberValue "--n" (Some "abc")).
Proof. reflexivity. Qed.

(** C3, at the failing inputs: the member [a] alone is refused, because the
    check reads the (absent) next token; [c=a], which is not a member, is
    recorded, because the check reads the text after [=]. *)
Theorem C3_positional_enum_checks_data_part :
  parseOptions withMode ["a"] false = Throw (enumViolationPos "mode" "a" ["a"; "b"])
  /\ parseOptions withMode ["c=a"] false = Ok (Options [("mode", VString "c=a")])
  /\ parseOptions withMode ["c"; "a"] false = Throw (unrecognizedOptions "cmd" ["a"]).
Proof. repeat split; reflexivity. Qed.

(** C4, the claim as stated fails: only the first help flag is examined.
    Here the second one follows [push], which is no flag, but the first one
    is taken for the value of [--n]; no short-circuit happens and the parse
    of [--n] throws. *)
Lemma C4_counterexample :
  at_ ["--n"; "--help"; "push"; "--help"] 3 = Some "--help"
  /\ at_ ["--n"; "--help"; "push"; "--help"] 2 = Some "push"
  /\ bareFlag "push" = false
  /\ helpShortCircuit ["--n"; "--help"; "push"; "--help"] = false
  /\ rawCliArgs [push] ["--n"; "--help"; "push"; "--help"] false
     = Throw (invalidNumberValue "--n" (Some "--help")).
Proof. repeat split; reflexivity. Qed.

Lemma C4_witness :
  rawCliArgs [push] ["push"; "--help"] false = Ok (commandHelp push).
Proof.
  apply (proj2 (proj2 (proj2 (C4_help_version_short_circuit [push] [] false)))).
  reflexivity.
Defined.

Definition requiredString : BuilderConfig :=
  mkBuilderConfig None [] TString VUndefined true false None None None.

(** [options: { 2: string().required(), 1: string().required() }] *)
Definition numbered : RawCommand :=
  mkRawCommand (Some "cmd") None
    (Some [("2", requiredString); ("1", requiredString)]) None false true.

(** C5, the claim as stated fails: the option declared under the key [2]
    comes first in the declaration, but the error lists the option of the
    key [1] before it, since integer-like keys are enumerated in ascending
    order. *)
Lemma C5_counterexample :
  exists cmd,
    command numbered = Ok cmd
    /\ option_map (map fst) (raw_options numbered) = Some ["2"; "1"]
    /\ parseOptions cmd [] false = Throw (missingRequired "cmd" [["-1"]; ["-2"]])
    /\ parseOptions cmd [] false <> Throw (missingRequired "cmd" [["-2"]; ["-1"]]).
Proof.
  eexists. split; [reflexivity |]. split; [reflexivity |].
  split; [reflexivity | discriminate].
Qed.

Lemma C5_witness :
  parseOptions withRequired ["--zzz=1"] false
  = Throw (missingRequired "cmd" [["--a"]; ["--b"; "-b"]]).
Proof.
  apply (proj1 (C5_missing_required_aggregate withRequired ["--zzz=1"] false
                  [("undefined", VUndefined)] ["--zzz"]
                  ltac:(repeat constructor; simpl; intuition discriminate)
                  eq_refl
                  ltac:(intros e [<- | [<- | []]] _; reflexivity)
                  ltac:(eexists; split; [left; reflexivity | reflexivity]))).
Defined.

(** C6, at the failing input: the value that passed the numeric checks is
    stored as the string ["5"], not as the number. *)
Theorem C6_number_kept_as_string :
  parseOptions withCount ["--count=5"] false = Ok (Options [("count", VString "5")])
  /\ parseOptions withCount ["--count"; "5"] false = Ok (Options [("count", VString "5")])
  /\ VString "5" <> VNumber (Number "5").
Proof. repeat split; try reflexivity. discriminate. Qed.

Lemma C7_witness :
  getCommand [db] ["db"; "migrate"; "--dry"] = Ok (Resolve migrate, ["--dry"]).
Proof.
  apply (proj2 (C7_resolution_deepest [] [] migrate [])); reflexivity.
Defined.

(** C8, the claim as stated fails: [Help] equals [help] up to case and is
    accepted. *)
Lemma C8_counterexample :
  toLowerCase "Help" = "help"
  /\ command (mkRawCommand (Some "Help") None None None false true)
     = Ok (mkCommand "Help" None None None false true).
Proof. split; reflexivity. Qed.

Lemma C8_witness :
  exists e, command (mkRawCommand (Some "x") (Some ["True"]) None None false true) = Throw e.
Proof.
  apply C8_command_name_rejected. right. right.
  exists "True". split; [right; left; reflexivity | right; right; reflexivity].
Defined.

Lemma C9_witness :
  Forall (indexes ["migrate"; "--dry"]) [mkCandidate "migrate" 0].
Proof.
  apply (proj1 (proj2 (C9_candidates_index_their_tokens [db] ["db"; "migrate"; "--dry"]
           (unknownSubcommand db "migrate") [migrate]
           (map shiftCandidate [mkCandidate "migrate" 1])
           (removeByIndex ["db"; "migrate"; "--dry"] 0)
           (call_sub [db] ["db"; "migrate"; "--dry"] (unknownCommand "db") [db]
              (mkCandidate "db" 0) (mkCandidate "migrate" 1) [] ["db"; "migrate"; "--dry"]
              db [migrate]
              (call_first [db] ["db"; "migrate"; "--dry"] (mkCandidate "db" 0)
                 [mkCandidate "migrate" 1] eq_refl eq_refl)
              eq_refl eq_refl)))).
Defined.

Lemma C10_witness :
  parseOptions bare [] false = Ok Undefined
  /\ test bare [] = test_handler (Direct Undefined).
Proof.
  apply (proj2 (proj2 (C10_empty_result_is_undefined bare [] false))). reflexivity.
Defined.

(** ** Further worked inputs *)

(** [count: number().alias('c')], as the option builder hands it over. *)
Definition countConfig : list (string * BuilderConfig) :=
  [("count", mkBuilderConfig None ["c"] TNumber VUndefined false false None None None)].

Definition countEntries : list OptEntry :=
  [("count", mkProcessed "--count" ["-c"] TNumber VUndefined false false None None None)].

(** [verbose: boolean()] *)
Definition verboseOption : ProcessedBuilderConfig := plainOption "--verbose" TBoolean false.

(** [count: number().min(1).max(10)] *)
Definition boundedCount : ProcessedBuilderConfig :=
  mkProcessed "--count" [] TNumber VUndefined false false (Some (Some 1)) (Some (Some 10)) None.

(** [mode: string().enum('a', 'b')] *)
Definition modeOption : ProcessedBuilderConfig :=
  mkProcessed "--mode" [] TString VUndefined false false None None (Some ["a"; "b"]).

(** [level: string().default('info')] *)
Definition levelOption : ProcessedBuilderConfig :=
  mkProcessed "--level" [] TString (VString "info") false false None None None.

Definition withLevel : Command :=
  mkCommand "cmd" None (Some [("level", levelOption)]) None false true.

Definition source : ProcessedBuilderConfig :=
  mkProcessed "source" [] TPositional VUndefined false false None None None.

Definition target : ProcessedBuilderConfig :=
  mkProcessed "target" [] TPositional VUndefined false false None None None.

Lemma X2_witness : dataPartOf "--mode=a=b" None = Some "a=b".
Proof.
  exact (proj2 (proj2 (proj1 (X2_token_name_and_data "--mode" None eq_refl) "a=b"))).
Defined.

Lemma X3_witness :
  startsWith "-c" "-" = true /\ includes "-c" "=" = false /\ ~ In "-c" reservedNames.
Proof.
  apply (proj2 (proj2 (proj2 (X3_validateOptions_names countConfig countEntries eq_refl)))
           ("count", mkProcessed "--count" ["-c"] TNumber VUndefined false false
                       None None None)).
  - left. reflexivity.
  - reflexivity.
  - right. left. reflexivity.
Defined.

Lemma X4_witness : NoDup (flat_map optNames (filter isNamedOption countEntries)).
Proof. exact (X4_validateOptions_names_distinct countConfig countEntries eq_refl). Defined.

Lemma X5_witness :
  NoDup (namesOf (mkCommand "push" (Some ["p"]) None None false true)).
Proof.
  exact (proj1 (proj2 (X5_command_accepts
                         (mkRawCommand (Some "push") (Some ["p"]) None None false true)
                         (mkCommand "push" (Some ["p"]) None None false true) eq_refl))).
Defined.

Lemma X6_witness : ForallOrdPairs apartNames [db; push].
Proof.
  apply (proj1 (proj2 (X6_validateCommands_siblings [db; push] [db; push] eq_refl))).
  repeat constructor; discriminate.
Defined.

Lemma X7_witness : removeByIndex ["a"; "b"; "c"] 5 = ["a"; "b"; "c"].
Proof.
  apply (proj2 (proj2 (proj2 (X7_removeByIndex_removes_one ["a"; "b"; "c"] 5
                                ltac:(lia)))));
    simpl; lia.
Defined.

Lemma X8_witness : getCommand [db] ["--a"; "-b=1"] = Ok (NoCommand, ["--a"; "-b=1"]).
Proof.
  apply (proj2 (X8_candidates_are_not_flags [db] ["--a"; "-b=1"] 0)).
  repeat constructor.
Defined.

Lemma X9_witness : getCommand [db] ["deploy"] = Throw (unknownCommand "deploy").
Proof.
  apply (proj1 (X9_unknown_command_errors [db] ["deploy"] (mkCandidate "deploy" 0) []
                  eq_refl ltac:(discriminate))).
  reflexivity.
Defined.

Lemma X10_witness :
  filter (fun t => startsWith t "-") ["--dry"]
  = filter (fun t => startsWith t "-") ["db"; "migrate"; "--dry"].
Proof.
  exact (proj1 (X10_resolution_keeps_flags [db] ["db"; "migrate"; "--dry"]
                  (Resolve migrate) ["--dry"] eq_refl)).
Defined.

Lemma X11_witness : parseOptions withRequired ["--help"; "x"] false = Ok Help.
Proof.
  apply (proj1 (proj1 (X11_help_version_sentinels withRequired ["--help"; "x"] false)
                  "--help" ["x"] eq_refl)).
  reflexivity.
Defined.

Lemma X12_witness :
  parseArg [("verbose", verboseOption)] [] "--verbose=TRUE" None
  = Ok (mkParsedArg (VBoolean true) (Some "verbose") (Some verboseOption)
          false false false, []).
Proof.
  exact (X12_boolean_with_value "verbose" verboseOption [] [] "--verbose" "TRUE" None
           eq_refl (or_introl eq_refl) eq_refl eq_refl eq_refl eq_refl).
Defined.

Lemma X13_witness :
  parseArg [("verbose", verboseOption)] [] "--verbose" (Some "file.txt")
  = Ok (mkParsedArg (VBoolean true) (Some "verbose") (Some verboseOption)
          false false false, []).
Proof.
  exact (X13_boolean_bare "verbose" verboseOption [] [] "--verbose" (Some "file.txt")
           eq_refl (or_introl eq_refl) eq_refl eq_refl eq_refl eq_refl).
Defined.

Lemma X14_witness :
  parseArg [("count", boundedCount)] [] "--count" None
  = Throw (invalidNumberSyntax "--count").
Proof.
  apply (proj2 (X14_missing_value "count" boundedCount [] [] "--count"
                  (or_introl eq_refl) eq_refl eq_refl eq_refl eq_refl)).
  reflexivity.
Defined.

Lemma X15_witness :
  matchOption boundedCount "--count" true (Some "5") None
  = Ok (Some (VString "5", false)).
Proof.
  apply (proj1 (X15_number_validation boundedCount "--count" "5" true None
                  eq_refl eq_refl (or_introl eq_refl))).
  split; [reflexivity |]. split; [discriminate |].
  split; intros m E; injection E as <-; reflexivity.
Defined.

Lemma X16_witness :
  matchOption modeOption "--mode" true (Some "a") None = Ok (Some (VString "a", false)).
Proof.
  apply (proj1 (X16_string_enum modeOption "--mode" "a" true None ["a"; "b"]
                  eq_refl eq_refl eq_refl (or_introl eq_refl))).
  split; [left; reflexivity | discriminate].
Defined.

Lemma X17_witness : readKey [("level", VString "info")] "level" = VString "info".
Proof.
  destruct (X17_values_and_defaults withLevel [] false [("level", VString "info")]
              ltac:(repeat constructor; simpl; tauto) eq_refl)
    as [result [Hscan [Hval _]]].
  injection Hscan as <-.
  exact (Hval ("level", levelOption) (or_introl eq_refl)).
Defined.

Lemma X18_witness : VString "5" <> VUndefined.
Proof.
  exact (X18_omit_undefined withCount ["--count=5"] [("count", VString "5")] eq_refl
           "count" (VString "5") (or_introl eq_refl)).
Defined.

Lemma X19_witness :
  exists before after,
    [db] = (before ++ db :: after)%list
    /\ In "db" (namesOf db) /\ "db" <> EmptyString
    /\ forall b, In b before -> ~ In "db" (namesOf b).
Proof. exact (proj1 (X19_findCommand_match [db] "db") db eq_refl). Defined.

Lemma X20_witness :
  scanArgs [] [("source", source); ("target", target)] ["a.txt"; "b.txt"] [] []
  = Ok (Scanned [("source", VString "a.txt"); ("target", VString "b.txt")] []).
Proof.
  apply (proj1 (proj2 (proj2 (X20_positionals_in_order [])))
           ["a.txt"; "b.txt"] [("source", source); ("target", target)] [] []);
    repeat constructor.
Defined.
